(** * Test discovery and shard orchestration of the Playwright janitor

    A shallow embedding of
      packages/testing/janitor/src/core/test-discovery-analyzer.ts
      packages/testing/janitor/src/core/orchestrator.ts
    and of the CI adapter built on them,
      scripts/distribute-tests.mjs
    and the properties stated about them.

    Numbers.  Durations are millisecond counts.  [Orchestrator] is the
    orchestrator on integers: durations are [Z], the arithmetic on them is
    exact, the one division of the program
    ([totalDuration / numSubGroups]) is kept as a fraction, together with
    the special values a JavaScript division can produce from integers
    (infinities, NaN and the negative zero of [Math.ceil]), and a lookup
    in the metrics finds an own property or nothing.  [Runtime] is the
    orchestrator on IEEE 754 doubles, with the lookup of a plain object,
    which also finds what [Object.prototype] holds.  The two enrich a
    spec alike when the metrics are safe integers and no path is looked
    up on the prototype alone ([enrichWithDuration_integers]).

    Strings are sequences of code units; [Set]s that are only iterated
    after sorting are finite sets; the [Map] of capability groups, whose
    iteration order is observable, is an association list in insertion
    order. *)

From Stdlib Require Import Ascii.
From Stdlib Require Import FloatClass PrimFloat SpecFloat FloatOps FloatAxioms.
From stdpp Require Import base numbers option list strings gmap sorting.

Local Open Scope Z_scope.
Set Warnings "-clear-no-such-hyp,-register-all,-inexact-float".

(** * The program *)

(** ** JavaScript helpers *)

Module Js.

(** [Array.prototype.sort(compareFn)]: a stable sort; [x] goes after [y]
    when [compareFn(x, y) > 0]. *)
Section sort.
Context {A : Type} (compareFn : A → A → Z).

Fixpoint insert (x : A) (l : list A) : list A :=
  match l with
  | [] => [x]
  | y :: l' => if 0 <? compareFn x y then y :: insert x l' else x :: l
  end.

Definition sort (l : list A) : list A := foldr insert [] l.

End sort.

(** [xs.sort()] on strings: ascending order of code units. *)
Definition sort_strings (l : list string) : list string :=
  merge_sort String.le l.

(** The value of [Math.ceil(a / b)] for integers [a] and [b]. *)
Inductive Ceil :=
| CInt (n : Z)
| CNegZero
| CPosInf
| CNegInf
| CNaN.

(** The value of [a / n]: a fraction [num / den] with [0 < den], or a
    special value. *)
Inductive Quot :=
| QFrac (num den : Z)
| QPosInf
| QNegInf
| QNaN.

Definition sign_split {A} (a : Z) (pos neg zero : A) : A :=
  if 0 <? a then pos else if a <? 0 then neg else zero.

(** [Math.ceil(a / b)].  A quotient in (-1, 0], other than +0, has the
    ceiling -0. *)
Definition ceil_div (a b : Z) : Ceil :=
  if b =? 0 then sign_split a CPosInf CNegInf CNaN
  else
    let n := - ((- a) `div` b) in
    if n =? 0 then (if (a =? 0) && (0 <? b) then CInt 0 else CNegZero)
    else CInt n.

(** [a / n] for an integer [a] and [n] the result of [Math.ceil]. *)
Definition div_ceil (a : Z) (n : Ceil) : Quot :=
  match n with
  | CInt n =>
      if n =? 0 then sign_split a QPosInf QNegInf QNaN
      else if 0 <? n then QFrac a n
      else QFrac (- a) (- n)
  | CNegZero => sign_split a QNegInf QPosInf QNaN
  | CPosInf | CNegInf => QFrac 0 1
  | CNaN => QNaN
  end.

(** [x > q] for an integer [x]. *)
Definition gt_quot (x : Z) (q : Quot) : bool :=
  match q with
  | QFrac num den => num <? x * den
  | QNegInf => true
  | QPosInf | QNaN => false
  end.

(** [v || d] for a number [v] that may be [undefined]: zero is falsy. *)
Definition or_default (v : option Z) (d : Z) : Z :=
  match v with
  | Some x => if x =? 0 then d else x
  | None => d
  end.

(** Truthiness of a [string | null]: the empty string is falsy. *)
Definition truthy (s : option string) : bool :=
  match s with
  | Some s => negb (String.eqb s "")
  | None => false
  end.

(** [s.startsWith(prefix)] and [s.slice(n)]. *)
Definition startsWith (s prefix : string) : bool := String.prefix prefix s.

Fixpoint slice (s : string) (n : nat) : string :=
  match n, s with
  | S n', String _ s' => slice s' n'
  | _, _ => s
  end.

(** The characters of the class [[\w:-]]: letters, digits, underscore,
    colon and hyphen. *)
Definition is_tag_char (a : ascii) : bool :=
  let n := nat_of_ascii a in
  ((48 <=? n) && (n <=? 57) || (65 <=? n) && (n <=? 90)
   || (97 <=? n) && (n <=? 122) || (n =? 95) || (n =? 58) || (n =? 45))%nat.

(** [[...s.matchAll(/@[\w:-]+/g)].map((m) => m[0])]: the maximal runs of
    tag characters that follow an [@], from left to right.  [pending] is
    the run read since the last [@], if the scan is behind one. *)
Definition flush (pending : option string) : list string :=
  match pending with
  | Some (String a run) => [String "@"%char (String a run)]
  | _ => []
  end.

Fixpoint scan_tags (pending : option string) (s : string) : list string :=
  match s with
  | EmptyString => flush pending
  | String a s' =>
      if is_tag_char a
      then scan_tags ((λ run, run +:+ String a EmptyString) <$> pending) s'
      else flush pending
             ++ scan_tags (if Ascii.eqb a "@"%char then Some EmptyString else None) s'
  end.

Definition match_tags (s : string) : list string := scan_tags None s.

End Js.

(** ** The discovery analyzer *)

Module Discovery.

Record DiscoveredSpec := {
  path : string;
  capabilities : list string;
}.

Record DiscoveryReport := {
  report_specs : list DiscoveredSpec;
  report_skipTags : list string;
}.

Record TestCallInfo := {
  skipped : bool;
  isDescribe : bool;
  tags : list string;
}.

(** The part of [getConfig()] that the analyzer reads. *)
Record Config := {
  skipTags : list string;
  capabilityPrefix : string;
}.

(** Syntax trees, as far as the analyzer inspects them.  A call carries the
    text of its callee expression; the body of a function expression is a
    block, that of an arrow function a block or an expression; a block
    carries its start offset. *)
Inductive Node :=
| CallExpression (text : string) (callee : Node) (args : list Node)
| StringLiteral (literalText : string)
| NoSubstitutionTemplateLiteral (literalText : string)
| ArrowFunction (parameters : list Node) (body : Node)
| FunctionExpression (parameters : list Node) (start : nat) (statements : list Node)
| Block (start : nat) (statements : list Node)
| Other (children : list Node).

Record SourceFile := {
  filePath : string;
  statements : list Node;
}.

(** What the analyzer reads of a call expression: [getExpression().getText()],
    [getArguments()], and the chain of [getFirstAncestorByKind(Block)], as
    start offsets, innermost block first. *)
Record Call := {
  expression : string;
  arguments : list Node;
  blocks : list nat;
}.

(** [getDescendantsOfKind(SyntaxKind.CallExpression)] below a node whose
    enclosing blocks are [enclosing], in document order. *)
Fixpoint calls_in (enclosing : list nat) (n : Node) : list Call :=
  match n with
  | CallExpression text callee args =>
      {| expression := text; arguments := args; blocks := enclosing |}
        :: calls_in enclosing callee ++ flat_map (calls_in enclosing) args
  | ArrowFunction parameters body =>
      flat_map (calls_in enclosing) parameters ++ calls_in enclosing body
  | FunctionExpression parameters start statements =>
      flat_map (calls_in enclosing) parameters
        ++ flat_map (calls_in (start :: enclosing)) statements
  | Block start statements => flat_map (calls_in (start :: enclosing)) statements
  | Other children => flat_map (calls_in enclosing) children
  | StringLiteral _ | NoSubstitutionTemplateLiteral _ => []
  end.

Definition getDescendantCalls (file : SourceFile) : list Call :=
  flat_map (calls_in []) (statements file).

(** [expr === 'test.fixme' || expr === 'test.skip'] *)
Definition is_disable_marker (expr : string) : bool :=
  bool_decide (expr = "test.fixme") || bool_decide (expr = "test.skip").

Definition extractSkippedBlock (callExpr : Call) : option nat :=
  if negb (is_disable_marker (expression callExpr)) then None
  else
    match arguments callExpr with
    | [] => head (blocks callExpr)
    | args =>
        match last args with
        | Some (ArrowFunction _ (Block start _)) => Some start
        | Some (FunctionExpression _ start _) => Some start
        | _ => None
        end
    end.

Definition findSkippedScopes (file : SourceFile) : gset nat :=
  fold_left
    (λ skippedScopes callExpr,
       match extractSkippedBlock callExpr with
       | Some blockStart => {[ blockStart ]} ∪ skippedScopes
       | None => skippedScopes
       end)
    (getDescendantCalls file) ∅.

Definition isInsideSkippedScope (call : Call) (skippedScopes : gset nat) : bool :=
  existsb (λ start, bool_decide (start ∈ skippedScopes)) (blocks call).

Definition extractTitle (call : Call) : option string :=
  match arguments call with
  | StringLiteral text :: _ => Some text
  | NoSubstitutionTemplateLiteral text :: _ => Some text
  | _ => None
  end.

Definition parseTags (title : string) : list string := Js.match_tags title.

Definition parseTestCall (call : Call) (skipTags : list string)
    : option TestCallInfo :=
  let expr := expression call in
  let isTest := bool_decide (expr = "test") || bool_decide (expr = "test.only") in
  let isDescribe := bool_decide (expr = "test.describe") in
  let isFixme := bool_decide (expr = "test.fixme") in
  let isSkip := bool_decide (expr = "test.skip") in
  if negb isTest && negb isDescribe && negb isFixme && negb isSkip then None
  else
    title ← extractTitle call;
    let tags := parseTags title in
    let skippedByCall := isFixme || isSkip in
    let skippedByTag := existsb (λ tag, bool_decide (tag ∈ skipTags)) tags in
    Some {| skipped := skippedByCall || skippedByTag;
            isDescribe := isDescribe;
            tags := tags |}.

(** The body of the loop of [extractTestCalls] for one call expression. *)
Definition classify (config : Config) (skippedScopes : gset nat) (callExpr : Call)
    : option TestCallInfo :=
  info ← parseTestCall callExpr (skipTags config);
  Some (if negb (skipped info) && isInsideSkippedScope callExpr skippedScopes
        then {| skipped := true; isDescribe := isDescribe info; tags := tags info |}
        else info).

Definition extractTestCalls (config : Config) (file : SourceFile)
    : list TestCallInfo :=
  let skippedScopes := findSkippedScopes file in
  omap (classify config skippedScopes) (getDescendantCalls file).

(** [getRelativePath] and the comparison of [String.prototype.localeCompare]
    come from outside the analyzer. *)
Section analyze.
Context (getRelativePath : string → string).
Context (localeCompare : string → string → Z).

Definition analyzeTestFile (config : Config) (file : SourceFile)
    : option DiscoveredSpec :=
  let calls := extractTestCalls config file in
  if bool_decide (length calls = 0%nat) then None
  else if negb (existsb (λ call, negb (skipped call) && negb (isDescribe call)) calls)
  then None
  else
    let allTags : gset string :=
      fold_left (λ allTags call,
                   fold_left (λ allTags tag, {[ tag ]} ∪ allTags) (tags call) allTags)
                calls ∅ in
    let capabilities :=
      omap (λ tag, if Js.startsWith tag (capabilityPrefix config)
                   then Some (Js.slice tag (String.length (capabilityPrefix config)))
                   else None)
           (elements allTags) in
    Some {| path := getRelativePath (filePath file);
            capabilities := Js.sort_strings capabilities |}.

(** [files] is the result of [getSourceFiles]. *)
Definition discover (config : Config) (files : list SourceFile) : DiscoveryReport :=
  let specs := omap (analyzeTestFile config) files in
  {| report_specs := Js.sort (λ a b, localeCompare (path a) (path b)) specs;
     report_skipTags := skipTags config |}.

End analyze.

End Discovery.

(** ** The shard orchestrator, on integers *)

Module Orchestrator.

Import Discovery.

Record ShardAssignment := {
  shard : nat;
  specs : list string;
  testTime : Z;
  shard_capabilities : list string;
  fixtureCount : nat;
}.

Record OrchestrationResult := {
  shards : list ShardAssignment;
  totalTestTime : Z;
}.

Record OrchestrationConfig := {
  defaultDuration : Z;
  maxGroupDuration : Z;
}.

Record SpecWithDuration := {
  sd_path : string;
  sd_capabilities : list string;
  duration : Z;
}.

Record PackingItem := {
  capability : option string;
  item_specs : list string;
  item_duration : Z;
}.

Record Bucket := {
  b_specs : list string;
  b_testTime : Z;
  b_capabilities : gset string;
  b_hasStandardSpecs : bool;
}.

(** [groups] of [groupByCapability]: a [Map], iterated in the order in
    which its keys were first set. *)
Abbreviation Groups := (list (string * list SpecWithDuration)).

(** [metrics[spec.path] || defaultDuration] on integers, for a path that
    is a key of the metrics or is not found on [Object.prototype];
    [Runtime.enrichWithDuration] has the lookup and the numbers in full. *)
Definition enrichWithDuration (specs : list DiscoveredSpec)
    (metrics : gmap string Z) (defaultDuration : Z) : list SpecWithDuration :=
  (λ spec, {| sd_path := path spec;
              sd_capabilities := capabilities spec;
              duration := Js.or_default (metrics !! path spec) defaultDuration |})
    <$> specs.

(** [if (!groups.has(cap)) groups.set(cap, []); groups.get(cap)?.push(spec)] *)
Fixpoint groups_push (cap : string) (spec : SpecWithDuration)
    (groups : Groups) : Groups :=
  match groups with
  | [] => [(cap, [spec])]
  | (c, members) :: rest =>
      if decide (c = cap) then (c, members ++ [spec]) :: rest
      else (c, members) :: groups_push cap spec rest
  end.

Definition group_step (acc : Groups * list SpecWithDuration)
    (spec : SpecWithDuration) : Groups * list SpecWithDuration :=
  match sd_capabilities spec with
  | cap :: _ => (groups_push cap spec acc.1, acc.2)
  | [] => (acc.1, acc.2 ++ [spec])
  end.

Definition groupByCapability (specs : list SpecWithDuration)
    : Groups * list SpecWithDuration :=
  fold_left group_step specs ([], []).

(** [specs.reduce((sum, s) => sum + s.duration, 0)] *)
Definition sum_duration (specs : list SpecWithDuration) : Z :=
  fold_left (λ sum s, sum + duration s) specs 0.

(** One turn of the loop over the sorted members of a large group; the
    state is [subGroups] and [currentTotal].  [subGroups] is never empty,
    so its last element always exists. *)
Definition split_step (targetPerSubGroup : Js.Quot)
    (st : list (list SpecWithDuration) * Z) (spec : SpecWithDuration)
    : list (list SpecWithDuration) * Z :=
  let '(subGroups, currentTotal) := st in
  let currentIdx := pred (length subGroups) in
  let '(subGroups, currentTotal) :=
    if Js.gt_quot (currentTotal + duration spec) targetPerSubGroup
       && bool_decide (0 < length (default [] (subGroups !! currentIdx)))%nat
    then (subGroups ++ [[]], 0)
    else (subGroups, currentTotal) in
  (alter (λ g, g ++ [spec]) (pred (length subGroups)) subGroups,
   currentTotal + duration spec).

Definition make_item (capability : string) (members : list SpecWithDuration)
    : PackingItem :=
  {| capability := Some capability;
     item_specs := sd_path <$> members;
     item_duration := sum_duration members |}.

(** The body of the loop of [splitLargeGroups] for one map entry. *)
Definition split_group (maxGroupDuration : Z)
    (entry : string * list SpecWithDuration) : list PackingItem :=
  let '(capability, specs) := entry in
  let specs := Js.sort (λ a b, duration b - duration a) specs in
  let totalDuration := sum_duration specs in
  if (maxGroupDuration <? totalDuration) && bool_decide (1 < length specs)%nat
  then
    let numSubGroups := Js.ceil_div totalDuration maxGroupDuration in
    let targetPerSubGroup := Js.div_ceil totalDuration numSubGroups in
    let subGroups := (fold_left (split_step targetPerSubGroup) specs ([[]], 0)).1 in
    make_item capability <$> subGroups
  else [make_item capability specs].

Definition splitLargeGroups (groups : Groups) (maxGroupDuration : Z)
    : list PackingItem :=
  flat_map (split_group maxGroupDuration) groups.

Definition empty_bucket : Bucket :=
  {| b_specs := []; b_testTime := 0; b_capabilities := ∅;
     b_hasStandardSpecs := false |}.

(** [buckets.reduce((min, b) => (b.testTime < min.testTime ? b : min))],
    as the index of the bucket it returns; [lightest_from] is the
    reduction with the accumulator at index [min] and the next bucket at
    index [i]. *)
Fixpoint lightest_from (min : nat) (minTime : Z) (i : nat)
    (buckets : list Bucket) : nat :=
  match buckets with
  | [] => min
  | b :: rest =>
      if b_testTime b <? minTime
      then lightest_from i (b_testTime b) (S i) rest
      else lightest_from min minTime (S i) rest
  end.

(** [reduce] without an initial value throws on an empty array. *)
Definition lightest (buckets : list Bucket) : option nat :=
  match buckets with
  | [] => None
  | b :: rest => Some (lightest_from 0 (b_testTime b) 1 rest)
  end.

Definition add_item (item : PackingItem) (b : Bucket) : Bucket :=
  {| b_specs := b_specs b ++ item_specs item;
     b_testTime := b_testTime b + item_duration item;
     b_capabilities :=
       if Js.truthy (capability item)
       then {[ default "" (capability item) ]} ∪ b_capabilities b
       else b_capabilities b;
     b_hasStandardSpecs :=
       if Js.truthy (capability item) then b_hasStandardSpecs b else true |}.

Definition assign_step (buckets : list Bucket) (item : PackingItem)
    : option (list Bucket) :=
  i ← lightest buckets;
  Some (alter (add_item item) i buckets).

Fixpoint assign_loop (allItems : list PackingItem) (buckets : list Bucket)
    : option (list Bucket) :=
  match allItems with
  | [] => Some buckets
  | item :: rest => assign_step buckets item ≫= assign_loop rest
  end.

Definition assignToShards (items : list PackingItem) (numShards : nat)
    : option (list Bucket) :=
  let allItems := Js.sort (λ a b, item_duration b - item_duration a) items in
  let buckets := replicate numShards empty_bucket in
  assign_loop allItems buckets.

Definition standard_item (spec : SpecWithDuration) : PackingItem :=
  {| capability := None;
     item_specs := [sd_path spec];
     item_duration := duration spec |}.

Definition to_shard (i : nat) (b : Bucket) : ShardAssignment :=
  {| shard := i + 1;
     specs := b_specs b;
     testTime := b_testTime b;
     shard_capabilities := Js.sort_strings (elements (b_capabilities b));
     fixtureCount :=
       size (b_capabilities b) + (if b_hasStandardSpecs b then 1 else 0) |}.

(** [None] stands for the [TypeError] of [reduce] on an empty array. *)
Definition orchestrate (specs : list DiscoveredSpec) (numShards : nat)
    (metrics : gmap string Z) (config : OrchestrationConfig)
    : option OrchestrationResult :=
  let enriched := enrichWithDuration specs metrics (defaultDuration config) in
  let '(groups, standard) := groupByCapability enriched in
  let capabilityItems := splitLargeGroups groups (maxGroupDuration config) in
  let standardItems := standard_item <$> standard in
  buckets ← assignToShards (capabilityItems ++ standardItems) numShards;
  let totalTestTime := sum_duration enriched in
  Some {| shards :=
            imap to_shard
              (filter (λ b, (0 < length (b_specs b))%nat) buckets);
          totalTestTime := totalTestTime |}.

End Orchestrator.

(** ** The CI adapter (scripts/distribute-tests.mjs) *)

Module Distribute.

Import Orchestrator.

Definition CAPABILITY_IMAGES : gmap string (list string) :=
  list_to_map
    [("email", ["mailpit"]);
     ("kafka", ["kafka"]);
     ("observability",
      ["victoriaLogs"; "victoriaMetrics"; "vector"; "jaeger"; "n8nTracer"]);
     ("oidc", ["keycloak"]);
     ("proxy", ["mockserver"]);
     ("source-control", ["gitea"])].

Definition BASE_IMAGES : list string :=
  ["postgres"; "redis"; "caddy"; "n8n"; "taskRunner"].

(** The property names that an object literal inherits from
    [Object.prototype]. *)
Definition Object_prototype : list string :=
  ["constructor"; "__defineGetter__"; "__defineSetter__"; "hasOwnProperty";
   "__lookupGetter__"; "__lookupSetter__"; "isPrototypeOf";
   "propertyIsEnumerable"; "toString"; "valueOf"; "__proto__"; "toLocaleString"].

(** The value of [CAPABILITY_IMAGES[cap]]: the array of an own property, a
    function or object found on the prototype (truthy, not iterable), or
    [undefined]. *)
Inductive Property :=
| Own (capImages : list string)
| Inherited
| Undefined.

Definition capImages_of (cap : string) : Property :=
  match CAPABILITY_IMAGES !! cap with
  | Some capImages => Own capImages
  | None => if bool_decide (cap ∈ Object_prototype) then Inherited else Undefined
  end.

(** The loop of [getRequiredImages] over the capabilities; [None] stands
    for the [TypeError] of [for ... of] on a value that is not iterable. *)
Fixpoint add_images (capabilities : list string) (images : gset string)
    : option (gset string) :=
  match capabilities with
  | [] => Some images
  | cap :: rest =>
      match capImages_of cap with
      | Own capImages => add_images rest (list_to_set capImages ∪ images)
      | Inherited => None
      | Undefined => add_images rest images
      end
  end.

Definition getRequiredImages (capabilities : list string) : option (list string) :=
  images ← add_images capabilities (list_to_set BASE_IMAGES);
  Some (Js.sort_strings (elements images)).

(** [xs.join(sep)] *)
Fixpoint join (sep : string) (xs : list string) : string :=
  match xs with
  | [] => ""
  | x :: rest =>
      match rest with
      | [] => x
      | _ => x +:+ sep +:+ join sep rest
      end
  end.

(** An entry of the matrix that the script prints. *)
Record MatrixEntry := {
  m_shard : nat;
  m_specs : string;
  m_images : string;
}.

(** [--matrix <shards>] without [--orchestrate]. *)
Definition simple_matrix (shards : nat) : list MatrixEntry :=
  (λ i, {| m_shard := i + 1; m_specs := ""; m_images := "" |}) <$> seq 0 shards.

(** [--matrix <shards> --orchestrate]: the matrix made of [result], the
    output of [janitor orchestrate]. *)
Definition orchestrated_matrix (result : OrchestrationResult)
    : option (list MatrixEntry) :=
  if bool_decide (length (shards result) = 0%nat)
  then Some [{| m_shard := 1; m_specs := ""; m_images := "" |}]
  else
    mapM (λ shard,
            images ← getRequiredImages (shard_capabilities shard);
            Some {| m_shard := Orchestrator.shard shard;
                    m_specs := join " " (specs shard);
                    m_images := join " " images |})
         (shards result).

(** [<shards> <index>]: [result.shards[index]], the shard whose specs are
    printed, if there is one. *)
Definition selected_shard (result : OrchestrationResult) (index : nat)
    : option ShardAssignment :=
  shards result !! index.

End Distribute.

(** ** The orchestrator on doubles and plain objects *)

(** The orchestrator once more, with the numbers and the lookups of
    JavaScript.  Durations are IEEE 754 doubles, with the arithmetic of
    the standard (round to nearest, ties to even); [metrics[spec.path]] is
    a lookup in a plain object, which finds the members of
    [Object.prototype] when the object has no own property of that name. *)

Module Runtime.

Import Discovery.

(** The value of [o[key]] for a plain object with the own properties [o]:
    the own property, a member found on [Object.prototype] (a function, or
    the prototype itself for [__proto__]), or [undefined]. *)
Inductive Property (A : Type) :=
| Own (value : A)
| Inherited (name : string)
| Undefined.
Arguments Own {A} value.
Arguments Inherited {A} name.
Arguments Undefined {A}.

Definition get {A} (o : gmap string A) (key : string) : Property A :=
  match o !! key with
  | Some value => Own value
  | None =>
      if bool_decide (key ∈ Distribute.Object_prototype)
      then Inherited key else Undefined
  end.

(** What [metrics[spec.path] || defaultDuration] evaluates to: a number,
    or a member of [Object.prototype], which is truthy. *)
Inductive Value (A : Type) :=
| Number (x : A)
| Member (name : string).
Arguments Number {A} x.
Arguments Member {A} name.

Definition or_default {A} (falsy : A → bool) (v : Property A) (d : A) : Value A :=
  match v with
  | Own x => if falsy x then Number d else Number x
  | Inherited name => Member name
  | Undefined => Number d
  end.

Record Enriched (A : Type) := {
  e_path : string;
  e_capabilities : list string;
  e_duration : Value A;
}.
Arguments e_path {A} _.
Arguments e_capabilities {A} _.
Arguments e_duration {A} _.

(** [enrichWithDuration], for numbers of type [A] of which [falsy] are
    falsy. *)
Definition enrichWithDuration {A} (falsy : A → bool) (specs : list DiscoveredSpec)
    (metrics : gmap string A) (defaultDuration : A) : list (Enriched A) :=
  (λ spec, {| e_path := path spec;
              e_capabilities := capabilities spec;
              e_duration :=
                or_default falsy (get metrics (path spec)) defaultDuration |})
    <$> specs.

(** The falsy numbers: [+0], [-0] and [NaN]. *)
Definition falsy (x : float) : bool :=
  match PrimFloat.classify x with
  | PZero | NZero | NaN => true
  | _ => false
  end.

(** [Math.ceil]: a finite [x] is [m * 2^e] up to its sign; the ceiling of a
    negative number above -1 is [-0]. *)
Definition ceil (x : float) : float :=
  match Prim2SF x with
  | S754_finite negative m e =>
      if 0 <=? e then x
      else
        let d := 2 ^ (- e) in
        let q := Z.pos m `div` d in
        let n := if negative then q
                 else if Z.pos m `mod` d =? 0 then q else q + 1 in
        match n with
        | Z.pos p => SF2Prim (S754_finite negative p 0)
        | _ => SF2Prim (S754_zero negative)
        end
  | _ => x
  end.

(** [Array.prototype.sort(compareFn)] for a comparator that returns a
    number: [x] goes after [y] when [compareFn(x, y) > 0]; [NaN] counts as
    0.  The sort is stable, which fixes the result for every consistent
    comparator. *)
Section sort.
Context {A : Type} (compareFn : A → A → float).

Fixpoint insert (x : A) (l : list A) : list A :=
  match l with
  | [] => [x]
  | y :: l' =>
      if PrimFloat.ltb 0 (compareFn x y) then y :: insert x l' else x :: l
  end.

Definition sort (l : list A) : list A := foldr insert [] l.

End sort.

Record ShardAssignment := {
  shard : nat;
  specs : list string;
  testTime : float;
  shard_capabilities : list string;
  fixtureCount : nat;
}.

Record OrchestrationResult := {
  shards : list ShardAssignment;
  totalTestTime : float;
}.

Record OrchestrationConfig := {
  defaultDuration : float;
  maxGroupDuration : float;
}.

Record SpecWithDuration := {
  sd_path : string;
  sd_capabilities : list string;
  duration : float;
}.

Record PackingItem := {
  capability : option string;
  item_specs : list string;
  item_duration : float;
}.

Record Bucket := {
  b_specs : list string;
  b_testTime : float;
  b_capabilities : gset string;
  b_hasStandardSpecs : bool;
}.

Abbreviation Groups := (list (string * list SpecWithDuration)).

Fixpoint groups_push (cap : string) (spec : SpecWithDuration)
    (groups : Groups) : Groups :=
  match groups with
  | [] => [(cap, [spec])]
  | (c, members) :: rest =>
      if decide (c = cap) then (c, members ++ [spec]) :: rest
      else (c, members) :: groups_push cap spec rest
  end.

Definition group_step (acc : Groups * list SpecWithDuration)
    (spec : SpecWithDuration) : Groups * list SpecWithDuration :=
  match sd_capabilities spec with
  | cap :: _ => (groups_push cap spec acc.1, acc.2)
  | [] => (acc.1, acc.2 ++ [spec])
  end.

Definition groupByCapability (specs : list SpecWithDuration)
    : Groups * list SpecWithDuration :=
  fold_left group_step specs ([], []).

(** [specs.reduce((sum, s) => sum + s.duration, 0)] *)
Definition sum_duration (specs : list SpecWithDuration) : float :=
  fold_left (λ sum s, PrimFloat.add sum (duration s)) specs 0%float.

Definition split_step (targetPerSubGroup : float)
    (st : list (list SpecWithDuration) * float) (spec : SpecWithDuration)
    : list (list SpecWithDuration) * float :=
  let '(subGroups, currentTotal) := st in
  let currentIdx := pred (length subGroups) in
  let '(subGroups, currentTotal) :=
    if PrimFloat.ltb targetPerSubGroup (PrimFloat.add currentTotal (duration spec))
       && bool_decide (0 < length (default [] (subGroups !! currentIdx)))%nat
    then (subGroups ++ [[]], 0%float)
    else (subGroups, currentTotal) in
  (alter (λ g, g ++ [spec]) (pred (length subGroups)) subGroups,
   PrimFloat.add currentTotal (duration spec)).

Definition make_item (capability : string) (members : list SpecWithDuration)
    : PackingItem :=
  {| capability := Some capability;
     item_specs := sd_path <$> members;
     item_duration := sum_duration members |}.

Definition split_group (maxGroupDuration : float)
    (entry : string * list SpecWithDuration) : list PackingItem :=
  let '(capability, specs) := entry in
  let specs := sort (λ a b, PrimFloat.sub (duration b) (duration a)) specs in
  let totalDuration := sum_duration specs in
  if PrimFloat.ltb maxGroupDuration totalDuration
     && bool_decide (1 < length specs)%nat
  then
    let numSubGroups := ceil (PrimFloat.div totalDuration maxGroupDuration) in
    let targetPerSubGroup := PrimFloat.div totalDuration numSubGroups in
    let subGroups :=
      (fold_left (split_step targetPerSubGroup) specs ([[]], 0%float)).1 in
    make_item capability <$> subGroups
  else [make_item capability specs].

Definition splitLargeGroups (groups : Groups) (maxGroupDuration : float)
    : list PackingItem :=
  flat_map (split_group maxGroupDuration) groups.

Definition empty_bucket : Bucket :=
  {| b_specs := []; b_testTime := 0%float; b_capabilities := ∅;
     b_hasStandardSpecs := false |}.

Fixpoint lightest_from (min : nat) (minTime : float) (i : nat)
    (buckets : list Bucket) : nat :=
  match buckets with
  | [] => min
  | b :: rest =>
      if PrimFloat.ltb (b_testTime b) minTime
      then lightest_from i (b_testTime b) (S i) rest
      else lightest_from min minTime (S i) rest
  end.

Definition lightest (buckets : list Bucket) : option nat :=
  match buckets with
  | [] => None
  | b :: rest => Some (lightest_from 0 (b_testTime b) 1 rest)
  end.

Definition add_item (item : PackingItem) (b : Bucket) : Bucket :=
  {| b_specs := b_specs b ++ item_specs item;
     b_testTime := PrimFloat.add (b_testTime b) (item_duration item);
     b_capabilities :=
       if Js.truthy (capability item)
       then {[ default "" (capability item) ]} ∪ b_capabilities b
       else b_capabilities b;
     b_hasStandardSpecs :=
       if Js.truthy (capability item) then b_hasStandardSpecs b else true |}.

Definition assign_step (buckets : list Bucket) (item : PackingItem)
    : option (list Bucket) :=
  i ← lightest buckets;
  Some (alter (add_item item) i buckets).

Fixpoint assign_loop (allItems : list PackingItem) (buckets : list Bucket)
    : option (list Bucket) :=
  match allItems with
  | [] => Some buckets
  | item :: rest => assign_step buckets item ≫= assign_loop rest
  end.

Definition assignToShards (items : list PackingItem) (numShards : nat)
    : option (list Bucket) :=
  let allItems :=
    sort (λ a b, PrimFloat.sub (item_duration b) (item_duration a)) items in
  let buckets := replicate numShards empty_bucket in
  assign_loop allItems buckets.

Definition standard_item (spec : SpecWithDuration) : PackingItem :=
  {| capability := None;
     item_specs := [sd_path spec];
     item_duration := duration spec |}.

Definition to_shard (i : nat) (b : Bucket) : ShardAssignment :=
  {| shard := i + 1;
     specs := b_specs b;
     testTime := b_testTime b;
     shard_capabilities := Js.sort_strings (elements (b_capabilities b));
     fixtureCount :=
       size (b_capabilities b) + (if b_hasStandardSpecs b then 1 else 0) |}.

(** The spec with its duration, when the duration is a number. *)
Definition numeric (e : Enriched float) : option SpecWithDuration :=
  match e_duration e with
  | Number x => Some {| sd_path := e_path e;
                        sd_capabilities := e_capabilities e;
                        duration := x |}
  | Member _ => None
  end.

(** What a call of [orchestrate] does.  When a duration is a member of
    [Object.prototype], the sums that follow concatenate strings; the
    model stops there. *)
Inductive Outcome :=
| Returns (result : OrchestrationResult)
| Throws
| NotNumeric.

Definition orchestrate (specs : list DiscoveredSpec) (numShards : nat)
    (metrics : gmap string float) (config : OrchestrationConfig) : Outcome :=
  match mapM numeric
          (enrichWithDuration falsy specs metrics (defaultDuration config)) with
  | None => NotNumeric
  | Some enriched =>
      let '(groups, standard) := groupByCapability enriched in
      let capabilityItems := splitLargeGroups groups (maxGroupDuration config) in
      let standardItems := standard_item <$> standard in
      match assignToShards (capabilityItems ++ standardItems) numShards with
      | None => Throws
      | Some buckets =>
          let totalTestTime := sum_duration enriched in
          Returns {| shards :=
                       imap to_shard
                         (filter (λ b, (0 < length (b_specs b))%nat) buckets);
                     totalTestTime := totalTestTime |}
      end
  end.

End Runtime.

Import Discovery Orchestrator.

(** * Vocabulary of the properties *)

(** ** Data of the test suites *)

Definition spec (p : string) (caps : list string) : DiscoveredSpec :=
  {| path := p; capabilities := caps |}.

Definition DEFAULT_CONFIG : OrchestrationConfig :=
  {| defaultDuration := 60000; maxGroupDuration := 300000 |}.

Definition balance_metrics : gmap string Z :=
  <["heavy.spec.ts" := 100000]> (<["medium.spec.ts" := 50000]>
    (<["light1.spec.ts" := 25000]> (<["light2.spec.ts" := 25000]> ∅))).

Definition balance_specs : list DiscoveredSpec :=
  [spec "heavy.spec.ts" []; spec "medium.spec.ts" [];
   spec "light1.spec.ts" []; spec "light2.spec.ts" []].

Definition default_config : Config :=
  {| skipTags := []; capabilityPrefix := "@capability:" |}.

(** [test.describe('g', () => { test.fixme(); test('inner', ...) })], for
    any further arguments of the inner call. *)
Definition describe_fixme (rest : list Node) : SourceFile :=
  {| filePath := "/test-root/tests/describe-fixme.spec.ts";
     statements :=
       [Other [CallExpression "test.describe" (Other [])
                 [StringLiteral "g";
                  ArrowFunction []
                    (Block 25
                       [Other [CallExpression "test.fixme" (Other []) []];
                        Other [CallExpression "test" (Other [])
                                 (StringLiteral "inner" :: rest)]])]]] |}.

(** [test.describe('multi @capability:proxy', () => {
      test('also email @capability:email', async () => {}) })] *)
Definition multi_file : SourceFile :=
  {| filePath := "/test-root/tests/multi.spec.ts";
     statements :=
       [Other [CallExpression "test.describe" (Other [])
                 [StringLiteral "multi @capability:proxy";
                  ArrowFunction []
                    (Block 45
                       [Other [CallExpression "test" (Other [])
                                 [StringLiteral "also email @capability:email";
                                  ArrowFunction [] (Block 97 [])]]])]]] |}.

(** [test.fixme('broken feature', async () => { test('sub-test', ...) })],
    for any further arguments of the inner call. *)
Definition wrapper_fixme (rest : list Node) : SourceFile :=
  {| filePath := "/test-root/tests/wrapper-fixme.spec.ts";
     statements :=
       [Other [CallExpression "test.fixme" (Other [])
                 [StringLiteral "broken feature";
                  ArrowFunction []
                    (Block 41
                       [Other [CallExpression "test" (Other [])
                                 (StringLiteral "sub-test" :: rest)]])]]] |}.



(** The configuration and metrics of the scenarios, as doubles. *)
Definition DEFAULT_CONFIG_doubles : Runtime.OrchestrationConfig :=
  {| Runtime.defaultDuration := 60000; Runtime.maxGroupDuration := 300000 |}.

Definition three_specs : list DiscoveredSpec :=
  [spec "a.spec.ts" []; spec "b.spec.ts" []; spec "c.spec.ts" []].

Definition fractional_metrics : gmap string float :=
  <["a.spec.ts" := 77030.7%float]> (<["b.spec.ts" := 45315.3%float]>
    (<["c.spec.ts" := 66181.6%float]> ∅)).

Definition large_metrics : gmap string float :=
  <["a.spec.ts" := 1%float]> (<["b.spec.ts" := 1%float]>
    (<["c.spec.ts" := 9007199254740992%float]> ∅)).

(** Specs whose lookups in [lookup_metrics] go all the ways a lookup can
    go. *)
Definition lookup_specs : list DiscoveredSpec :=
  [spec "stored.spec.ts" ["email"]; spec "zero.spec.ts" [];
   spec "negative-zero.spec.ts" []; spec "nan.spec.ts" [];
   spec "absent.spec.ts" []; spec "constructor" []; spec "__proto__" []].

Definition lookup_metrics : gmap string float :=
  <["stored.spec.ts" := 120000.5%float]> (<["zero.spec.ts" := 0%float]>
    (<["negative-zero.spec.ts" := neg_zero]> (<["nan.spec.ts" := nan]> ∅))).

(** The metrics of [balance_metrics], as doubles. *)
Definition integer_metrics : gmap string float :=
  <["heavy.spec.ts" := 100000%float]> (<["medium.spec.ts" := 50000%float]>
    (<["light1.spec.ts" := 25000%float]> (<["light2.spec.ts" := 25000%float]> ∅))).

(** ** Sums and orders *)

(** The sum of [f] over a list. *)
Definition sumZ {A} (f : A → Z) (l : list A) : Z := foldr (λ x acc, f x + acc) 0 l.

(** [sort((a, b) => key(b) - key(a))]: larger keys first. *)
Definition sort_desc {A} (key : A → Z) (l : list A) : list A :=
  Js.sort (λ a b, key b - key a) l.


(** ** Grouping *)

Definition first_cap (s : SpecWithDuration) : option string :=
  head (sd_capabilities s).

(** What [groupByCapability] has built after the specs [l]. *)
Record grouped (l : list SpecWithDuration)
    (acc : Groups * list SpecWithDuration) : Prop := {
  grouped_NoDup : NoDup acc.1.*1;
  grouped_members c ms :
    (c, ms) ∈ acc.1 → ms ≠ [] ∧ ms = filter (λ s, first_cap s = Some c) l;
  grouped_keys s c : s ∈ l → first_cap s = Some c → c ∈ acc.1.*1;
  grouped_standard : acc.2 = filter (λ s, first_cap s = None) l;
  grouped_perm : concat acc.1.*2 ++ acc.2 ≡ₚ l;
}.

(** The distinct elements of a list, in the order of their first
    occurrence. *)
Fixpoint first_occurrences (l : list string) : list string :=
  match l with
  | [] => []
  | c :: l' => c :: filter (λ x, x ≠ c) (first_occurrences l')
  end.



(** [s] with only its first capability, and [s] with every occurrence of
    the capability [c] removed. *)
Definition keep_first (s : DiscoveredSpec) : DiscoveredSpec :=
  {| path := path s; capabilities := take 1 (capabilities s) |}.

Definition without (c : string) (s : DiscoveredSpec) : DiscoveredSpec :=
  {| path := path s; capabilities := filter (λ x, x ≠ c) (capabilities s) |}.

Definition forget_rest (s : SpecWithDuration) : SpecWithDuration :=
  {| sd_path := sd_path s; sd_capabilities := take 1 (sd_capabilities s);
     duration := duration s |}.

Definition forget_rest_groups (g : Groups) : Groups :=
  (λ e : string * list SpecWithDuration, (e.1, forget_rest <$> e.2)) <$> g.

(** ** Splitting *)

(** The split of one group as a recursion over its members, with the
    quotients of the program: sort the members by descending duration; if
    the total exceeds the limit and there is more than one member, walk
    the members, keep a current subgroup, and start a new one when adding
    the next member would exceed the target, unless the current subgroup
    is still empty. *)
Module SplitSpec.

Definition is_empty {A} (l : list A) : bool :=
  match l with [] => true | _ => false end.

Fixpoint accumulate (target : Js.Quot) (current rest : list SpecWithDuration)
    : list (list SpecWithDuration) :=
  match rest with
  | [] => [current]
  | s :: rest' =>
      if Js.gt_quot (sumZ duration current + duration s) target
         && negb (is_empty current)
      then current :: accumulate target [s] rest'
      else accumulate target (current ++ [s]) rest'
  end.

Definition exceeds_threshold (maxGroupDuration : Z)
    (members : list SpecWithDuration) : bool :=
  (maxGroupDuration <? sumZ duration members)
  && bool_decide (1 < length members)%nat.

Definition subgroups (maxGroupDuration : Z)
    (members : list SpecWithDuration) : list (list SpecWithDuration) :=
  let sorted := sort_desc duration members in
  if exceeds_threshold maxGroupDuration members then
    let total := sumZ duration members in
    let numSubGroups := Js.ceil_div total maxGroupDuration in
    let target := Js.div_ceil total numSubGroups in
    accumulate target [] sorted
  else [sorted].

Definition tagged (capability : string) (members : list SpecWithDuration)
    : PackingItem :=
  {| capability := Some capability;
     item_specs := sd_path <$> members;
     item_duration := sumZ duration members |}.

Definition items (maxGroupDuration : Z) (groups : Groups) : list PackingItem :=
  '(capability, members) ← groups;
  tagged capability <$> subgroups maxGroupDuration members.

End SplitSpec.

(** The split of one group as the specification words it, in the
    arithmetic of the integers and without the helpers of the program: the
    number of subgroups by the bounds of a ceiling, the target by a
    product in place of the division. *)
Module GreedySpec.


(** Adding [s] to [current] would exceed the target [total / n], for a
    positive [n]. *)
Definition exceeds (total n : Z) (current : list SpecWithDuration)
    (s : SpecWithDuration) : bool :=
  bool_decide (total < (sumZ duration current + duration s) * n).

Fixpoint accumulate (total n : Z) (current rest : list SpecWithDuration)
    : list (list SpecWithDuration) :=
  match rest with
  | [] => [current]
  | s :: rest' =>
      if exceeds total n current s && bool_decide (0 < length current)%nat
      then current :: accumulate total n [s] rest'
      else accumulate total n (current ++ [s]) rest'
  end.

(** The item of a subgroup: its capability, the paths of its members and
    the sum of their durations. *)
Definition item (capability : string) (members : list SpecWithDuration)
    : PackingItem :=
  {| capability := Some capability;
     item_specs := sd_path <$> members;
     item_duration := sumZ duration members |}.

End GreedySpec.

(** ** Packing *)

(** Steps 1 to 4 of [orchestrate]: the packing items of an input. *)
Definition packing_items (specs : list DiscoveredSpec) (metrics : gmap string Z)
    (config : OrchestrationConfig) : list PackingItem :=
  let enriched := enrichWithDuration specs metrics (defaultDuration config) in
  let '(groups, standard) := groupByCapability enriched in
  splitLargeGroups groups (maxGroupDuration config) ++ (standard_item <$> standard).

(** [i] is the first bucket of lowest [testTime]. *)
Definition is_lightest (buckets : list Bucket) (i : nat) : Prop :=
  ∃ b, buckets !! i = Some b ∧
       ∀ j b', buckets !! j = Some b' →
               b_testTime b ≤ b_testTime b'
               ∧ ((j < i)%nat → b_testTime b < b_testTime b').

(** The bucket that received the items [its], in this order. *)
Definition fill (its : list PackingItem) (b : Bucket) : Bucket :=
  fold_left (λ b it, add_item it b) its b.

Definition bucket_of (its : list PackingItem) : Bucket := fill its empty_bucket.

(** The shards made of the buckets of [assigned]. *)
Definition shards_of (assigned : list (list PackingItem)) : list ShardAssignment :=
  imap (λ i its, to_shard i (bucket_of its)) assigned.

(** [it] is the packing item made of the specs [ms]: they have the first
    capability of the item, or none if the item has none. *)
Record item_of (it : PackingItem) (ms : list SpecWithDuration) : Prop := {
  item_of_nonempty : ms ≠ [];
  item_of_specs : item_specs it = sd_path <$> ms;
  item_of_duration : item_duration it = sumZ duration ms;
  item_of_capability : Forall (λ s, first_cap s = capability it) ms;
}.

(** The specs of a shard: those of the items it received. *)
Definition members_of (ims : list (PackingItem * list SpecWithDuration))
    : list SpecWithDuration :=
  concat ims.*2.

(** The duration of the longest packing item, 0 if there is none. *)
Definition max_duration (items : list PackingItem) : Z :=
  foldr (λ it m, item_duration it `max` m) 0 items.

(** ** Capability extraction *)

(** The capabilities of a file as the specification words them: take the
    tags of all calls, keep those with the prefix, strip it, sort,
    deduplicate. *)
Module CapabilitySpec.

Definition capabilities (prefix : string) (calls : list TestCallInfo) : list string :=
  let allTags := flat_map tags calls in
  let kept := filter (λ tag, Js.startsWith tag prefix = true) allTags in
  let stripped := (λ tag, Js.slice tag (String.length prefix)) <$> kept in
  remove_dups (Js.sort_strings stripped).

(** The recognized calls of a file: test, focus, describe and disable
    calls that have a literal title, skipped or not. *)
Definition recognized (config : Config) (file : SourceFile) : list TestCallInfo :=
  omap (λ call, parseTestCall call (skipTags config)) (getDescendantCalls file).

End CapabilitySpec.

(** ** Tags *)

(** The strings of the shape [@[\w:-]+]: an [@] and at least one tag
    character, and nothing else. *)
Fixpoint all_tag_chars (s : string) : bool :=
  match s with
  | EmptyString => true
  | String a s' => Js.is_tag_char a && all_tag_chars s'
  end.

Definition is_tag (s : string) : bool :=
  match s with
  | String a (String b run) => Ascii.eqb a "@"%char && all_tag_chars (String b run)
  | _ => false
  end.

(** A comparison of paths by length, as a stand-in for [localeCompare]. *)
Definition compare_length (a b : string) : Z :=
  Z.of_nat (String.length a) - Z.of_nat (String.length b).

(** ** Lookups and doubles *)

(** No duration is looked up on [Object.prototype] alone: every path is a
    key of the metrics, or is not the name of a member of the prototype. *)
Definition numeric_lookups {A} (discovered : list DiscoveredSpec)
    (metrics : gmap string A) : Prop :=
  Forall (λ s, metrics !! path s = None → path s ∉ Distribute.Object_prototype)
         discovered.

(** The durations of the enriched specs that are numbers. *)
Definition durations (discovered : list DiscoveredSpec)
    (metrics : gmap string float) (defaultDuration : float) : list float :=
  omap (λ e, match Runtime.e_duration e with
             | Runtime.Number x => Some x
             | Runtime.Member _ => None
             end)
       (Runtime.enrichWithDuration Runtime.falsy discovered metrics defaultDuration).

(** The sum of the [testTime]s of the shards, from the first to the last. *)
Definition sum_testTime (shards : list Runtime.ShardAssignment) : float :=
  fold_left (λ sum sh, PrimFloat.add sum (Runtime.testTime sh)) shards 0%float.

(** [Number.MAX_SAFE_INTEGER] *)
Definition MAX_SAFE_INTEGER : Z := 2 ^ 53 - 1.

(** The double nearest to an integer. *)
Definition of_integer (n : Z) : float :=
  SF2Prim (binary_normalize prec emax n 0 false).

(** The integer part of a double that is finite and not negative. *)
Definition to_integer (x : float) : Z :=
  match Prim2SF x with
  | S754_finite false m e =>
      if 0 <=? e then Z.pos m * 2 ^ e else Z.pos m `div` 2 ^ (- e)
  | _ => 0
  end.

(** The doubles that hold an integer from 0 to [MAX_SAFE_INTEGER]. *)
Definition safe_integer (x : float) : Prop :=
  ∃ n, 0 ≤ n ≤ MAX_SAFE_INTEGER ∧ x = of_integer n.

(** The double of a positive integer below [2^53]: the integer, shifted
    to 53 digits. *)
Definition canonical (p : positive) : spec_float :=
  let d := Z.pos (digits2_pos p) in
  S754_finite false (Z.to_pos (Z.pos p * 2 ^ (53 - d))) (d - 53).

(** An item, or a bucket, whose duration is a safe integer, and zero when
    it holds no spec. *)
Definition exact_item (it : Runtime.PackingItem) : Prop :=
  safe_integer (Runtime.item_duration it)
  ∧ (Runtime.item_specs it = [] → to_integer (Runtime.item_duration it) = 0).

Definition exact_bucket (b : Runtime.Bucket) : Prop :=
  safe_integer (Runtime.b_testTime b)
  ∧ (Runtime.b_specs b = [] → to_integer (Runtime.b_testTime b) = 0).

(** The enriched spec of [Orchestrator], as [Runtime] has it. *)
Definition as_double (s : SpecWithDuration) : Runtime.Enriched float :=
  {| Runtime.e_path := sd_path s;
     Runtime.e_capabilities := sd_capabilities s;
     Runtime.e_duration := Runtime.Number (of_integer (duration s)) |}.

(** * Properties *)

(** ** Sorting and summing *)

Section sort_desc_facts.
Context {A : Type} (key : A → Z).

Lemma insert_desc_perm x l : Js.insert (λ a b, key b - key a) x l ≡ₚ x :: l.
Proof.
  induction l as [|y l IH]; simpl; [done|].
  case_match; [|done].
  rewrite IH. apply Permutation_swap.
Qed.

Lemma sort_desc_perm l : sort_desc key l ≡ₚ l.
Proof.
  unfold sort_desc, Js.sort.
  induction l as [|x l IH]; simpl; [done|].
  by rewrite insert_desc_perm, IH.
Qed.

Lemma sort_desc_length l : length (sort_desc key l) = length l.
Proof. apply Permutation_length, sort_desc_perm. Qed.

Lemma sort_desc_elem_of x l : x ∈ sort_desc key l ↔ x ∈ l.
Proof. by rewrite sort_desc_perm. Qed.



End sort_desc_facts.

Lemma insert_desc_fmap {A B} (f : A → B) (key : B → Z) x (l : list A) :
  Js.insert (λ a b, key b - key a) (f x) (f <$> l)
  = f <$> Js.insert (λ a b, key (f b) - key (f a)) x l.
Proof.
  induction l as [|y l IH]; csimpl; [done|].
  case_match; csimpl; [by rewrite IH | done].
Qed.

Lemma sort_desc_fmap {A B} (f : A → B) (key : B → Z) (l : list A) :
  sort_desc key (f <$> l) = f <$> sort_desc (λ a, key (f a)) l.
Proof.
  unfold sort_desc, Js.sort.
  induction l as [|x l IH]; csimpl; [done|].
  by rewrite IH, insert_desc_fmap.
Qed.

Section sumZ_facts.
Context {A : Type} (f : A → Z).

Lemma sumZ_app l1 l2 : sumZ f (l1 ++ l2) = sumZ f l1 + sumZ f l2.
Proof. induction l1; simpl; lia. Qed.

Lemma sumZ_perm l1 l2 : l1 ≡ₚ l2 → sumZ f l1 = sumZ f l2.
Proof. induction 1; simpl; lia. Qed.

Lemma fold_left_add l z : fold_left (λ sum x, sum + f x) l z = z + sumZ f l.
Proof.
  revert z. induction l as [|x l IH]; intros z; simpl; [lia|].
  rewrite IH. lia.
Qed.

Lemma sumZ_concat (ls : list (list A)) : sumZ f (concat ls) = sumZ (sumZ f) ls.
Proof. induction ls; simpl; [done|]. rewrite sumZ_app. lia. Qed.
End sumZ_facts.

Lemma sumZ_fmap {A B} (g : A → B) (f : B → Z) l : sumZ f (g <$> l) = sumZ (f ∘ g) l.
Proof. induction l; simpl; [done|]. by f_equal. Qed.

Lemma sum_duration_sumZ l : sum_duration l = sumZ duration l.
Proof. unfold sum_duration. rewrite fold_left_add. lia. Qed.

Lemma filter_none {A} (P : A → Prop) `{!∀ x, Decision (P x)} (l : list A) :
  (∀ x, x ∈ l → ¬ P x) → filter P l = [].
Proof.
  intros Hnone. destruct (filter P l) as [|y k] eqn:E; [done|].
  assert (y ∈ filter P l) as [? ?]%list_elem_of_filter by (rewrite E; left).
  naive_solver.
Qed.

Lemma elem_of_concat {A} (x : A) (ls : list (list A)) :
  x ∈ concat ls ↔ ∃ l, l ∈ ls ∧ x ∈ l.
Proof.
  induction ls as [|k ls IH]; simpl.
  - set_solver.
  - rewrite elem_of_app, IH. set_solver.
Qed.

(** ** Step 2: grouping by the first capability *)

Lemma groups_push_keys c x (g : Groups) :
  (groups_push c x g).*1 = if decide (c ∈ g.*1) then g.*1 else g.*1 ++ [c].
Proof.
  induction g as [|[k m] g IH]; csimpl.
  - done.
  - destruct (decide (k = c)) as [->|Hk]; csimpl.
    + by rewrite decide_True by set_solver.
    + rewrite IH. destruct (decide (c ∈ g.*1)).
      * by rewrite decide_True by set_solver.
      * by rewrite decide_False by set_solver.
Qed.

Lemma groups_push_NoDup c x (g : Groups) :
  NoDup g.*1 → NoDup (groups_push c x g).*1.
Proof.
  intros Hnd. rewrite groups_push_keys. case_decide; [done|].
  apply NoDup_app. split_and!; [done | set_solver | apply NoDup_singleton].
Qed.

Lemma groups_push_concat c x (g : Groups) :
  concat (groups_push c x g).*2 ≡ₚ x :: concat g.*2.
Proof.
  induction g as [|[k m] g IH]; csimpl; [done|].
  destruct (decide (k = c)); csimpl.
  - rewrite <- (assoc_L (++)). csimpl. by rewrite <- Permutation_middle.
  - rewrite IH. by rewrite <- Permutation_middle.
Qed.

Lemma elem_of_groups_push c x (g : Groups) c' ms' :
  NoDup g.*1 →
  (c', ms') ∈ groups_push c x g →
  (c' ≠ c ∧ (c', ms') ∈ g) ∨
  (c' = c ∧ ∃ ms, ms' = ms ++ [x] ∧ ((c, ms) ∈ g ∨ (ms = [] ∧ c ∉ g.*1))).
Proof.
  induction g as [|[k m] g IH]; csimpl; intros Hnd Hin.
  - apply list_elem_of_singleton in Hin. simplify_eq.
    right. split; [done|]. exists []. split; [done|]. right. set_solver.
  - apply NoDup_cons in Hnd as [Hk Hnd].
    destruct (decide (k = c)) as [->|Hkc].
    + apply elem_of_cons in Hin as [Heq|Hin].
      * simplify_eq. right. split; [done|]. exists m. split; [done|]. left. left.
      * left. split; [|by right].
        intros ->. apply Hk. apply list_elem_of_fmap. by exists (c, ms').
    + apply elem_of_cons in Hin as [Heq|Hin].
      * simplify_eq. left. split; [done | left].
      * destruct (IH Hnd Hin) as [[? ?]|[-> (ms & -> & [?|[-> ?]])]].
        -- left. split; [done | by right].
        -- right. split; [done|]. exists ms. split; [done|]. left. by right.
        -- right. split; [done|]. exists []. split; [done|]. right.
           split; [done | set_solver].
Qed.

Lemma grouped_nil : grouped [] ([], []).
Proof.
  split; csimpl; [constructor | set_solver | set_solver | done | done].
Qed.

Lemma grouped_step l acc x :
  grouped l acc → grouped (l ++ [x]) (group_step acc x).
Proof.
  intros [Hnd Hmem Hkeys Hstd Hperm]. unfold group_step.
  destruct (sd_capabilities x) as [|cap caps] eqn:Hcaps.
  - assert (first_cap x = None) as Hx by (unfold first_cap; by rewrite Hcaps).
    split; csimpl.
    + done.
    + intros c ms Hin. destruct (Hmem c ms Hin) as [? ->]. split; [done|].
      rewrite filter_app, filter_cons_False, filter_nil, (right_id_L [] (++)); [done|].
      by rewrite Hx.
    + intros s c [Hs| ->%list_elem_of_singleton]%elem_of_app Hc; [eauto|congruence].
    + rewrite filter_app, filter_cons_True, filter_nil by done. by rewrite Hstd.
    + by rewrite (assoc_L (++)), Hperm.
  - assert (first_cap x = Some cap) as Hx by (unfold first_cap; by rewrite Hcaps).
    split; csimpl.
    + by apply groups_push_NoDup.
    + intros c ms Hin.
      destruct (elem_of_groups_push _ _ _ _ _ Hnd Hin)
        as [[Hne Hin']|[-> (ms0 & -> & Hin')]]; clear Hin; rename Hin' into Hin.
      * destruct (Hmem c ms Hin) as [? ->]. split; [done|].
        rewrite filter_app, filter_cons_False, filter_nil, (right_id_L [] (++)); [done|].
        rewrite Hx. congruence.
      * split; [by destruct ms0|].
        rewrite filter_app, filter_cons_True, filter_nil by done. f_equal.
        destruct Hin as [Hin|[-> Hin]].
        -- by destruct (Hmem cap ms0 Hin) as [_ <-].
        -- symmetry. apply filter_none.
           intros s Hs Hc. eapply Hin, Hkeys; eauto.
    + intros s c [Hs| ->%list_elem_of_singleton]%elem_of_app Hc.
      * rewrite groups_push_keys. case_decide; [eauto|].
        apply elem_of_app. left. eauto.
      * assert (c = cap) as -> by congruence.
        rewrite groups_push_keys. case_decide; [done | set_solver].
    + rewrite filter_app, filter_cons_False, filter_nil, (right_id_L [] (++)); [done|].
      by rewrite Hx.
    + rewrite groups_push_concat. csimpl. rewrite Hperm.
      apply Permutation_cons_append.
Qed.

Lemma groupByCapability_grouped l : grouped l (groupByCapability l).
Proof.
  unfold groupByCapability. induction l as [|x l IH] using rev_ind.
  - apply grouped_nil.
  - rewrite fold_left_app. by apply grouped_step.
Qed.

(** ** Step 3: splitting large groups *)

Lemma snoc_last_index {A} (l : list A) x : pred (length (l ++ [x])) = length l.
Proof. rewrite length_app. simpl. lia. Qed.

Lemma alter_snoc {A} (f : A → A) (l : list A) x :
  alter f (length l) (l ++ [x]) = l ++ [f x].
Proof.
  replace (length l) with (length l + 0)%nat at 1 by lia.
  by rewrite alter_app_r.
Qed.

Lemma split_loop_accumulate target rest closed cur :
  (fold_left (split_step target) rest (closed ++ [cur], sumZ duration cur)).1
  = closed ++ SplitSpec.accumulate target cur rest.
Proof.
  revert closed cur. induction rest as [|s rest IH]; intros closed cur; [done|].
  cbn [fold_left SplitSpec.accumulate]. unfold split_step at 2.
  rewrite snoc_last_index, list_lookup_middle by done. cbn [from_option id].
  assert (bool_decide (0 < length cur)%nat = negb (SplitSpec.is_empty cur)) as ->.
  { destruct cur; [done|]. apply bool_decide_eq_true. simpl. lia. }
  destruct (_ && _).
  - rewrite snoc_last_index, alter_snoc. csimpl.
    replace (0 + duration s) with (sumZ duration [s]) by (simpl; lia).
    rewrite IH. by rewrite <- (assoc_L (++)).
  - rewrite snoc_last_index, alter_snoc.
    replace (sumZ duration cur + duration s) with (sumZ duration (cur ++ [s]))
      by (rewrite sumZ_app; simpl; lia).
    apply IH.
Qed.

Lemma accumulate_concat target cur rest :
  concat (SplitSpec.accumulate target cur rest) = cur ++ rest.
Proof.
  revert cur. induction rest as [|s rest IH]; intros cur; simpl.
  - by rewrite !(right_id_L [] (++)).
  - destruct (_ && _); simpl; rewrite IH; [done|].
    by rewrite <- (assoc_L (++)).
Qed.

Lemma accumulate_nonempty target cur rest :
  cur ≠ [] ∨ rest ≠ [] →
  Forall (λ g, g ≠ []) (SplitSpec.accumulate target cur rest).
Proof.
  revert cur. induction rest as [|s rest IH]; intros cur Hne; simpl.
  - constructor; [naive_solver | constructor].
  - destruct (Js.gt_quot _ _ && negb (SplitSpec.is_empty cur)) eqn:E.
    + apply andb_true_iff in E as [_ E]. constructor.
      * by destruct cur.
      * apply IH. by left.
    + apply IH. left. by destruct cur.
Qed.

Lemma tagged_make_item c ms : make_item c ms = SplitSpec.tagged c ms.
Proof. unfold make_item, SplitSpec.tagged. by rewrite sum_duration_sumZ. Qed.

Lemma split_group_subgroups maxGroupDuration c ms :
  split_group maxGroupDuration (c, ms)
  = SplitSpec.tagged c <$> SplitSpec.subgroups maxGroupDuration ms.
Proof.
  unfold split_group, SplitSpec.subgroups, SplitSpec.exceeds_threshold.
  change (Js.sort (λ a b, duration b - duration a) ms) with (sort_desc duration ms).
  rewrite sum_duration_sumZ, sort_desc_length.
  rewrite (sumZ_perm _ _ _ (sort_desc_perm duration ms)).
  destruct (_ && _).
  - pose proof (split_loop_accumulate
      (Js.div_ceil (sumZ duration ms) (Js.ceil_div (sumZ duration ms) maxGroupDuration))
      (sort_desc duration ms) [] []) as Hloop.
    simpl in Hloop. rewrite Hloop.
    apply list_fmap_ext. intros _ g _. apply tagged_make_item.
  - csimpl. by rewrite tagged_make_item.
Qed.

Lemma splitLargeGroups_items groups maxGroupDuration :
  splitLargeGroups groups maxGroupDuration = SplitSpec.items maxGroupDuration groups.
Proof.
  unfold splitLargeGroups, SplitSpec.items.
  induction groups as [|[c ms] groups IH]; [done|].
  cbn [flat_map]. by rewrite IH, split_group_subgroups.
Qed.

Lemma subgroups_concat maxGroupDuration ms :
  concat (SplitSpec.subgroups maxGroupDuration ms) = sort_desc duration ms.
Proof.
  unfold SplitSpec.subgroups. case_match.
  - by rewrite accumulate_concat.
  - simpl. by rewrite (right_id_L [] (++)).
Qed.

Lemma subgroups_nonempty maxGroupDuration ms :
  ms ≠ [] → Forall (λ g, g ≠ []) (SplitSpec.subgroups maxGroupDuration ms).
Proof.
  intros Hne.
  assert (sort_desc duration ms ≠ []) as Hs.
  { intros E. apply Hne. apply Permutation_nil_r. rewrite <- E.
    symmetry. apply sort_desc_perm. }
  unfold SplitSpec.subgroups. case_match.
  - apply accumulate_nonempty. by right.
  - by repeat constructor.
Qed.


(** ** Steps 1 to 4: the packing items of an input *)

Lemma orchestrate_packing specs numShards metrics config :
  orchestrate specs numShards metrics config
  = buckets ← assignToShards (packing_items specs metrics config) numShards;
    Some {| shards := imap to_shard
                        (filter (λ b, (0 < length (b_specs b))%nat) buckets);
            totalTestTime :=
              sumZ duration (enrichWithDuration specs metrics (defaultDuration config)) |}.
Proof.
  unfold orchestrate, packing_items. destruct (groupByCapability _).
  by rewrite sum_duration_sumZ.
Qed.

Lemma enrich_path specs metrics d :
  sd_path <$> enrichWithDuration specs metrics d = path <$> specs.
Proof.
  unfold enrichWithDuration. rewrite <- list_fmap_compose.
  by apply list_fmap_ext.
Qed.

Lemma enrich_first_cap specs metrics d s c :
  s ∈ enrichWithDuration specs metrics d → first_cap s = Some c →
  ∃ s0, s0 ∈ specs ∧ head (capabilities s0) = Some c ∧ sd_path s = path s0.
Proof.
  intros (s0 & -> & Hs0)%list_elem_of_fmap Hc. by exists s0.
Qed.

Section group_items.
Context (maxGroupDuration : Z).

Lemma tagged_specs c (sgs : list (list SpecWithDuration)) :
  concat (item_specs <$> (SplitSpec.tagged c <$> sgs)) = sd_path <$> concat sgs.
Proof.
  induction sgs as [|g sgs IH]; csimpl; [done|].
  by rewrite IH, fmap_app.
Qed.

Lemma tagged_duration c (sgs : list (list SpecWithDuration)) :
  sumZ item_duration (SplitSpec.tagged c <$> sgs) = sumZ duration (concat sgs).
Proof.
  induction sgs as [|g sgs IH]; csimpl; [done|].
  by rewrite IH, sumZ_app.
Qed.

Lemma items_specs (groups : Groups) :
  concat (item_specs <$> SplitSpec.items maxGroupDuration groups)
  ≡ₚ sd_path <$> concat groups.*2.
Proof.
  unfold SplitSpec.items.
  induction groups as [|[c ms] groups IH]; csimpl; [done|].
  rewrite fmap_app, concat_app, IH, tagged_specs, subgroups_concat, fmap_app.
  by rewrite sort_desc_perm.
Qed.

Lemma items_duration (groups : Groups) :
  sumZ item_duration (SplitSpec.items maxGroupDuration groups)
  = sumZ duration (concat groups.*2).
Proof.
  unfold SplitSpec.items.
  induction groups as [|[c ms] groups IH]; csimpl; [done|].
  rewrite !sumZ_app, IH, tagged_duration, subgroups_concat.
  by rewrite (sumZ_perm _ _ _ (sort_desc_perm duration ms)).
Qed.

(** Every item of a group is one of its subgroups. *)
Lemma elem_of_items (groups : Groups) it :
  it ∈ SplitSpec.items maxGroupDuration groups ↔
  ∃ c ms g, (c, ms) ∈ groups ∧ g ∈ SplitSpec.subgroups maxGroupDuration ms
            ∧ it = SplitSpec.tagged c g.
Proof.
  unfold SplitSpec.items. rewrite list_elem_of_bind. split.
  - intros ([c ms] & (g & -> & Hg)%list_elem_of_fmap & Hin). by exists c, ms, g.
  - intros (c & ms & g & Hin & Hg & ->). exists (c, ms). split; [|done].
    apply list_elem_of_fmap. by exists g.
Qed.
End group_items.

Section packing_items_facts.
Context (specs : list DiscoveredSpec) (metrics : gmap string Z)
        (config : OrchestrationConfig).

Local Abbreviation enriched :=
  (enrichWithDuration specs metrics (defaultDuration config)).

Lemma packing_items_specs :
  concat (item_specs <$> packing_items specs metrics config) ≡ₚ path <$> specs.
Proof.
  unfold packing_items.
  pose proof (groupByCapability_grouped enriched) as [_ _ _ _ Hperm].
  destruct (groupByCapability enriched) as [groups standard]; simpl in *.
  rewrite splitLargeGroups_items, fmap_app, concat_app, items_specs.
  rewrite <- (enrich_path specs metrics (defaultDuration config)).
  rewrite <- Hperm, fmap_app.
  apply Permutation_app_head. clear.
  induction standard as [|s l IH]; csimpl; [done | by rewrite IH].
Qed.

Lemma packing_items_duration :
  sumZ item_duration (packing_items specs metrics config) = sumZ duration enriched.
Proof.
  unfold packing_items.
  pose proof (groupByCapability_grouped enriched) as [_ _ _ _ Hperm].
  destruct (groupByCapability enriched) as [groups standard]; simpl in *.
  rewrite splitLargeGroups_items, sumZ_app, items_duration.
  rewrite <- (sumZ_perm _ _ _ Hperm), sumZ_app. f_equal.
  clear. induction standard as [|s l IH]; csimpl; [done | by rewrite IH].
Qed.

(** An item is a subgroup of the group of some first capability, or a
    single spec without capabilities. *)
Lemma elem_of_packing_items it :
  it ∈ packing_items specs metrics config →
  (∃ c g, it = SplitSpec.tagged c g ∧ g ≠ [] ∧
          ∀ s, s ∈ g → s ∈ enriched ∧ first_cap s = Some c) ∨
  (∃ s, it = standard_item s ∧ s ∈ enriched ∧ sd_capabilities s = []).
Proof.
  unfold packing_items.
  pose proof (groupByCapability_grouped enriched) as [_ Hmem _ Hstd _].
  destruct (groupByCapability enriched) as [groups standard]; simpl in *.
  rewrite splitLargeGroups_items.
  intros [Hit|Hit]%elem_of_app.
  - left. apply elem_of_items in Hit as (c & ms & g & Hin & Hg & ->).
    destruct (Hmem c ms Hin) as [Hne Hms].
    exists c, g. split; [done|]. split.
    + pose proof (subgroups_nonempty (maxGroupDuration config) ms Hne) as Hall.
      rewrite Forall_forall in Hall. by apply Hall.
    + intros s Hs.
      assert (s ∈ ms) as Hsm.
      { apply (sort_desc_elem_of duration).
        rewrite <- (subgroups_concat (maxGroupDuration config)).
        apply elem_of_concat. by exists g. }
      rewrite Hms in Hsm. apply list_elem_of_filter in Hsm. naive_solver.
  - right. apply list_elem_of_fmap in Hit as (s & -> & Hs).
    exists s. split; [done|].
    rewrite Hstd in Hs. apply list_elem_of_filter in Hs as [Hc Hs].
    split; [done|]. unfold first_cap in Hc. by destruct (sd_capabilities s).
Qed.

Lemma packing_items_nonempty :
  Forall (λ it, item_specs it ≠ []) (packing_items specs metrics config).
Proof.
  apply Forall_forall. intros it Hit.
  destruct (elem_of_packing_items it Hit)
    as [(c & g & -> & Hne & _)|(s & -> & _)]; [|done].
  simpl. by destruct g.
Qed.

End packing_items_facts.

(** ** Step 5: greedy bin-packing *)

Lemma lightest_from_is_lightest rest pre min bmin :
  pre !! min = Some bmin →
  (∀ j b', pre !! j = Some b' →
           b_testTime bmin ≤ b_testTime b'
           ∧ ((j < min)%nat → b_testTime bmin < b_testTime b')) →
  is_lightest (pre ++ rest) (lightest_from min (b_testTime bmin) (length pre) rest).
Proof.
  revert pre min bmin.
  induction rest as [|b rest IH]; intros pre min bmin Hmin Hpre; simpl.
  - rewrite (right_id_L [] (++)). by exists bmin.
  - pose proof (lookup_lt_Some _ _ _ Hmin) as Hlt.
    assert (S (length pre) = length (pre ++ [b])) as ->
      by (rewrite length_app; simpl; lia).
    rewrite (cons_middle b pre rest), (assoc_L (++)).
    destruct (Z.ltb_spec (b_testTime b) (b_testTime bmin)) as [Hb|Hb].
    + apply IH.
      * by apply list_lookup_middle.
      * intros j b' [[Hj Hb']|[Hj <-]]%lookup_snoc_Some.
        -- destruct (Hpre j b' Hb'). lia.
        -- lia.
    + apply IH.
      * by rewrite lookup_app_l.
      * intros j b' [[Hj Hb']|[Hj <-]]%lookup_snoc_Some.
        -- by apply Hpre.
        -- lia.
Qed.

Lemma lightest_is_lightest b rest :
  ∃ i, lightest (b :: rest) = Some i ∧ is_lightest (b :: rest) i.
Proof.
  eexists. split; [done|].
  apply (lightest_from_is_lightest rest [b] 0%nat b); [done|].
  intros [|j] b' Hj; simplify_eq/=. lia.
Qed.

Lemma zip_with_alter_shift {A B C} (f : A → B → C) (g : A → A) (h : B → B) i l k :
  (∀ a b, f (g a) b = f a (h b)) →
  zip_with f (alter g i l) k = zip_with f l (alter h i k).
Proof.
  intros Hfg. revert i k.
  induction l as [|a l IH]; intros [|i] [|b k]; simpl; f_equal; auto.
  apply IH.
Qed.

Lemma concat_alter_cons {A} (x : A) i (ls : list (list A)) :
  (i < length ls)%nat → concat (alter (cons x) i ls) ≡ₚ x :: concat ls.
Proof.
  revert i. induction ls as [|l ls IH]; intros [|i] Hi; csimpl in *; try lia.
  - done.
  - rewrite IH by lia. by rewrite <- Permutation_middle.
Qed.

Lemma zip_with_fill_nil buckets :
  zip_with fill (replicate (length buckets) []) buckets = buckets.
Proof. induction buckets; simpl; [done | by f_equal]. Qed.

(** The loop hands every item to one bucket. *)
Lemma assign_loop_assigned items buckets :
  buckets ≠ [] →
  ∃ assigned, length assigned = length buckets
              ∧ concat assigned ≡ₚ items
              ∧ assign_loop items buckets = Some (zip_with fill assigned buckets).
Proof.
  revert buckets. induction items as [|it items IH]; intros buckets Hne.
  - exists (replicate (length buckets) []). split_and!.
    + by rewrite length_replicate.
    + clear. induction (length buckets); simpl; done.
    + by rewrite zip_with_fill_nil.
  - destruct buckets as [|b0 rest]; [done|].
    destruct (lightest_is_lightest b0 rest) as (i & Hi & (b & Hb & _)).
    pose proof (lookup_lt_Some _ _ _ Hb) as Hlt.
    destruct (IH (alter (add_item it) i (b0 :: rest))) as (assigned & Hlen & Hperm & Hloop).
    { intros E. apply (f_equal length) in E. rewrite length_alter in E. done. }
    rewrite length_alter in Hlen.
    exists (alter (cons it) i assigned). split_and!.
    + by rewrite length_alter.
    + rewrite concat_alter_cons by lia. by rewrite Hperm.
    + cbn [assign_loop]. unfold assign_step. rewrite Hi. cbn [mbind option_bind].
      rewrite Hloop. f_equal. symmetry. by apply zip_with_alter_shift.
Qed.

Section fill_facts.
Implicit Types (its : list PackingItem) (b : Bucket).

Lemma fill_specs its b :
  b_specs (fill its b) = b_specs b ++ concat (item_specs <$> its).
Proof.
  revert b. induction its as [|it its IH]; intros b; csimpl.
  - by rewrite (right_id_L [] (++)).
  - unfold fill in *. rewrite IH. simpl. by rewrite <- (assoc_L (++)).
Qed.

Lemma fill_testTime its b :
  b_testTime (fill its b) = b_testTime b + sumZ item_duration its.
Proof.
  revert b. induction its as [|it its IH]; intros b; csimpl; [lia|].
  unfold fill in *. rewrite IH. simpl. lia.
Qed.

Lemma fill_capabilities its b c :
  c ∈ b_capabilities (fill its b) ↔
  c ∈ b_capabilities b ∨ ∃ it, it ∈ its ∧ capability it = Some c ∧ c ≠ "".
Proof.
  revert b. induction its as [|it its IH]; intros b; csimpl.
  - set_solver.
  - unfold fill in *. rewrite IH. simpl.
    destruct (capability it) as [c'|] eqn:Hc; simpl.
    + destruct (String.eqb_spec c' ""); simpl.
      * set_solver.
      * rewrite elem_of_union, elem_of_singleton. split.
        -- intros [[->|?]|(it' & ? & ? & ?)]; [right; exists it| |]; set_solver.
        -- intros [?|(it' & [->|?]%elem_of_cons & ? & ?)]; [| |right]; set_solver.
    + set_solver.
Qed.

Lemma fill_hasStandardSpecs its b :
  b_hasStandardSpecs (fill its b)
  = b_hasStandardSpecs b || existsb (λ it, negb (Js.truthy (capability it))) its.
Proof.
  revert b. induction its as [|it its IH]; intros b; csimpl.
  - by rewrite orb_false_r.
  - unfold fill in *. rewrite IH. simpl.
    destruct (Js.truthy (capability it)); simpl; [done|].
    by rewrite orb_true_r.
Qed.
End fill_facts.

(** ** Step 6: the returned shards *)

Lemma concat_perm {A} (ls1 ls2 : list (list A)) :
  ls1 ≡ₚ ls2 → concat ls1 ≡ₚ concat ls2.
Proof.
  induction 1 as [|l ls1 ls2 _ IH|l k ls|ls1 ls2 ls3 _ IH1 _ IH2]; simpl.
  - done.
  - by rewrite IH.
  - rewrite !(assoc_L (++)). apply Permutation_app_tail, Permutation_app_comm.
  - by rewrite IH1.
Qed.

Lemma concat_fmap_concat {A B} (f : A → list B) (ls : list (list A)) :
  concat ((λ l, concat (f <$> l)) <$> ls) = concat (f <$> concat ls).
Proof.
  induction ls as [|l ls IH]; csimpl; [done|].
  by rewrite IH, fmap_app, concat_app.
Qed.

Lemma concat_filter_nonempty {A} (ls : list (list A)) :
  concat (filter (λ l, (0 < length l)%nat) ls) = concat ls.
Proof.
  induction ls as [|l ls IH]; [done|].
  rewrite filter_cons. destruct l; simpl; by rewrite IH.
Qed.

Lemma assignToShards_assigned items numShards :
  (1 ≤ numShards)%nat →
  ∃ assigned, length assigned = numShards
              ∧ concat assigned ≡ₚ items
              ∧ assignToShards items numShards = Some (bucket_of <$> assigned).
Proof.
  intros Hn. unfold assignToShards.
  change (Js.sort (λ a b, item_duration b - item_duration a) items)
    with (sort_desc item_duration items).
  destruct (assign_loop_assigned (sort_desc item_duration items)
              (replicate numShards empty_bucket)) as (assigned & Hlen & Hperm & Hloop).
  { destruct numShards; [lia | done]. }
  rewrite length_replicate in Hlen. exists assigned. split_and!.
  - done.
  - by rewrite Hperm, sort_desc_perm.
  - by rewrite Hloop, zip_with_replicate_r_eq.
Qed.

Lemma bucket_of_specs its :
  b_specs (bucket_of its) = concat (item_specs <$> its).
Proof. unfold bucket_of. by rewrite fill_specs. Qed.

Lemma bucket_of_nonempty its :
  Forall (λ it, item_specs it ≠ []) its →
  (0 < length (b_specs (bucket_of its)))%nat ↔ (0 < length its)%nat.
Proof.
  intros Hall. rewrite bucket_of_specs.
  destruct Hall as [|it its Hit _]; csimpl; [done|].
  rewrite length_app. destruct (item_specs it); [done|]. simpl. lia.
Qed.

Lemma filter_bucket_of (assigned : list (list PackingItem)) :
  Forall (λ it, item_specs it ≠ []) (concat assigned) →
  filter (λ b, (0 < length (b_specs b))%nat) (bucket_of <$> assigned)
  = bucket_of <$> filter (λ its, (0 < length its)%nat) assigned.
Proof.
  induction assigned as [|its assigned IH]; csimpl; [done|].
  intros [Hits Hall]%Forall_app. rewrite !filter_cons, IH by done.
  pose proof (bucket_of_nonempty its Hits).
  repeat case_decide; naive_solver.
Qed.

(** The result of [orchestrate] in terms of the items handed to each
    returned shard. *)
Lemma orchestrate_shape discovered numShards metrics config :
  (1 ≤ numShards)%nat →
  ∃ assigned,
    concat assigned ≡ₚ packing_items discovered metrics config
    ∧ Forall (λ its, (0 < length its)%nat) assigned
    ∧ (length assigned ≤ numShards)%nat
    ∧ orchestrate discovered numShards metrics config
      = Some {| shards := shards_of assigned;
                totalTestTime :=
                  sumZ duration
                    (enrichWithDuration discovered metrics (defaultDuration config)) |}.
Proof.
  intros Hn.
  destruct (assignToShards_assigned (packing_items discovered metrics config) numShards Hn)
    as (assigned & Hlen & Hperm & Hassign).
  exists (filter (λ its, (0 < length its)%nat) assigned). split_and!.
  - by rewrite concat_filter_nonempty.
  - apply Forall_forall. by intros its [? _]%list_elem_of_filter.
  - rewrite <- Hlen. apply length_filter.
  - rewrite orchestrate_packing, Hassign. cbn [mbind option_bind].
    rewrite filter_bucket_of, imap_fmap; [done|].
    rewrite Hperm. apply packing_items_nonempty.
Qed.

Section shards_of_assigned.
Context (assigned : list (list PackingItem)).

Lemma shards_of_length : length (shards_of assigned) = length assigned.
Proof. apply length_imap. Qed.

Lemma shards_numbers :
  shard <$> shards_of assigned = seq 1 (length (shards_of assigned)).
Proof.
  unfold shards_of. rewrite fmap_imap, length_imap.
  rewrite (imap_ext _ (λ j _, id (1 + j)%nat)).
  - rewrite (imap_seq assigned id 1). apply list_fmap_id.
  - intros; simpl. lia.
Qed.

Lemma shards_specs :
  specs <$> shards_of assigned = (λ its, concat (item_specs <$> its)) <$> assigned.
Proof.
  unfold shards_of. rewrite fmap_imap, <- imap_const. apply imap_ext.
  intros i its _. simpl. apply bucket_of_specs.
Qed.

Lemma shards_testTime : testTime <$> shards_of assigned = sumZ item_duration <$> assigned.
Proof.
  unfold shards_of. rewrite fmap_imap, <- imap_const. apply imap_ext.
  intros i its _. simpl. unfold bucket_of. rewrite fill_testTime. simpl. lia.
Qed.

Lemma elem_of_shards sh :
  sh ∈ shards_of assigned
  ↔ ∃ i its, assigned !! i = Some its ∧ sh = to_shard i (bucket_of its).
Proof.
  unfold shards_of. rewrite list_elem_of_lookup. split.
  - intros (i & (its & Hi & ->)%list_lookup_imap_Some). by exists i, its.
  - intros (i & its & Hi & ->). exists i. apply list_lookup_imap_Some. by exists its.
Qed.
End shards_of_assigned.

(** * Scenarios of the test suites *)

Example no_specs_no_shards :
  orchestrate [] 3 ∅ DEFAULT_CONFIG = Some {| shards := []; totalTestTime := 0 |}.
Proof. reflexivity. Qed.

Example single_spec_single_shard :
  orchestrate [spec "test.spec.ts" []] 1 ∅ DEFAULT_CONFIG
  = Some {| shards := [ {| shard := 1; specs := ["test.spec.ts"]; testTime := 60000;
                           shard_capabilities := []; fixtureCount := 1 |} ];
            totalTestTime := 60000 |}.
Proof. by vm_compute. Qed.

Example empty_shards_stripped :
  (λ r, shard <$> shards r)
    <$> orchestrate [spec "a.spec.ts" []; spec "b.spec.ts" []] 5 ∅ DEFAULT_CONFIG
  = Some [1; 2]%nat.
Proof. by vm_compute. Qed.

Example metric_duration_used :
  totalTestTime
    <$> orchestrate [spec "a.spec.ts" []] 1 {[ "a.spec.ts" := 120000 ]} DEFAULT_CONFIG
  = Some 120000.
Proof. by vm_compute. Qed.

Example same_capability_same_shard :
  (λ r, (λ sh, (specs sh, shard_capabilities sh)) <$> shards r)
    <$> orchestrate [spec "email1.spec.ts" ["email"]; spec "email2.spec.ts" ["email"];
                     spec "standard.spec.ts" []] 3 ∅ DEFAULT_CONFIG
  = Some [(["email1.spec.ts"; "email2.spec.ts"], ["email"]);
          (["standard.spec.ts"], [])].
Proof. by vm_compute. Qed.

Example large_group_split :
  (λ r, shard_capabilities <$> shards r)
    <$> orchestrate [spec "email1.spec.ts" ["email"]; spec "email2.spec.ts" ["email"]] 2
          (<["email1.spec.ts" := 200000]> (<["email2.spec.ts" := 200000]> ∅))
          {| defaultDuration := 60000; maxGroupDuration := 200000 |}
  = Some [["email"]; ["email"]].
Proof. by vm_compute. Qed.

Example fixture_count_and_sorted_capabilities :
  (λ r, (λ sh, (shard_capabilities sh, fixtureCount sh)) <$> shards r)
    <$> orchestrate [spec "proxy.spec.ts" ["proxy"]; spec "email.spec.ts" ["email"];
                     spec "standard.spec.ts" []] 1 ∅ DEFAULT_CONFIG
  = Some [(["email"; "proxy"], 3%nat)].
Proof. by vm_compute. Qed.

(** [reduce] on no buckets: zero shards for a spec is an exception. *)
Example no_buckets_throws :
  orchestrate [spec "a.spec.ts" []] 0 ∅ DEFAULT_CONFIG = None.
Proof. reflexivity. Qed.

Example multi_file_capabilities :
  analyzeTestFile id default_config multi_file
  = Some {| path := "/test-root/tests/multi.spec.ts";
            capabilities := ["email"; "proxy"] |}.
Proof. by vm_compute. Qed.

(** [test.fixme('broken feature', async () => { test('sub-test', async () => {}) })] *)
Example wrapper_fixme_no_spec :
  analyzeTestFile id default_config
    {| filePath := "wrapper-fixme.spec.ts";
       statements :=
         [Other [CallExpression "test.fixme" (Other [])
                   [StringLiteral "broken feature";
                    ArrowFunction []
                      (Block 41
                         [Other [CallExpression "test" (Other [])
                                   [StringLiteral "sub-test";
                                    ArrowFunction [] (Block 74 [])]]])]]] |}
  = None.
Proof. by vm_compute. Qed.

(** [test.describe('skipped group', () => { test.fixme(); test('inner', ...) });
     test('outside', async () => {})] *)
Example outside_skipped_scope_active :
  analyzeTestFile id default_config
    {| filePath := "partial-skip.spec.ts";
       statements :=
         statements (describe_fixme [ArrowFunction [] (Block 67 [])])
         ++ [Other [CallExpression "test" (Other [])
                      [StringLiteral "outside"; ArrowFunction [] (Block 103 [])]]] |}
  = Some {| path := "partial-skip.spec.ts"; capabilities := [] |}.
Proof. by vm_compute. Qed.

(** [test('wip @wip', ...); test('active', ...)] with [skipTags: ['@wip']] *)
Example skip_tag_one_active :
  analyzeTestFile id {| skipTags := ["@wip"]; capabilityPrefix := "@capability:" |}
    {| filePath := "partial-wip.spec.ts";
       statements :=
         [Other [CallExpression "test" (Other [])
                   [StringLiteral "wip @wip"; ArrowFunction [] (Block 27 [])]];
          Other [CallExpression "test" (Other [])
                   [StringLiteral "active"; ArrowFunction [] (Block 62 [])]]] |}
  = Some {| path := "partial-wip.spec.ts"; capabilities := [] |}.
Proof. by vm_compute. Qed.

(** * The claims *)

(** ** Shard numbering *)

(** C2. For every input with [numShards >= 1], the returned shards are
    numbered 1, 2, ..., K in order, with K at most [numShards], and none
    of them has an empty spec list. *)
Theorem orchestrate_dense_numbering discovered numShards metrics config :
  (1 ≤ numShards)%nat →
  ∃ r, orchestrate discovered numShards metrics config = Some r
       ∧ shard <$> shards r = seq 1 (length (shards r))
       ∧ (length (shards r) ≤ numShards)%nat
       ∧ Forall (λ sh, specs sh ≠ []) (shards r).
Proof.
  intros Hn.
  destruct (orchestrate_shape discovered numShards metrics config Hn)
    as (assigned & Hperm & Hne & Hlen & Hres).
  eexists. split; [exact Hres|]. cbn [shards]. split_and!.
  - apply shards_numbers.
  - by rewrite shards_of_length.
  - apply Forall_forall. intros sh (i & its & Hi & ->)%elem_of_shards.
    apply list_elem_of_lookup_2 in Hi. cbn [specs to_shard].
    assert (Forall (λ it, item_specs it ≠ []) its) as Hits.
    { apply Forall_forall. intros it Hit.
      pose proof (packing_items_nonempty discovered metrics config) as Hall.
      rewrite Forall_forall in Hall. apply Hall. rewrite <- Hperm.
      apply elem_of_concat. by exists its. }
    rewrite Forall_forall in Hne. pose proof (Hne its Hi) as Hpos.
    apply (bucket_of_nonempty its Hits) in Hpos.
    intros E. rewrite E in Hpos. simpl in Hpos. lia.
Qed.

Lemma orchestrate_dense_numbering_witness :
  (1 ≤ 5)%nat ∧
  ∃ r, orchestrate [spec "a.spec.ts" []; spec "b.spec.ts" []] 5 ∅ DEFAULT_CONFIG = Some r
       ∧ shard <$> shards r = seq 1 (length (shards r))
       ∧ (length (shards r) ≤ 5)%nat
       ∧ Forall (λ sh, specs sh ≠ []) (shards r).
Proof.
  split; [lia|].
  apply (orchestrate_dense_numbering
           [spec "a.spec.ts" []; spec "b.spec.ts" []] 5 ∅ DEFAULT_CONFIG).
  lia.
Defined.

(** ** Capability cohesion *)




(** ** Splitting and packing *)

(** The scenario of the test suite: two members of 200000 each against a
    limit of 200000 are split into two items. *)
Example split_email_group :
  splitLargeGroups
    [("email", [ {| sd_path := "email1.spec.ts"; sd_capabilities := ["email"];
                    duration := 200000 |};
                 {| sd_path := "email2.spec.ts"; sd_capabilities := ["email"];
                    duration := 200000 |} ])] 200000
  = [ {| capability := Some "email"; item_specs := ["email1.spec.ts"];
         item_duration := 200000 |};
      {| capability := Some "email"; item_specs := ["email2.spec.ts"];
         item_duration := 200000 |} ].
Proof. reflexivity. Qed.


(** ** The specs behind the items of a shard *)

Lemma perm_fmap_inv {A B} (f : A → B) (k : list B) (l : list A) :
  k ≡ₚ f <$> l → ∃ l', k = f <$> l' ∧ l' ≡ₚ l.
Proof.
  intros Hperm. remember (f <$> l) as m eqn:Hm. revert l Hm.
  induction Hperm as [|x k m _ IH|x y m|k m1 m _ IH1 _ IH2]; intros l Hm.
  - exists []. symmetry in Hm. apply fmap_nil_inv in Hm. by subst.
  - destruct l as [|a l]; simplify_eq/=.
    destruct (IH l eq_refl) as (l' & -> & Hl'). exists (a :: l').
    split; [done | by constructor].
  - destruct l as [|a [|b l]]; simplify_eq/=.
    exists (b :: a :: l). split; [done | apply Permutation_swap].
  - destruct (IH2 l Hm) as (l1 & -> & Hl1).
    destruct (IH1 l1 eq_refl) as (l' & -> & Hl'). exists l'.
    split; [done | by etrans].
Qed.

Lemma fmap_concat_inv {A B} (f : A → B) (l : list A) (ks : list (list B)) :
  f <$> l = concat ks →
  ∃ ls : list (list A), l = concat ls ∧ ks = (λ k : list A, f <$> k) <$> ls.
Proof.
  revert l. induction ks as [|k ks IH]; intros l Hl; simpl in Hl.
  - apply fmap_nil_inv in Hl as ->. by exists [].
  - apply fmap_app_inv in Hl as (l1 & l2 & -> & Hl2 & ->).
    destruct (IH l2) as (ls & -> & ->); [done|]. by exists (l1 :: ls).
Qed.

Lemma group_items_members maxGroupDuration (groups : Groups) :
  (∀ c ms, (c, ms) ∈ groups → ms ≠ [] ∧ Forall (λ s, first_cap s = Some c) ms) →
  ∃ ims : list (PackingItem * list SpecWithDuration),
    ims.*1 = SplitSpec.items maxGroupDuration groups
    ∧ concat ims.*2 ≡ₚ concat groups.*2
    ∧ Forall (λ p, item_of p.1 p.2) ims.
Proof.
  unfold SplitSpec.items.
  induction groups as [|[c ms] groups IH]; intros Hmem.
  - by exists [].
  - destruct IH as (ims & Hfst & Hsnd & Hall).
    { intros c' ms' Hin. apply Hmem. by right. }
    destruct (Hmem c ms) as [Hne Hcaps]; [left|].
    exists (((λ g, (SplitSpec.tagged c g, g)) <$> SplitSpec.subgroups maxGroupDuration ms)
            ++ ims).
    split_and!.
    + rewrite fmap_app, Hfst. csimpl. f_equal.
      rewrite <- list_fmap_compose. by apply list_fmap_ext.
    + rewrite fmap_app, concat_app, Hsnd. csimpl. apply Permutation_app_tail.
      rewrite <- list_fmap_compose, list_fmap_id.
      by rewrite subgroups_concat, sort_desc_perm.
    + apply Forall_app. split; [|done].
      apply Forall_forall. intros p (g & -> & Hg)%list_elem_of_fmap. simpl.
      pose proof (subgroups_nonempty maxGroupDuration ms Hne) as Hsg.
      rewrite Forall_forall in Hsg.
      split; simpl; [by apply Hsg | done | done |].
      apply Forall_forall. intros s Hs.
      rewrite Forall_forall in Hcaps. apply Hcaps.
      apply (sort_desc_elem_of duration).
      rewrite <- (subgroups_concat maxGroupDuration).
      apply elem_of_concat. by exists g.
Qed.

Lemma standard_items_members (standard : list SpecWithDuration) :
  Forall (λ s, first_cap s = None) standard →
  ∃ ims : list (PackingItem * list SpecWithDuration),
    ims.*1 = standard_item <$> standard
    ∧ concat ims.*2 = standard
    ∧ Forall (λ p, item_of p.1 p.2) ims.
Proof.
  induction 1 as [|s standard Hs _ (ims & Hfst & Hsnd & Hall)].
  - by exists [].
  - exists ((standard_item s, [s]) :: ims). csimpl. rewrite Hfst, Hsnd.
    split_and!; [done..|]. constructor; [|done].
    split; simpl; [done | done | lia | by constructor].
Qed.

Lemma packing_items_members discovered metrics config :
  ∃ ims : list (PackingItem * list SpecWithDuration),
    ims.*1 = packing_items discovered metrics config
    ∧ concat ims.*2 ≡ₚ enrichWithDuration discovered metrics (defaultDuration config)
    ∧ Forall (λ p, item_of p.1 p.2) ims.
Proof.
  unfold packing_items.
  pose proof (groupByCapability_grouped
                (enrichWithDuration discovered metrics (defaultDuration config)))
    as [_ Hmem _ Hstd Hperm].
  destruct (groupByCapability _) as [groups standard]; simpl in *.
  destruct (group_items_members (maxGroupDuration config) groups)
    as (ims1 & Hfst1 & Hsnd1 & Hall1).
  { intros c ms Hin. destruct (Hmem c ms Hin) as [Hne Hms]. split; [done|].
    rewrite Hms. apply Forall_forall. by intros s [? _]%list_elem_of_filter. }
  destruct (standard_items_members standard) as (ims2 & Hfst2 & Hsnd2 & Hall2).
  { rewrite Hstd. apply Forall_forall. by intros s [? _]%list_elem_of_filter. }
  exists (ims1 ++ ims2). split_and!.
  - by rewrite fmap_app, Hfst1, Hfst2, splitLargeGroups_items.
  - by rewrite fmap_app, concat_app, Hsnd1, Hsnd2.
  - by apply Forall_app.
Qed.

(** [orchestrate] deals the enriched specs out to the returned shards. *)
Lemma orchestrate_partition discovered numShards metrics config :
  (1 ≤ numShards)%nat →
  ∃ dealt : list (list (PackingItem * list SpecWithDuration)),
    concat (members_of <$> dealt)
      ≡ₚ enrichWithDuration discovered metrics (defaultDuration config)
    ∧ Forall (Forall (λ p, item_of p.1 p.2)) dealt
    ∧ Forall (λ ims, (0 < length ims)%nat) dealt
    ∧ orchestrate discovered numShards metrics config
      = Some {| shards := imap (λ i ims, to_shard i (bucket_of ims.*1)) dealt;
                totalTestTime :=
                  sumZ duration
                    (enrichWithDuration discovered metrics (defaultDuration config)) |}.
Proof.
  intros Hn.
  destruct (orchestrate_shape discovered numShards metrics config Hn)
    as (assigned & Hperm & Hne & _ & Hres).
  destruct (packing_items_members discovered metrics config) as (ims & Hfst & Hsnd & Hall).
  rewrite <- Hfst in Hperm.
  apply perm_fmap_inv in Hperm as (ims' & Hims' & Hperm).
  apply eq_sym, fmap_concat_inv in Hims' as (dealt & -> & ->).
  exists dealt. split_and!.
  - unfold members_of. rewrite (concat_fmap_concat (λ p, p.2)).
    rewrite <- Hsnd. apply concat_perm. by rewrite Hperm.
  - rewrite <- Hperm in Hall. clear -Hall.
    induction dealt as [|d dealt IH]; simpl in *; [done|].
    apply Forall_app in Hall as [? ?]. constructor; auto.
  - apply Forall_forall. intros d Hd. rewrite Forall_forall in Hne.
    rewrite <- (length_fmap fst). apply Hne.
    apply list_elem_of_fmap. by exists d.
  - unfold shards_of in Hres. by rewrite Hres, imap_fmap.
Qed.

Lemma Forall2_fmap_imap {A B C} (R : B → C → Prop) (g : A → B)
    (f : nat → A → C) (l : list A) :
  (∀ i x, l !! i = Some x → R (g x) (f i x)) → Forall2 R (g <$> l) (imap f l).
Proof.
  revert f. induction l as [|x l IH]; intros f H; csimpl; constructor.
  - by apply (H 0%nat).
  - apply IH. intros i y Hi. by apply (H (S i)).
Qed.

Lemma existsb_elem_of {A} (f : A → bool) (l : list A) :
  existsb f l = true ↔ ∃ x, x ∈ l ∧ f x = true.
Proof.
  induction l as [|y l IH]; simpl.
  - split; [done | by intros (x & ?%elem_of_nil & _)].
  - rewrite orb_true_iff, IH. set_solver.
Qed.

Lemma first_cap_None s : first_cap s = None ↔ sd_capabilities s = [].
Proof. unfold first_cap. by destruct (sd_capabilities s). Qed.

(** The bucket of the items [ims], read through the specs they are made of. *)
Section bucket_of_members.
Context (ims : list (PackingItem * list SpecWithDuration)).
Context (Hall : Forall (λ p, item_of p.1 p.2) ims).

Lemma elem_of_members_of s :
  s ∈ members_of ims ↔ ∃ p, p ∈ ims ∧ s ∈ p.2.
Proof.
  unfold members_of. rewrite elem_of_concat. split.
  - intros (ms & (p & -> & Hp)%list_elem_of_fmap & Hs). by exists p.
  - intros (p & Hp & Hs). exists p.2. split; [|done].
    apply list_elem_of_fmap. by exists p.
Qed.

Lemma member_capability p s : p ∈ ims → s ∈ p.2 → capability p.1 = first_cap s.
Proof.
  intros Hp Hs. rewrite Forall_forall in Hall.
  destruct (Hall p Hp) as [_ _ _ Hcap]. rewrite Forall_forall in Hcap.
  symmetry. by apply Hcap.
Qed.

Lemma item_has_member p : p ∈ ims → ∃ s, s ∈ p.2.
Proof.
  intros Hp. rewrite Forall_forall in Hall.
  destruct (Hall p Hp) as [Hne _ _ _].
  destruct p.2 as [|s ms]; [done|]. exists s. left.
Qed.

Lemma bucket_members_specs :
  b_specs (bucket_of ims.*1) = sd_path <$> members_of ims.
Proof.
  rewrite bucket_of_specs. unfold members_of.
  revert Hall. generalize ims.
  induction 1 as [|p ims' [_ Hspecs _ _] _ IH]; csimpl; [done|].
  by rewrite IH, Hspecs, fmap_app.
Qed.

Lemma bucket_members_testTime :
  b_testTime (bucket_of ims.*1) = sumZ duration (members_of ims).
Proof.
  unfold bucket_of, members_of. rewrite fill_testTime. simpl.
  revert Hall. generalize ims.
  induction 1 as [|p ims' [_ _ Hdur _] _ IH]; csimpl; [done|].
  rewrite sumZ_app. lia.
Qed.

Context (Hnamed : ∀ s, s ∈ members_of ims → first_cap s ≠ Some "").

Lemma bucket_members_capabilities c :
  c ∈ b_capabilities (bucket_of ims.*1) ↔
  ∃ s, s ∈ members_of ims ∧ first_cap s = Some c.
Proof.
  unfold bucket_of. rewrite fill_capabilities. simpl. split.
  - intros [?|(it & (p & -> & Hp)%list_elem_of_fmap & Hc & _)]; [set_solver|].
    destruct (item_has_member p Hp) as [s Hs]. exists s. split.
    + apply elem_of_members_of. by exists p.
    + by rewrite <- (member_capability p s).
  - intros (s & Hs & Hc). right.
    pose proof Hs as (p & Hp & Hsp)%elem_of_members_of.
    exists p.1. split_and!.
    + apply list_elem_of_fmap. by exists p.
    + by rewrite (member_capability p s).
    + intros ->. by apply (Hnamed s).
Qed.

Lemma bucket_members_hasStandardSpecs :
  b_hasStandardSpecs (bucket_of ims.*1)
  = existsb (λ s, bool_decide (sd_capabilities s = [])) (members_of ims).
Proof.
  unfold bucket_of. rewrite fill_hasStandardSpecs. simpl.
  apply eq_true_iff_eq. rewrite !existsb_elem_of. split.
  - intros (it & (p & -> & Hp)%list_elem_of_fmap & Hc).
    destruct (item_has_member p Hp) as [s Hs]. exists s.
    assert (s ∈ members_of ims) as Hsm by (apply elem_of_members_of; by exists p).
    split; [done|]. apply bool_decide_eq_true, first_cap_None.
    rewrite <- (member_capability p s) by done.
    destruct (capability p.1) as [c|] eqn:Hcap; [|done].
    simpl in Hc. destruct (String.eqb_spec c ""); [subst|done].
    destruct (Hnamed s Hsm). by rewrite <- (member_capability p s).
  - intros (s & Hs & Hc%bool_decide_eq_true%first_cap_None).
    pose proof Hs as (p & Hp & Hsp)%elem_of_members_of.
    exists p.1. split; [apply list_elem_of_fmap; by exists p|].
    by rewrite (member_capability p s), Hc.
Qed.
End bucket_of_members.

Lemma shard_capabilities_elem_of i b c :
  c ∈ shard_capabilities (to_shard i b) ↔ c ∈ b_capabilities b.
Proof.
  simpl. unfold Js.sort_strings. by rewrite merge_sort_Permutation, elem_of_elements.
Qed.

Lemma shard_capabilities_sorted i b :
  Sorted String.le (shard_capabilities (to_shard i b))
  ∧ NoDup (shard_capabilities (to_shard i b))
  ∧ length (shard_capabilities (to_shard i b)) = size (b_capabilities b).
Proof.
  simpl. unfold Js.sort_strings. split_and!.
  - apply (Sorted_merge_sort String.le).
  - rewrite merge_sort_Permutation. apply NoDup_elements.
  - by rewrite merge_sort_Permutation.
Qed.

(** ** Fixture counts *)

(** C7, as stated, fails: a spec whose first capability is the empty
    string is grouped under that capability, but its shard records no
    capability and counts one fixture although it holds no capability-less
    spec. *)
Lemma fixtureCount_empty_capability_counterexample :
  let discovered := [spec "a.spec.ts" [""]] in
  ¬ (∀ r sh, orchestrate discovered 1 ∅ DEFAULT_CONFIG = Some r → sh ∈ shards r →
       fixtureCount sh
       = (length (shard_capabilities sh)
          + (if existsb (λ s, bool_decide (capabilities s = [] ∧ path s ∈ specs sh))
                  discovered
             then 1 else 0))%nat).
Proof.
  intros discovered H.
  specialize (H _ (to_shard 0 (bucket_of [make_item "" [
    {| sd_path := "a.spec.ts"; sd_capabilities := [""]; duration := 60000 |} ]]))
    eq_refl).
  discriminate H. left.
Qed.

(** C7, amended. For every input with [numShards >= 1] in which no spec has
    the empty string as its first capability, the enriched specs are dealt
    out to the returned shards, and for every shard and the specs it
    received: [specs] lists their paths, [capabilities] is the sorted list,
    without repetition, of their first capabilities, and [fixtureCount] is
    the length of that list plus 1 if one of them has no capability and
    plus 0 otherwise. *)
Theorem fixtureCount_of_shard discovered numShards metrics config :
  (1 ≤ numShards)%nat →
  (∀ s, s ∈ discovered → head (capabilities s) ≠ Some "") →
  ∃ r (parts : list (list SpecWithDuration)),
    orchestrate discovered numShards metrics config = Some r
    ∧ concat parts ≡ₚ enrichWithDuration discovered metrics (defaultDuration config)
    ∧ Forall2 (λ part sh,
        specs sh = sd_path <$> part
        ∧ (∀ c, c ∈ shard_capabilities sh ↔ ∃ s, s ∈ part ∧ first_cap s = Some c)
        ∧ Sorted String.le (shard_capabilities sh)
        ∧ NoDup (shard_capabilities sh)
        ∧ fixtureCount sh
          = (length (shard_capabilities sh)
             + (if existsb (λ s, bool_decide (sd_capabilities s = [])) part
                then 1 else 0))%nat)
      parts (shards r).
Proof.
  intros Hn Hnamed.
  destruct (orchestrate_partition discovered numShards metrics config Hn)
    as (dealt & Hperm & Hall & _ & Hres).
  eexists _, (members_of <$> dealt). split; [exact Hres|]. split; [done|].
  cbn [shards]. apply Forall2_fmap_imap. intros i ims Hi.
  apply list_elem_of_lookup_2 in Hi.
  rewrite Forall_forall in Hall. pose proof (Hall ims Hi) as Hims.
  assert (∀ s, s ∈ members_of ims → first_cap s ≠ Some "") as Hnamed'.
  { intros s Hs Hc.
    assert (s ∈ enrichWithDuration discovered metrics (defaultDuration config)) as Hse.
    { rewrite <- Hperm. apply elem_of_concat. exists (members_of ims).
      split; [|done]. apply list_elem_of_fmap. by exists ims. }
    destruct (enrich_first_cap _ _ _ _ _ Hse Hc) as (s0 & Hs0 & Hc0 & _).
    by apply (Hnamed s0). }
  destruct (shard_capabilities_sorted i (bucket_of ims.*1)) as (Hsorted & Hnd & Hlen).
  split_and!.
  - cbn [specs to_shard]. by apply bucket_members_specs.
  - intros c. rewrite shard_capabilities_elem_of.
    by apply bucket_members_capabilities.
  - done.
  - done.
  - rewrite Hlen. cbn [fixtureCount to_shard].
    by rewrite bucket_members_hasStandardSpecs.
Qed.

Lemma fixtureCount_of_shard_witness :
  let discovered := [spec "email.spec.ts" ["email"]; spec "proxy.spec.ts" ["proxy"];
                     spec "standard.spec.ts" []] in
  ∃ r (parts : list (list SpecWithDuration)),
    orchestrate discovered 1 ∅ DEFAULT_CONFIG = Some r
    ∧ concat parts ≡ₚ enrichWithDuration discovered ∅ (defaultDuration DEFAULT_CONFIG)
    ∧ Forall2 (λ part sh,
        specs sh = sd_path <$> part
        ∧ (∀ c, c ∈ shard_capabilities sh ↔ ∃ s, s ∈ part ∧ first_cap s = Some c)
        ∧ Sorted String.le (shard_capabilities sh)
        ∧ NoDup (shard_capabilities sh)
        ∧ fixtureCount sh
          = (length (shard_capabilities sh)
             + (if existsb (λ s, bool_decide (sd_capabilities s = [])) part
                then 1 else 0))%nat)
      parts (shards r).
Proof.
  intros discovered.
  apply (fixtureCount_of_shard discovered 1 ∅ DEFAULT_CONFIG).
  - lia.
  - intros s Hs. repeat (apply elem_of_cons in Hs as [->|Hs]); [done..|].
    by apply elem_of_nil in Hs.
Defined.

(** ** Only the first capability counts *)

Lemma enrich_keep_first discovered metrics d :
  enrichWithDuration (keep_first <$> discovered) metrics d
  = forget_rest <$> enrichWithDuration discovered metrics d.
Proof.
  unfold enrichWithDuration. rewrite <- !list_fmap_compose.
  by apply list_fmap_ext.
Qed.

Lemma sumZ_duration_t l : sumZ duration (forget_rest <$> l) = sumZ duration l.
Proof. by rewrite sumZ_fmap. Qed.

Lemma sort_desc_t l :
  sort_desc duration (forget_rest <$> l) = forget_rest <$> sort_desc duration l.
Proof. by rewrite sort_desc_fmap. Qed.

Lemma groups_push_t c x g :
  groups_push c (forget_rest x) (forget_rest_groups g)
  = forget_rest_groups (groups_push c x g).
Proof.
  unfold forget_rest_groups. induction g as [|[k ms] g IH]; csimpl; [done|].
  case_decide; csimpl; [by rewrite fmap_app | by rewrite IH].
Qed.

Lemma group_step_t acc x :
  group_step (forget_rest_groups acc.1, forget_rest <$> acc.2) (forget_rest x)
  = (forget_rest_groups (group_step acc x).1, forget_rest <$> (group_step acc x).2).
Proof.
  unfold group_step. simpl. destruct (sd_capabilities x) as [|cap caps]; simpl.
  - by rewrite fmap_app.
  - by rewrite groups_push_t.
Qed.

Lemma fold_group_step_t l acc :
  fold_left group_step (forget_rest <$> l)
    (forget_rest_groups acc.1, forget_rest <$> acc.2)
  = (forget_rest_groups (fold_left group_step l acc).1,
     forget_rest <$> (fold_left group_step l acc).2).
Proof.
  revert acc. induction l as [|x l IH]; intros acc; csimpl; [done|].
  rewrite group_step_t. apply IH.
Qed.

Lemma groupByCapability_t l :
  groupByCapability (forget_rest <$> l)
  = (forget_rest_groups (groupByCapability l).1,
     forget_rest <$> (groupByCapability l).2).
Proof. apply (fold_group_step_t l ([], [])). Qed.

Lemma accumulate_t target cur rest :
  SplitSpec.accumulate target (forget_rest <$> cur) (forget_rest <$> rest)
  = (λ g : list SpecWithDuration, forget_rest <$> g)
      <$> SplitSpec.accumulate target cur rest.
Proof.
  revert cur. induction rest as [|s rest IH]; intros cur; csimpl; [done|].
  rewrite sumZ_duration_t.
  replace (SplitSpec.is_empty (forget_rest <$> cur)) with (SplitSpec.is_empty cur)
    by (by destruct cur).
  destruct (_ && _); csimpl.
  - f_equal. apply (IH [s]).
  - rewrite <- IH. by rewrite fmap_app.
Qed.

Lemma subgroups_t maxGroupDuration ms :
  SplitSpec.subgroups maxGroupDuration (forget_rest <$> ms)
  = (λ g : list SpecWithDuration, forget_rest <$> g)
      <$> SplitSpec.subgroups maxGroupDuration ms.
Proof.
  unfold SplitSpec.subgroups, SplitSpec.exceeds_threshold.
  rewrite sumZ_duration_t, length_fmap, sort_desc_t.
  destruct (_ && _); [|done]. apply (accumulate_t _ []).
Qed.

Lemma tagged_t c g : SplitSpec.tagged c (forget_rest <$> g) = SplitSpec.tagged c g.
Proof.
  unfold SplitSpec.tagged. rewrite sumZ_duration_t. f_equal.
  rewrite <- list_fmap_compose. by apply list_fmap_ext.
Qed.

Lemma items_t maxGroupDuration g :
  SplitSpec.items maxGroupDuration (forget_rest_groups g)
  = SplitSpec.items maxGroupDuration g.
Proof.
  unfold SplitSpec.items, forget_rest_groups.
  induction g as [|[c ms] g IH]; csimpl; [done|].
  rewrite IH, subgroups_t. f_equal.
  rewrite <- list_fmap_compose. apply list_fmap_ext. intros _ sg _. apply tagged_t.
Qed.

Lemma packing_items_keep_first discovered metrics config :
  packing_items (keep_first <$> discovered) metrics config
  = packing_items discovered metrics config.
Proof.
  unfold packing_items. rewrite enrich_keep_first, groupByCapability_t.
  destruct (groupByCapability _) as [groups standard]. simpl.
  rewrite !splitLargeGroups_items, items_t. f_equal.
  rewrite <- list_fmap_compose. by apply list_fmap_ext.
Qed.

Lemma orchestrate_keep_first discovered numShards metrics config :
  orchestrate (keep_first <$> discovered) numShards metrics config
  = orchestrate discovered numShards metrics config.
Proof.
  rewrite !orchestrate_packing, packing_items_keep_first.
  by rewrite enrich_keep_first, sumZ_duration_t.
Qed.

Lemma keep_first_without c (discovered : list DiscoveredSpec) :
  (∀ s, s ∈ discovered → head (capabilities s) ≠ Some c) →
  keep_first <$> (without c <$> discovered) = keep_first <$> discovered.
Proof.
  intros Hc. rewrite <- list_fmap_compose. apply list_fmap_ext.
  intros _ s Hs%list_elem_of_lookup_2. specialize (Hc s Hs).
  unfold keep_first, without. simpl. f_equal.
  destruct (capabilities s) as [|x caps]; [done|]. simpl in Hc.
  rewrite filter_cons_True by congruence. done.
Qed.

Lemma orchestrate_no_shards (discovered : list DiscoveredSpec) metrics config r :
  orchestrate discovered 0 metrics config = Some r → shards r = [].
Proof.
  rewrite orchestrate_packing. unfold assignToShards.
  destruct (Js.sort _ _); simpl; [|done]. by intros [= <-].
Qed.

(** The capabilities of a shard are first capabilities of input specs. *)
Lemma shard_capability_is_first discovered numShards metrics config r sh c :
  orchestrate discovered numShards metrics config = Some r →
  sh ∈ shards r → c ∈ shard_capabilities sh →
  ∃ s, s ∈ discovered ∧ head (capabilities s) = Some c.
Proof.
  intros Hr Hsh Hc. destruct numShards as [|n].
  { apply orchestrate_no_shards in Hr. rewrite Hr in Hsh. by apply elem_of_nil in Hsh. }
  destruct (orchestrate_shape discovered (S n) metrics config) as
    (assigned & Hperm & _ & _ & Hres); [lia|].
  rewrite Hr in Hres. injection Hres as ->. cbn [shards] in Hsh.
  apply elem_of_shards in Hsh as (i & its & Hi & ->).
  apply shard_capabilities_elem_of in Hc. unfold bucket_of in Hc.
  apply fill_capabilities in Hc as [Hc|(it & Hit & Hcap & _)]; [set_solver|].
  assert (it ∈ packing_items discovered metrics config) as Hin.
  { rewrite <- Hperm. apply elem_of_concat. exists its.
    split; [by eapply list_elem_of_lookup_2 | done]. }
  destruct (elem_of_packing_items _ _ _ _ Hin)
    as [(c' & g & -> & Hne & Hg)|(s & -> & _)]; [|done].
  simpl in Hcap. injection Hcap as ->.
  destruct g as [|s g]; [done|]. destruct (Hg s) as [Hs Hfc]; [left|].
  destruct (enrich_first_cap _ _ _ _ _ Hs Hfc) as (s0 & ? & ? & _). by exists s0.
Qed.

(** C10. If the capability [c] is never the first capability of an input
    spec, then no returned shard lists it among its capabilities, and
    removing it from every spec leaves the whole result of [orchestrate],
    fixture counts included, unchanged. *)
Theorem first_capability_only discovered numShards metrics config c :
  (∀ s, s ∈ discovered → head (capabilities s) ≠ Some c) →
  (∀ r sh, orchestrate discovered numShards metrics config = Some r →
           sh ∈ shards r → c ∉ shard_capabilities sh)
  ∧ orchestrate (without c <$> discovered) numShards metrics config
    = orchestrate discovered numShards metrics config.
Proof.
  intros Hc. split.
  - intros r sh Hr Hsh Hin.
    destruct (shard_capability_is_first _ _ _ _ _ _ _ Hr Hsh Hin) as (s & Hs & Hhead).
    by apply (Hc s).
  - rewrite <- (orchestrate_keep_first (without c <$> discovered)).
    rewrite keep_first_without by done. apply orchestrate_keep_first.
Qed.

Lemma first_capability_only_witness :
  let discovered := [spec "a.spec.ts" ["email"; "proxy"]; spec "b.spec.ts" []] in
  (∀ r sh, orchestrate discovered 2 ∅ DEFAULT_CONFIG = Some r →
           sh ∈ shards r → "proxy" ∉ shard_capabilities sh)
  ∧ orchestrate (without "proxy" <$> discovered) 2 ∅ DEFAULT_CONFIG
    = orchestrate discovered 2 ∅ DEFAULT_CONFIG.
Proof.
  intros discovered.
  apply (first_capability_only discovered 2 ∅ DEFAULT_CONFIG "proxy").
  intros s Hs. repeat (apply elem_of_cons in Hs as [->|Hs]); [done..|].
  by apply elem_of_nil in Hs.
Defined.


(** Tags are cut out of titles by the pattern [@] + word/colon/hyphen run. *)
Example parseTags_capability :
  parseTags "sends email @capability:email" = ["@capability:email"].
Proof. reflexivity. Qed.

Example parseTags_multi_colon :
  parseTags "git @capability:source-control @mode:multi-main x@y.z @"
  = ["@capability:source-control"; "@mode:multi-main"; "@y"].
Proof. reflexivity. Qed.

Lemma findSkippedScopes_fold (calls : list Call) (acc : gset nat) b :
  b ∈ fold_left
        (λ skippedScopes callExpr,
           match extractSkippedBlock callExpr with
           | Some blockStart => {[ blockStart ]} ∪ skippedScopes
           | None => skippedScopes
           end) calls acc
  ↔ b ∈ acc ∨ ∃ call, call ∈ calls ∧ extractSkippedBlock call = Some b.
Proof.
  revert acc. induction calls as [|c calls IH]; intros acc; simpl.
  - split; [by left | intros [?|(? & ?%elem_of_nil & _)]; done].
  - rewrite IH. destruct (extractSkippedBlock c) as [b'|] eqn:E.
    + rewrite elem_of_union, elem_of_singleton. split.
      * intros [[->|?]|(call & ? & ?)]; [right; exists c; split; [left|done] |by left|].
        right. exists call. split; [by right | done].
      * intros [?|(call & [->|?]%elem_of_cons & Hc)]; [by left; right| |].
        -- left. left. congruence.
        -- right. by exists call.
    + split.
      * intros [?|(call & ? & ?)]; [by left|].
        right. exists call. split; [by right | done].
      * intros [?|(call & [->|?]%elem_of_cons & Hc)]; [by left|congruence|].
        right. by exists call.
Qed.

Lemma elem_of_findSkippedScopes file b :
  b ∈ findSkippedScopes file
  ↔ ∃ call, call ∈ getDescendantCalls file ∧ extractSkippedBlock call = Some b.
Proof.
  unfold findSkippedScopes. rewrite findSkippedScopes_fold. set_solver.
Qed.

(** Induction on syntax trees. *)
Lemma Node_forall_ind (P : Node → Prop) :
  (∀ text callee args, P callee → Forall P args → P (CallExpression text callee args)) →
  (∀ text, P (StringLiteral text)) →
  (∀ text, P (NoSubstitutionTemplateLiteral text)) →
  (∀ parameters body, Forall P parameters → P body → P (ArrowFunction parameters body)) →
  (∀ parameters start statements,
     Forall P parameters → Forall P statements →
     P (FunctionExpression parameters start statements)) →
  (∀ start statements, Forall P statements → P (Block start statements)) →
  (∀ children, Forall P children → P (Other children)) →
  ∀ n, P n.
Proof.
  intros Hcall Hstr Htpl Harrow Hfun Hblock Hother.
  fix IH 1. intros n.
  assert (∀ l, Forall P l) as Hall.
  { induction l as [|x l IHl]; constructor; [apply IH | exact IHl]. }
  destruct n.
  - apply Hcall; [apply IH | apply Hall].
  - apply Hstr.
  - apply Htpl.
  - apply Harrow; [apply Hall | apply IH].
  - apply Hfun; apply Hall.
  - apply Hblock, Hall.
  - apply Hother, Hall.
Qed.

Lemma elem_of_flat_map {A B} (f : A → list B) (l : list A) (x : B) :
  x ∈ flat_map f l ↔ ∃ y, y ∈ l ∧ x ∈ f y.
Proof.
  induction l as [|a l IH]; simpl.
  - split; [by intros ?%elem_of_nil | by intros (y & ?%elem_of_nil & _)].
  - rewrite elem_of_app, IH. split.
    + intros [?|(y & ? & ?)]; [exists a; split; [left|done]|].
      exists y. split; [by right | done].
    + intros (y & [->|?]%elem_of_cons & ?); [by left|]. right. by exists y.
Qed.

(** A call below a node lies in every block that encloses the node. *)
Lemma calls_in_enclosing n :
  ∀ enclosing call b, call ∈ calls_in enclosing n → b ∈ enclosing → b ∈ blocks call.
Proof.
  induction n as [text callee args IHc IHa| | |ps body IHp IHb|ps start stmts IHp IHs
                 |start stmts IHs|kids IHk] using Node_forall_ind;
    intros enclosing call b Hcall Hb; simpl in Hcall;
    rewrite ?Forall_forall in *.
  - apply elem_of_cons in Hcall as [->|[Hcall|Hcall]%elem_of_app]; [done|eauto|].
    apply elem_of_flat_map in Hcall as (a & Ha & Hcall). eauto.
  - by apply elem_of_nil in Hcall.
  - by apply elem_of_nil in Hcall.
  - apply elem_of_app in Hcall as [Hcall|Hcall]; [|eauto].
    apply elem_of_flat_map in Hcall as (a & Ha & Hcall). eauto.
  - apply elem_of_app in Hcall as [Hcall|Hcall];
      apply elem_of_flat_map in Hcall as (a & Ha & Hcall); [eauto|].
    eapply IHs; [done..|by right].
  - apply elem_of_flat_map in Hcall as (a & Ha & Hcall).
    eapply IHs; [done..|by right].
  - apply elem_of_flat_map in Hcall as (a & Ha & Hcall). eauto.
Qed.

Lemma no_arg_marker_scope file marker b :
  marker ∈ getDescendantCalls file →
  is_disable_marker (expression marker) = true →
  arguments marker = [] →
  head (blocks marker) = Some b →
  b ∈ findSkippedScopes file.
Proof.
  intros Hin Hmark Hargs Hb. apply elem_of_findSkippedScopes.
  exists marker. split; [done|]. unfold extractSkippedBlock.
  by rewrite Hmark, Hargs.
Qed.

Lemma classify_inside_skipped config scopes call b info :
  b ∈ blocks call → b ∈ scopes →
  classify config scopes call = Some info →
  skipped info = true.
Proof.
  intros Hb Hscope. unfold classify.
  destruct (parseTestCall call (skipTags config)) as [i|]; [|done].
  simpl. intros [= <-].
  assert (isInsideSkippedScope call scopes = true) as ->.
  { apply existsb_elem_of. exists b. split; [done|]. by apply bool_decide_eq_true. }
  by destruct (skipped i) eqn:E.
Qed.

(** A file without an active test yields no spec. *)
Lemma analyzeTestFile_no_active getRelativePath config file :
  (∀ info, info ∈ extractTestCalls config file →
           skipped info = true ∨ isDescribe info = true) →
  analyzeTestFile getRelativePath config file = None.
Proof.
  intros Hall. unfold analyzeTestFile. case_bool_decide; [done|].
  assert (existsb (λ call, negb (skipped call) && negb (isDescribe call))
            (extractTestCalls config file) = false) as ->; [|done].
  apply not_true_iff_false. intros (info & Hin & Hact)%existsb_elem_of.
  apply andb_true_iff in Hact as [Hs Hd].
  destruct (Hall info Hin) as [E|E]; rewrite E in *; done.
Qed.

Lemma describe_fixme_no_spec getRelativePath config rest :
  analyzeTestFile getRelativePath config (describe_fixme rest) = None.
Proof.
  apply analyzeTestFile_no_active. intros info Hin.
  apply list_elem_of_omap in Hin as (call & Hcall & Hclass).
  assert (25%nat ∈ findSkippedScopes (describe_fixme rest)) as Hscope.
  { apply (no_arg_marker_scope _
             {| expression := "test.fixme"; arguments := []; blocks := [25%nat] |});
      [|done..].
    unfold getDescendantCalls. simpl. right. left. }
  unfold getDescendantCalls in Hcall. simpl in Hcall.
  apply elem_of_cons in Hcall as [->|Hcall].
  { right. unfold classify in Hclass. simpl in Hclass. by injection Hclass as <-. }
  left. apply (classify_inside_skipped _ _ call 25%nat _) in Hclass; [done| |done].
  rewrite !(right_id_L [] (++)) in Hcall.
  apply elem_of_cons in Hcall as [->|Hcall]; [left|].
  apply elem_of_cons in Hcall as [->|Hcall]; [left|].
  apply elem_of_flat_map in Hcall as (n & _ & Hcall).
  eapply calls_in_enclosing; [done | left].
Qed.

(** C8. A [test.fixme()] or [test.skip()] without arguments puts its
    nearest enclosing block into the set of skipped scopes; a call found
    anywhere below a block has that block among its enclosing blocks, and
    every recognized call that has a skipped scope among its enclosing
    blocks is recorded as skipped, whatever its own marker and tags; so the
    file [test.describe('g', () => { test.fixme(); test('inner', ...) })]
    yields no spec, whatever the further arguments of the inner call. *)
Theorem skipped_scope_propagation getRelativePath localeCompare config file :
  (∀ marker b, marker ∈ getDescendantCalls file →
               is_disable_marker (expression marker) = true →
               arguments marker = [] →
               head (blocks marker) = Some b →
               b ∈ findSkippedScopes file)
  ∧ (∀ start statements enclosing call,
       call ∈ calls_in enclosing (Block start statements) → start ∈ blocks call)
  ∧ (∀ call b info, b ∈ blocks call → b ∈ findSkippedScopes file →
                    classify config (findSkippedScopes file) call = Some info →
                    skipped info = true)
  ∧ extractTestCalls config file
    = omap (classify config (findSkippedScopes file)) (getDescendantCalls file)
  ∧ (∀ rest,
       analyzeTestFile getRelativePath config (describe_fixme rest) = None
       ∧ report_specs
           (discover getRelativePath localeCompare config [describe_fixme rest])
         = []).
Proof.
  split_and!.
  - intros marker b. apply no_arg_marker_scope.
  - intros start statements enclosing call Hcall. simpl in Hcall.
    apply elem_of_flat_map in Hcall as (n & _ & Hcall).
    eapply calls_in_enclosing; [done | left].
  - intros call b info. apply classify_inside_skipped.
  - done.
  - intros rest. unfold discover. simpl.
    by rewrite describe_fixme_no_spec.
Qed.

Lemma startsWith_slice s prefix :
  Js.startsWith s prefix = true →
  s = prefix +:+ Js.slice s (String.length prefix).
Proof.
  unfold Js.startsWith. revert s.
  induction prefix as [|a p IH]; intros s Hp; simpl in *.
  - by destruct s.
  - destruct s as [|b s]; [done|]. simpl in *.
    destruct (Ascii.ascii_dec a b) as [->|]; [|done].
    change (String b s = String b (p +:+ Js.slice s (String.length p))).
    f_equal. by apply IH.
Qed.

Lemma NoDup_omap_inj {A B} (f : A → option B) (l : list A) :
  (∀ a b y, a ∈ l → b ∈ l → f a = Some y → f b = Some y → a = b) →
  NoDup l → NoDup (omap f l).
Proof.
  intros Hinj. induction 1 as [|x l Hx Hnd IH]; csimpl; [constructor|].
  assert (NoDup (omap f l)) as IH'.
  { apply IH. intros a b y Ha Hb. apply Hinj; by right. }
  destruct (f x) as [y|] eqn:Hfx; [|done].
  constructor; [|done].
  intros (b & Hb & Hfb)%list_elem_of_omap.
  apply Hx. rewrite (Hinj x b y); [done | left | by right | done | done].
Qed.

Lemma StronglySorted_remove_dups {A} `{EqDecision A} (R : relation A) (l : list A) :
  StronglySorted R l → StronglySorted R (remove_dups l).
Proof.
  induction 1 as [|x l Hl IH Hx]; simpl; [constructor|].
  case_decide; [done|]. constructor; [done|].
  apply Forall_forall. intros y Hy. rewrite elem_of_remove_dups in Hy.
  rewrite Forall_forall in Hx. by apply Hx.
Qed.

Lemma classify_tags config scopes call info :
  classify config scopes call = Some info →
  ∃ info0, parseTestCall call (skipTags config) = Some info0 ∧ tags info = tags info0.
Proof.
  unfold classify. destruct (parseTestCall _ _) as [info0|]; [|done].
  simpl. intros [= <-]. exists info0. split; [done|]. by case_match.
Qed.

Lemma extractTestCalls_tags config file :
  flat_map tags (extractTestCalls config file)
  = flat_map tags (CapabilitySpec.recognized config file).
Proof.
  unfold extractTestCalls, CapabilitySpec.recognized.
  generalize (findSkippedScopes file). intros scopes.
  induction (getDescendantCalls file) as [|c calls IH]; csimpl; [done|].
  unfold classify at 1.
  destruct (parseTestCall c (skipTags config)) as [info0|]; csimpl; [|done].
  rewrite IH. f_equal. by case_match.
Qed.

Lemma allTags_fold (calls : list TestCallInfo) (acc : gset string) tag :
  tag ∈ fold_left
          (λ allTags call,
             fold_left (λ allTags tag, {[ tag ]} ∪ allTags) (tags call) allTags)
          calls acc
  ↔ tag ∈ acc ∨ tag ∈ flat_map tags calls.
Proof.
  assert (∀ (l : list string) (acc : gset string),
            tag ∈ fold_left (λ allTags tag, {[ tag ]} ∪ allTags) l acc
            ↔ tag ∈ acc ∨ tag ∈ l) as Hinner.
  { induction l as [|x l IH]; intros acc'; simpl; [set_solver|].
    rewrite IH. set_solver. }
  revert acc. induction calls as [|c calls IH]; intros acc; simpl.
  - set_solver.
  - rewrite IH, Hinner, elem_of_app. tauto.
Qed.

(** C9. Whenever a file yields a spec, the capabilities of the spec are
    those obtained from the tags of all its recognized calls (grouping
    calls and skipped calls included) by keeping the tags that start with
    the capability prefix, stripping the prefix, sorting and removing
    duplicates. *)
Theorem analyzeTestFile_capabilities getRelativePath config file spec :
  analyzeTestFile getRelativePath config file = Some spec →
  capabilities spec
  = CapabilitySpec.capabilities (capabilityPrefix config)
      (CapabilitySpec.recognized config file).
Proof.
  unfold analyzeTestFile. case_bool_decide; [done|]. case_match; [done|].
  intros [= <-]. cbn [capabilities]. unfold CapabilitySpec.capabilities.
  rewrite <- extractTestCalls_tags.
  set (calls := extractTestCalls config file).
  set (prefix := capabilityPrefix config).
  set (strip := λ tag, if Js.startsWith tag prefix
                       then Some (Js.slice tag (String.length prefix)) else None).
  apply (StronglySorted_unique String.le).
  - apply (StronglySorted_merge_sort String.le).
  - apply StronglySorted_remove_dups, (StronglySorted_merge_sort String.le).
  - apply NoDup_Permutation.
    + unfold Js.sort_strings. rewrite merge_sort_Permutation.
      apply NoDup_omap_inj; [|apply NoDup_elements].
      intros a b y _ _. unfold strip.
      destruct (Js.startsWith a prefix) eqn:Ha; [|done].
      destruct (Js.startsWith b prefix) eqn:Hb; [|done].
      intros [= <-] [= Hy].
      rewrite (startsWith_slice a prefix Ha), (startsWith_slice b prefix Hb).
      by rewrite Hy.
    + apply NoDup_remove_dups.
    + intros x. unfold Js.sort_strings.
      rewrite elem_of_remove_dups, !merge_sort_Permutation.
      rewrite list_elem_of_omap, list_elem_of_fmap. split.
      * intros (tag & Htag & Hx). exists tag.
        apply elem_of_elements, allTags_fold in Htag as [?|Htag]; [set_solver|].
        unfold strip in Hx. destruct (Js.startsWith tag prefix) eqn:Hp; [|done].
        split; [congruence|]. by apply list_elem_of_filter.
      * intros (tag & -> & [Hp Htag]%list_elem_of_filter). exists tag. split.
        -- apply elem_of_elements, allTags_fold. by right.
        -- unfold strip. by rewrite Hp.
Qed.

Lemma analyzeTestFile_capabilities_witness :
  analyzeTestFile id default_config multi_file
    = Some {| path := "/test-root/tests/multi.spec.ts";
              capabilities := ["email"; "proxy"] |}
  ∧ ["email"; "proxy"]
    = CapabilitySpec.capabilities "@capability:"
        (CapabilitySpec.recognized default_config multi_file).
Proof.
  assert (analyzeTestFile id default_config multi_file
          = Some {| path := "/test-root/tests/multi.spec.ts";
                    capabilities := ["email"; "proxy"] |}) as H
    by (by vm_compute).
  split; [exact H|].
  exact (analyzeTestFile_capabilities id default_config multi_file _ H).
Defined.

(** * Further properties of the orchestrator *)

(** ** Zero shards and zero specs *)

Lemma packing_items_nil discovered metrics config :
  packing_items discovered metrics config = [] ↔ discovered = [].
Proof.
  split.
  - intros E. pose proof (packing_items_specs discovered metrics config) as H.
    rewrite E in H. simpl in H. apply Permutation_nil in H.
    by apply fmap_nil_inv in H.
  - by intros ->.
Qed.

(** X1. [orchestrate] throws (the [TypeError] of [reduce] on an empty
    array of buckets) exactly when [numShards] is 0 and there is at least
    one spec to place. *)
Theorem orchestrate_throws_iff discovered numShards metrics config :
  orchestrate discovered numShards metrics config = None
  ↔ numShards = 0%nat ∧ discovered ≠ [].
Proof.
  destruct numShards as [|n].
  - rewrite orchestrate_packing, <- (packing_items_nil discovered metrics config).
    unfold assignToShards.
    change (Js.sort (λ a b, item_duration b - item_duration a)
              (packing_items discovered metrics config))
      with (sort_desc item_duration (packing_items discovered metrics config)).
    pose proof (sort_desc_length item_duration
                  (packing_items discovered metrics config)) as Hlen.
    destruct (sort_desc _ _), (packing_items _ _ _); try done; naive_solver.
  - destruct (orchestrate_shape discovered (S n) metrics config)
      as (? & _ & _ & _ & ->); [lia|].
    naive_solver.
Qed.

Lemma filter_replicate_empty n :
  filter (λ b, (0 < length (b_specs b))%nat) (replicate n empty_bucket) = [].
Proof. apply filter_none. intros b [-> _]%elem_of_replicate. simpl. lia. Qed.

(** X2. Without specs, [orchestrate] returns no shard and a total of 0,
    for every number of shards (0 included), every metrics map and every
    configuration. *)
Theorem orchestrate_no_specs numShards metrics config :
  orchestrate [] numShards metrics config
  = Some {| shards := []; totalTestTime := 0 |}.
Proof.
  unfold orchestrate. cbn. by rewrite filter_replicate_empty.
Qed.

(** ** The greedy loop *)

Lemma lightest_Some buckets i : lightest buckets = Some i → is_lightest buckets i.
Proof.
  destruct buckets as [|b rest]; [done|].
  destruct (lightest_is_lightest b rest) as (j & Hj & Hl). congruence.
Qed.

Lemma length_filter_alter {A} (P : A → Prop) `{!∀ x, Decision (P x)}
    (f : A → A) i (l : list A) b :
  l !! i = Some b →
  (length (filter P (alter f i l)) + (if decide (P b) then 1 else 0)
   = length (filter P l) + (if decide (P (f b)) then 1 else 0))%nat.
Proof.
  revert i. induction l as [|x l IH]; intros [|i] Hi; simplify_eq/=.
  - rewrite !filter_cons. repeat case_decide; simpl; lia.
  - rewrite !filter_cons. specialize (IH i Hi).
    destruct (decide (P x)); simpl; lia.
Qed.

Lemma length_filter_all {A} (P : A → Prop) `{!∀ x, Decision (P x)} (l : list A) :
  Forall P l → length (filter P l) = length l.
Proof.
  induction 1 as [|x l Hx _ IH]; [done|].
  rewrite filter_cons, decide_True by done. simpl. by rewrite IH.
Qed.

Lemma elem_of_alter_inv {A} (f : A → A) i (l : list A) x :
  x ∈ alter f i l → x ∈ l ∨ ∃ y, l !! i = Some y ∧ x = f y.
Proof.
  intros [j Hj]%list_elem_of_lookup.
  destruct (decide (i = j)) as [->|Hij].
  - rewrite list_lookup_alter, decide_True in Hj by done.
    destruct (l !! j) as [y|] eqn:E; simplify_eq/=. right. by exists y.
  - rewrite list_lookup_alter_ne in Hj by done. left.
    by apply list_elem_of_lookup_2 in Hj.
Qed.

(** When every item takes time, the loop fills an empty bucket as long as
    there is one. *)
Lemma assign_loop_count items buckets r :
  Forall (λ it, item_specs it ≠ [] ∧ 0 < item_duration it) items →
  Forall (λ b, (b_specs b = [] ∧ b_testTime b = 0)
               ∨ (b_specs b ≠ [] ∧ 0 < b_testTime b)) buckets →
  assign_loop items buckets = Some r →
  length (filter (λ b, (0 < length (b_specs b))%nat) r)
  = ((length (filter (λ b, (0 < length (b_specs b))%nat) buckets) + length items)
     `min` length buckets)%nat.
Proof.
  intros Hitems. revert buckets.
  induction Hitems as [|it items [Hspecs Hdur] _ IH]; intros buckets Hb Hloop.
  - simplify_eq/=.
    pose proof (length_filter (λ b, (0 < length (b_specs b))%nat) r). lia.
  - cbn [assign_loop] in Hloop. unfold assign_step in Hloop.
    destruct (lightest buckets) as [i|] eqn:Hi; [|done]. cbn in Hloop.
    apply lightest_Some in Hi as (b & Hbi & Hmin).
    rewrite Forall_forall in Hb.
    assert (b ∈ buckets) as Hbin by by eapply list_elem_of_lookup_2.
    apply IH in Hloop.
    + rewrite Hloop, length_alter. cbn [length].
      pose proof (length_filter_alter (λ b, (0 < length (b_specs b))%nat)
                    (add_item it) i buckets b Hbi) as Hcount.
      rewrite (decide_True (P := (0 < length (b_specs (add_item it b)))%nat))
        in Hcount.
      2:{ simpl. rewrite length_app. destruct (item_specs it); [done|]. simpl. lia. }
      case_decide as Hne; [|lia].
      assert (Forall (λ b, (0 < length (b_specs b))%nat) buckets) as Hall.
      { apply Forall_forall. intros b' [j Hj]%list_elem_of_lookup.
        destruct (Hmin j b' Hj) as [Hle _].
        assert (b' ∈ buckets) as Hbin' by by eapply list_elem_of_lookup_2.
        destruct (Hb b Hbin) as [[E _]|[_ Hpos]].
        { rewrite E in Hne. simpl in Hne. lia. }
        destruct (Hb b' Hbin') as [[_ E]|[E _]]; [lia|].
        destruct (b_specs b'); [done|]. simpl. lia. }
      rewrite (length_filter_all _ _ Hall) in *. lia.
    + apply Forall_forall.
      intros b' [Hb'|(y & Hy & ->)]%elem_of_alter_inv; [by apply Hb|].
      right. simplify_eq. simpl. split.
      * by intros [_ E]%app_eq_nil.
      * destruct (Hb b Hbin) as [[_ E]|[_ E]]; lia.
Qed.

(** When no item takes negative time, the loop keeps any two buckets
    within [D] of each other, for [D] a bound of the item durations. *)
Lemma assign_loop_spread D items buckets r :
  Forall (λ it, 0 ≤ item_duration it ≤ D) items →
  (∀ b b', b ∈ buckets → b' ∈ buckets → b_testTime b ≤ b_testTime b' + D) →
  assign_loop items buckets = Some r →
  ∀ b b', b ∈ r → b' ∈ r → b_testTime b ≤ b_testTime b' + D.
Proof.
  intros Hitems. revert buckets.
  induction Hitems as [|it items Hdur _ IH]; intros buckets Hb Hloop.
  - by simplify_eq/=.
  - cbn [assign_loop] in Hloop. unfold assign_step in Hloop.
    destruct (lightest buckets) as [i|] eqn:Hi; [|done]. cbn in Hloop.
    apply lightest_Some in Hi as (bl & Hbi & Hmin).
    apply (IH (alter (add_item it) i buckets)); [|done]. clear IH Hloop.
    assert (bl ∈ buckets) as Hbl by by eapply list_elem_of_lookup_2.
    assert (∀ b', b' ∈ buckets → b_testTime bl ≤ b_testTime b') as Hle.
    { intros b' [j Hj]%list_elem_of_lookup. by destruct (Hmin j b' Hj). }
    intros b b' [Hin|(y & Hy & ->)]%elem_of_alter_inv
                [Hin'|(y' & Hy' & ->)]%elem_of_alter_inv;
      simplify_eq/=.
    + by apply Hb.
    + specialize (Hb b bl Hin Hbl). lia.
    + specialize (Hle b' Hin'). lia.
    + lia.
Qed.

Lemma max_duration_ge items it :
  it ∈ items → item_duration it ≤ max_duration items.
Proof.
  induction items as [|x items IH]; simpl.
  - by intros ?%elem_of_nil.
  - intros [->|Hin]%elem_of_cons; [lia|]. specialize (IH Hin). lia.
Qed.

Lemma max_duration_nonneg items : 0 ≤ max_duration items.
Proof. induction items; simpl; lia. Qed.

Lemma sumZ_nonneg {A} (f : A → Z) (l : list A) :
  (∀ x, x ∈ l → 0 ≤ f x) → 0 ≤ sumZ f l.
Proof.
  induction l as [|x l IH]; simpl; [done|]. intros H.
  assert (0 ≤ f x) by (apply H; left).
  assert (0 ≤ sumZ f l) by (apply IH; intros; apply H; by right). lia.
Qed.

Lemma sumZ_le_total {A} (f : A → Z) (l : list A) x :
  (∀ y, y ∈ l → 0 ≤ f y) → x ∈ l → f x ≤ sumZ f l.
Proof.
  induction l as [|y l IH]; intros Hnn; [by intros ?%elem_of_nil|].
  assert (0 ≤ f y) by (apply Hnn; left).
  assert (0 ≤ sumZ f l) by (apply sumZ_nonneg; intros; apply Hnn; by right).
  intros [->|Hx]%elem_of_cons; simpl; [lia|].
  assert (f x ≤ sumZ f l) by (apply IH; [intros; apply Hnn; by right | done]). lia.
Qed.

Lemma sumZ_pos {A} (f : A → Z) (l : list A) :
  l ≠ [] → (∀ x, x ∈ l → 0 < f x) → 0 < sumZ f l.
Proof.
  destruct l as [|x l]; [done|]. intros _ H. simpl.
  assert (0 < f x) by (apply H; left).
  assert (0 ≤ sumZ f l); [|lia].
  apply sumZ_nonneg. intros y Hy. assert (0 < f y) by (apply H; by right). lia.
Qed.

Lemma sumZ_lower_bound {A} (f : A → Z) (l : list A) t D :
  (∀ x, x ∈ l → t ≤ f x + D) →
  Z.of_nat (length l) * t ≤ sumZ f l + Z.of_nat (length l) * D.
Proof.
  induction l as [|x l IH]; intros H; [simpl; lia|].
  assert (t ≤ f x + D) by (apply H; left).
  assert (Z.of_nat (length l) * t ≤ sumZ f l + Z.of_nat (length l) * D)
    by (apply IH; intros; apply H; by right).
  change (sumZ f (x :: l)) with (f x + sumZ f l). cbn [length]. lia.
Qed.

(** Durations recorded by the metrics are not negative. *)
Section durations.
Context (discovered : list DiscoveredSpec) (metrics : gmap string Z)
        (config : OrchestrationConfig).
Context (Hmetrics : ∀ p v, metrics !! p = Some v → 0 ≤ v).

Lemma enrich_nonneg s :
  0 ≤ defaultDuration config →
  s ∈ enrichWithDuration discovered metrics (defaultDuration config) →
  0 ≤ duration s.
Proof.
  intros Hd (s0 & -> & _)%list_elem_of_fmap. simpl.
  unfold Js.or_default. destruct (metrics !! path s0) as [v|] eqn:E; [|lia].
  specialize (Hmetrics _ _ E). destruct (Z.eqb_spec v 0); lia.
Qed.

Lemma enrich_pos s :
  0 < defaultDuration config →
  s ∈ enrichWithDuration discovered metrics (defaultDuration config) →
  0 < duration s.
Proof.
  intros Hd (s0 & -> & _)%list_elem_of_fmap. simpl.
  unfold Js.or_default. destruct (metrics !! path s0) as [v|] eqn:E; [|lia].
  specialize (Hmetrics _ _ E). destruct (Z.eqb_spec v 0); lia.
Qed.

Lemma packing_items_nonneg it :
  0 ≤ defaultDuration config →
  it ∈ packing_items discovered metrics config → 0 ≤ item_duration it.
Proof.
  intros Hd [(c & g & -> & Hne & Hg)|(s & -> & Hs & _)]%elem_of_packing_items; simpl.
  - apply sumZ_nonneg. intros s Hs. apply enrich_nonneg; [done|]. by apply Hg.
  - by apply enrich_nonneg.
Qed.

Lemma packing_items_pos it :
  0 < defaultDuration config →
  it ∈ packing_items discovered metrics config → 0 < item_duration it.
Proof.
  intros Hd [(c & g & -> & Hne & Hg)|(s & -> & Hs & _)]%elem_of_packing_items; simpl.
  - apply sumZ_pos; [done|]. intros s Hs. apply enrich_pos; [done|]. by apply Hg.
  - by apply enrich_pos.
Qed.

Lemma sorted_items_bounded :
  0 ≤ defaultDuration config →
  Forall (λ it, 0 ≤ item_duration it
                ≤ max_duration (packing_items discovered metrics config))
         (sort_desc item_duration (packing_items discovered metrics config)).
Proof.
  intros Hd. apply Forall_forall. intros it Hit%sort_desc_elem_of. split.
  - by apply packing_items_nonneg.
  - by apply max_duration_ge.
Qed.
End durations.

(** The buckets behind the shards of a result. *)
Lemma orchestrate_buckets discovered numShards metrics config :
  (1 ≤ numShards)%nat →
  ∃ buckets,
    assign_loop (sort_desc item_duration (packing_items discovered metrics config))
                (replicate numShards empty_bucket) = Some buckets
    ∧ orchestrate discovered numShards metrics config
      = Some {| shards := imap to_shard
                            (filter (λ b, (0 < length (b_specs b))%nat) buckets);
                totalTestTime :=
                  sumZ duration
                    (enrichWithDuration discovered metrics (defaultDuration config)) |}.
Proof.
  intros Hn. rewrite orchestrate_packing.
  destruct (assignToShards_assigned (packing_items discovered metrics config)
              numShards Hn) as (assigned & _ & _ & Hassign).
  rewrite Hassign. eexists. split; [exact Hassign | done].
Qed.

Lemma initial_buckets_spread numShards D :
  0 ≤ D →
  ∀ b b', b ∈ replicate numShards empty_bucket →
          b' ∈ replicate numShards empty_bucket →
          b_testTime b ≤ b_testTime b' + D.
Proof.
  intros HD b b' [-> _]%elem_of_replicate [-> _]%elem_of_replicate. simpl. lia.
Qed.

Lemma elem_of_returned_shards buckets sh :
  sh ∈ imap to_shard (filter (λ b, (0 < length (b_specs b))%nat) buckets) →
  ∃ b, b ∈ buckets ∧ testTime sh = b_testTime b.
Proof.
  intros [i (b & Hb & ->)%list_lookup_imap_Some]%list_elem_of_lookup.
  apply list_elem_of_lookup_2, list_elem_of_filter in Hb as [_ Hb]. by exists b.
Qed.

(** X3. When no duration is looked up on [Object.prototype] alone, the
    default duration is positive and the metrics hold no negative
    duration, [orchestrate] with [numShards >= 1] returns as many shards
    as it can: [numShards] of them, or one per packing item when there are
    fewer items than shards. *)
Theorem orchestrate_shard_count discovered numShards metrics config :
  (1 ≤ numShards)%nat →
  numeric_lookups discovered metrics →
  0 < defaultDuration config →
  (∀ p v, metrics !! p = Some v → 0 ≤ v) →
  ∃ r, orchestrate discovered numShards metrics config = Some r
       ∧ length (shards r)
         = (numShards `min` length (packing_items discovered metrics config))%nat.
Proof.
  intros Hn _ Hd Hm.
  destruct (orchestrate_buckets discovered numShards metrics config Hn)
    as (buckets & Hloop & ->).
  eexists. split; [done|]. cbn [shards]. rewrite length_imap.
  apply assign_loop_count in Hloop.
  - rewrite Hloop, filter_replicate_empty, length_replicate, sort_desc_length.
    simpl. lia.
  - apply Forall_forall. intros it Hit%sort_desc_elem_of. split.
    + pose proof (packing_items_nonempty discovered metrics config) as Hall.
      rewrite Forall_forall in Hall. by apply Hall.
    + by apply (packing_items_pos discovered metrics config Hm).
  - apply Forall_forall. intros b [-> _]%elem_of_replicate. by left.
Qed.

Lemma orchestrate_shard_count_witness :
  let discovered :=
    [spec "a.spec.ts" ["email"]; spec "b.spec.ts" []; spec "c.spec.ts" []] in
  let metrics : gmap string Z := {[ "a.spec.ts" := 0 ]} in
  ∃ r, orchestrate discovered 2 metrics DEFAULT_CONFIG = Some r
       ∧ length (shards r)
         = (2 `min` length (packing_items discovered metrics DEFAULT_CONFIG))%nat.
Proof.
  intros discovered metrics.
  apply (orchestrate_shard_count discovered 2 metrics DEFAULT_CONFIG).
  - lia.
  - repeat (constructor; [intros _; by apply (bool_decide_unpack _)|]). constructor.
  - simpl. lia.
  - intros p v [_ <-]%lookup_singleton_Some. lia.
Defined.



(** X5. When no duration is looked up on [Object.prototype] alone and no
    duration is negative, no returned shard exceeds the average load
    [totalTestTime / numShards] by more than the duration of the longest
    packing item. *)
Theorem orchestrate_makespan discovered numShards metrics config :
  (1 ≤ numShards)%nat →
  numeric_lookups discovered metrics →
  0 ≤ defaultDuration config →
  (∀ p v, metrics !! p = Some v → 0 ≤ v) →
  ∃ r, orchestrate discovered numShards metrics config = Some r
       ∧ ∀ sh, sh ∈ shards r →
           Z.of_nat numShards * testTime sh
           ≤ totalTestTime r
             + Z.of_nat numShards
               * max_duration (packing_items discovered metrics config).
Proof.
  intros Hn _ Hd Hm.
  destruct (orchestrate_buckets discovered numShards metrics config Hn)
    as (buckets & Hloop & ->).
  eexists. split; [done|]. cbn [shards totalTestTime].
  set (items := packing_items discovered metrics config) in *.
  pose proof (assign_loop_spread _ _ _ _
                (sorted_items_bounded discovered metrics config Hm Hd)
                (initial_buckets_spread numShards _ (max_duration_nonneg _))
                Hloop) as Hspread.
  destruct (assign_loop_assigned (sort_desc item_duration items)
              (replicate numShards empty_bucket)) as (assigned & Hlen & Hperm & Hloop').
  { destruct numShards; [lia | done]. }
  rewrite Hloop in Hloop'. injection Hloop' as ->.
  rewrite length_replicate in Hlen.
  rewrite zip_with_replicate_r_eq in * by done.
  intros sh (b & Hb & ->)%elem_of_returned_shards.
  pose proof (sumZ_lower_bound b_testTime
                (flip fill empty_bucket <$> assigned) (b_testTime b)
                (max_duration items) (λ b' Hb', Hspread b b' Hb Hb')) as Hsum.
  rewrite length_fmap, Hlen in Hsum.
  replace (sumZ b_testTime (flip fill empty_bucket <$> assigned))
    with (sumZ duration (enrichWithDuration discovered metrics (defaultDuration config)))
    in Hsum; [done|].
  rewrite <- (packing_items_duration discovered metrics config).
  fold items. rewrite <- (sumZ_perm _ _ _ (sort_desc_perm item_duration items)).
  rewrite <- (sumZ_perm _ _ _ Hperm), sumZ_concat, sumZ_fmap.
  clear. induction assigned as [|its assigned IH]; simpl; [done|].
  rewrite IH, fill_testTime. simpl. lia.
Qed.

Lemma orchestrate_makespan_witness :
  ∃ r, orchestrate balance_specs 2 balance_metrics DEFAULT_CONFIG = Some r
       ∧ ∀ sh, sh ∈ shards r →
           Z.of_nat 2 * testTime sh
           ≤ totalTestTime r
             + Z.of_nat 2
               * max_duration (packing_items balance_specs balance_metrics DEFAULT_CONFIG).
Proof.
  apply (orchestrate_makespan balance_specs 2 balance_metrics DEFAULT_CONFIG).
  - lia.
  - repeat (constructor; [intros _; by apply (bool_decide_unpack _)|]). constructor.
  - simpl. lia.
  - intros p v Hv. unfold balance_metrics in Hv.
    repeat (apply lookup_insert_Some in Hv as [[_ <-]|[_ Hv]]; [lia|]).
    done.
Defined.

(** ** Fixture counts *)

Lemma add_item_fixture it b :
  (size (b_capabilities (add_item it b))
   + (if b_hasStandardSpecs (add_item it b) then 1 else 0)
   ≤ S (size (b_capabilities b) + (if b_hasStandardSpecs b then 1 else 0)))%nat.
Proof.
  simpl. destruct (Js.truthy (capability it)).
  - rewrite size_union_alt, size_singleton.
    assert (size (b_capabilities b ∖ {[default "" (capability it)]})
            ≤ size (b_capabilities b))%nat
      by (apply subseteq_size; set_solver).
    destruct (b_hasStandardSpecs b); lia.
  - destruct (b_hasStandardSpecs b); lia.
Qed.

Lemma fill_fixture_le its b :
  (size (b_capabilities (fill its b))
   + (if b_hasStandardSpecs (fill its b) then 1 else 0)
   ≤ size (b_capabilities b) + (if b_hasStandardSpecs b then 1 else 0) + length its)%nat.
Proof.
  revert b. induction its as [|it its IH]; intros b; [cbn; lia|].
  change (fill (it :: its) b) with (fill its (add_item it b)).
  specialize (IH (add_item it b)). pose proof (add_item_fixture it b).
  cbn [length]. lia.
Qed.

Lemma fill_fixture_pos its b :
  its ≠ [] →
  (1 ≤ size (b_capabilities (fill its b))
       + (if b_hasStandardSpecs (fill its b) then 1 else 0))%nat.
Proof.
  destruct its as [|it its]; [done|]. intros _.
  destruct (Js.truthy (capability it)) eqn:Ht.
  - destruct (capability it) as [c|] eqn:Hc; [|done]. simpl in Ht.
    assert (c ∈ b_capabilities (fill (it :: its) b)) as Hin.
    { apply fill_capabilities. right. exists it. split; [left|]. split; [done|].
      by intros ->. }
    assert (size (b_capabilities (fill (it :: its) b)) ≠ 0%nat); [|lia].
    intros Hz%size_empty_inv. set_solver.
  - rewrite fill_hasStandardSpecs. cbn [existsb]. rewrite Ht. cbn.
    rewrite orb_true_r. lia.
Qed.

Lemma length_concat_nonempty {A} (ls : list (list A)) :
  Forall (λ l, l ≠ []) ls → (length ls ≤ length (concat ls))%nat.
Proof.
  induction 1 as [|l ls Hl _ IH]; simpl; [done|].
  rewrite length_app. destruct l; [done|]. simpl. lia.
Qed.

(** X6. For every input with [numShards >= 1], every returned shard counts
    at least one fixture and at most as many fixtures as it has specs;
    [fixtureCount] is the number of listed capabilities or one more; and
    the empty string is never listed as a capability. *)
Theorem fixtureCount_bounds discovered numShards metrics config :
  (1 ≤ numShards)%nat →
  ∃ r, orchestrate discovered numShards metrics config = Some r
       ∧ Forall (λ sh,
           (1 ≤ fixtureCount sh ≤ length (specs sh))%nat
           ∧ (length (shard_capabilities sh) ≤ fixtureCount sh
              ≤ S (length (shard_capabilities sh)))%nat
           ∧ "" ∉ shard_capabilities sh)
         (shards r).
Proof.
  intros Hn.
  destruct (orchestrate_shape discovered numShards metrics config Hn)
    as (assigned & Hperm & Hne & _ & Hres).
  eexists. split; [exact Hres|]. cbn [shards].
  apply Forall_forall. intros sh (i & its & Hi & ->)%elem_of_shards.
  apply list_elem_of_lookup_2 in Hi.
  assert (Forall (λ it, item_specs it ≠ []) its) as Hits.
  { apply Forall_forall. intros it Hit.
    pose proof (packing_items_nonempty discovered metrics config) as Hall.
    rewrite Forall_forall in Hall. apply Hall. rewrite <- Hperm.
    apply elem_of_concat. by exists its. }
  rewrite Forall_forall in Hne. pose proof (Hne its Hi) as Hpos.
  destruct (shard_capabilities_sorted i (bucket_of its)) as (_ & _ & ->).
  cbn [fixtureCount specs to_shard]. split_and!.
  - apply fill_fixture_pos. intros ->. simpl in Hpos. lia.
  - pose proof (fill_fixture_le its empty_bucket) as Hle.
    change (size (b_capabilities empty_bucket)) with (size (∅ : gset string)) in Hle.
    change (b_hasStandardSpecs empty_bucket) with false in Hle.
    rewrite size_empty in Hle.
    rewrite bucket_of_specs.
    pose proof (length_concat_nonempty (item_specs <$> its)) as Hlen.
    rewrite length_fmap in Hlen. unfold bucket_of.
    assert (Forall (λ l : list string, l ≠ []) (item_specs <$> its)) as Hall'
      by (by apply Forall_fmap).
    specialize (Hlen Hall'). lia.
  - lia.
  - destruct (b_hasStandardSpecs (bucket_of its)); lia.
  - rewrite shard_capabilities_elem_of.
    intros [Hin|(it & _ & _ & Hc)]%fill_capabilities; [set_solver | done].
Qed.

Lemma fixtureCount_bounds_witness :
  ∃ r, orchestrate [spec "a.spec.ts" [""; "email"]; spec "b.spec.ts" ["email"];
                    spec "c.spec.ts" []] 2 ∅ DEFAULT_CONFIG = Some r
       ∧ Forall (λ sh,
           (1 ≤ fixtureCount sh ≤ length (specs sh))%nat
           ∧ (length (shard_capabilities sh) ≤ fixtureCount sh
              ≤ S (length (shard_capabilities sh)))%nat
           ∧ "" ∉ shard_capabilities sh)
         (shards r).
Proof.
  apply (fixtureCount_bounds
           [spec "a.spec.ts" [""; "email"]; spec "b.spec.ts" ["email"];
            spec "c.spec.ts" []] 2 ∅ DEFAULT_CONFIG).
  lia.
Defined.

(** ** Groups and their split *)

Lemma filter_filter_ext {A} (P Q R : A → Prop)
    `{!∀ x, Decision (P x)} `{!∀ x, Decision (Q x)} `{!∀ x, Decision (R x)}
    (l : list A) :
  (∀ x, R x ↔ P x ∧ Q x) → filter P (filter Q l) = filter R l.
Proof.
  intros Hiff. induction l as [|x l IH]; [done|].
  rewrite (filter_cons Q), (filter_cons R).
  destruct (decide (Q x)), (decide (R x)); rewrite ?filter_cons, ?IH.
  - rewrite decide_True; [done|]. naive_solver.
  - rewrite decide_False; [done|]. naive_solver.
  - naive_solver.
  - done.
Qed.

(** A key is added to the groups when its capability is met for the first
    time. *)
Lemma group_keys_fold l acc :
  (fold_left group_step l acc).1.*1
  = acc.1.*1 ++ filter (λ c, c ∉ acc.1.*1) (first_occurrences (omap first_cap l)).
Proof.
  revert acc. induction l as [|s l IH]; intros acc.
  - cbn [fold_left]. csimpl. by rewrite filter_nil, (right_id_L [] (++)).
  - cbn [fold_left]. rewrite IH. unfold group_step. csimpl.
    assert (first_cap s = head (sd_capabilities s)) as -> by done.
    destruct (sd_capabilities s) as [|c caps]; csimpl; [done|].
    rewrite groups_push_keys, filter_cons. case_decide as Hc.
    + rewrite decide_False by (by intros ?).
      f_equal. symmetry. apply filter_filter_ext. intros x. split; [|naive_solver].
      intros Hx. split; [done|]. by intros ->.
    + rewrite decide_True by done. rewrite <- (assoc_L (++)). csimpl.
      do 2 f_equal. symmetry. apply filter_filter_ext. intros x.
      rewrite elem_of_app, list_elem_of_singleton. naive_solver.
Qed.

(** X7. [groupByCapability] files every spec with a capability under its
    first capability and every other spec as standard: the keys of the
    groups are the first capabilities of the specs, each once, in the order
    in which they first occur; the group of [c] is never empty and consists
    of the specs whose first capability is [c], in input order; and the
    standard specs are those without capability, in input order. *)
Theorem groupByCapability_groups (l : list SpecWithDuration) :
  (groupByCapability l).1.*1 = first_occurrences (omap first_cap l)
  ∧ (∀ c ms, (c, ms) ∈ (groupByCapability l).1 →
             ms ≠ [] ∧ ms = filter (λ s, first_cap s = Some c) l)
  ∧ (groupByCapability l).2 = filter (λ s, first_cap s = None) l.
Proof.
  destruct (groupByCapability_grouped l) as [_ Hmem _ Hstd _]. split_and!; [|done..].
  unfold groupByCapability. rewrite group_keys_fold. simpl.
  induction (first_occurrences _) as [|c k IH]; [done|].
  rewrite filter_cons, decide_True by set_solver. by rewrite IH.
Qed.















(** ** The split, in the arithmetic of the integers *)




(** * The orchestrator on doubles *)

(** ** Integers among the doubles *)

Example integers_as_doubles :
  of_integer <$> [0; 1; 60000; 9007199254740991; 9007199254740993]
  = [0; 1; 60000; 9007199254740991; 9007199254740992]%float
  ∧ to_integer <$> [0; 1; 60000; 9007199254740991; 0.5; -1; infinity; nan]%float
    = [0; 1; 60000; 9007199254740991; 0; 0; 0; 0].
Proof. split; reflexivity. Qed.

Lemma digits2_pos_bounds p :
  2 ^ (Z.pos (digits2_pos p) - 1) ≤ Z.pos p < 2 ^ Z.pos (digits2_pos p).
Proof.
  induction p as [p IH|p IH|]; cbn [digits2_pos]; [| |by split].
  - rewrite Pos2Z.inj_succ.
    replace (Z.succ (Z.pos (digits2_pos p)) - 1) with (Z.succ (Z.pos (digits2_pos p) - 1)) by lia.
    rewrite !Z.pow_succ_r by lia. lia.
  - rewrite Pos2Z.inj_succ.
    replace (Z.succ (Z.pos (digits2_pos p)) - 1) with (Z.succ (Z.pos (digits2_pos p) - 1)) by lia.
    rewrite !Z.pow_succ_r by lia. lia.
Qed.

Lemma digits_unique (n d d' : Z) :
  2 ^ (d - 1) ≤ n < 2 ^ d → 2 ^ (d' - 1) ≤ n < 2 ^ d' → 0 < d → 0 < d' → d = d'.
Proof.
  intros [H1 H2] [H3 H4] Hd Hd'.
  destruct (Z.lt_trichotomy d d') as [Hlt|[->|Hgt]]; [|done|].
  - assert (2 ^ d ≤ 2 ^ (d' - 1)) by (apply Z.pow_le_mono_r; lia). lia.
  - assert (2 ^ d' ≤ 2 ^ (d - 1)) by (apply Z.pow_le_mono_r; lia). lia.
Qed.

Lemma digits2_pos_shift p q k :
  0 ≤ k → Z.pos q = Z.pos p * 2 ^ k →
  Z.pos (digits2_pos q) = Z.pos (digits2_pos p) + k.
Proof.
  intros Hk Hq.
  pose proof (digits2_pos_bounds p) as [Hp1 Hp2].
  apply (digits_unique (Z.pos q)); [apply digits2_pos_bounds| |lia..].
  rewrite Hq.
  replace (Z.pos (digits2_pos p) + k - 1) with (Z.pos (digits2_pos p) - 1 + k) by lia.
  rewrite !Z.pow_add_r by lia.
  assert (0 < 2 ^ k) by (apply Z.pow_pos_nonneg; lia). nia.
Qed.

Lemma pos_iter_xO p j : Z.pos (Pos.iter xO p j) = Z.pos p * 2 ^ Z.pos j.
Proof.
  induction j as [|j IH] using Pos.peano_ind.
  - simpl. lia.
  - rewrite Pos.iter_succ, Pos2Z.inj_succ, Z.pow_succ_r by lia. lia.
Qed.

Lemma iter_pos_nat {A} (f : A → A) n x :
  SpecFloat.iter_pos f n x = Nat.iter (Pos.to_nat n) f x.
Proof.
  revert x. induction n as [n IH|n IH|]; intros x; cbn [SpecFloat.iter_pos]; [| |done].
  - rewrite !IH, Pos2Nat.inj_xI, <- Nat.iter_add, <- Nat.iter_succ_r. f_equal. lia.
  - rewrite !IH, Pos2Nat.inj_xO, <- Nat.iter_add. f_equal. lia.
Qed.

Lemma shr_1_exact (k : nat) (m : positive) (q : Z) :
  q = Z.pos m * 2 ^ Z.of_nat k →
  Nat.iter k shr_1 {| shr_m := q; shr_r := false; shr_s := false |}
  = {| shr_m := Z.pos m; shr_r := false; shr_s := false |}.
Proof.
  revert q. induction k as [|k IH]; intros q Hq.
  - simpl in *. f_equal. lia.
  - rewrite Nat.iter_succ_r.
    rewrite Nat2Z.inj_succ, Z.pow_succ_r in Hq by lia.
    destruct q as [|[q|q|]|]; try lia.
    cbn [shr_1 orb]. apply IH. lia.
Qed.

Lemma fexp_digits d : 0 < d → fexp prec emax d = d - 53.
Proof. unfold fexp, emin, prec, emax. lia. Qed.

(** Rounding a mantissa that is [m], of 53 digits, followed by [n] zero
    digits: the zero digits are dropped and nothing is rounded. *)
Lemma binary_round_aux_exact (M m : positive) (n d : Z) :
  Z.pos M = Z.pos m * 2 ^ n → 0 ≤ n →
  Z.pos (digits2_pos m) = 53 → 0 < d ≤ 1024 →
  binary_round_aux prec emax false (Z.pos M) (d - 53 - n) loc_Exact
  = S754_finite false m (d - 53).
Proof.
  intros HM Hn Hm Hd.
  assert (shr_fexp prec emax (Z.pos M) (d - 53 - n) loc_Exact
          = ({| shr_m := Z.pos m; shr_r := false; shr_s := false |}, d - 53)) as Hshr.
  { unfold shr_fexp, shr_record_of_loc, Zdigits2.
    rewrite (digits2_pos_shift m M n Hn HM), Hm.
    replace (53 + n + (d - 53 - n)) with d by lia.
    rewrite fexp_digits by lia.
    replace (d - 53 - (d - 53 - n)) with n by lia.
    destruct n as [|j|j]; [| |lia]; cbn [shr].
    - f_equal; [|lia]. f_equal. rewrite HM. simpl. lia.
    - f_equal; [|lia]. rewrite iter_pos_nat. apply shr_1_exact.
      by rewrite positive_nat_Z. }
  assert (shr_fexp prec emax (Z.pos m) (d - 53) loc_Exact
          = ({| shr_m := Z.pos m; shr_r := false; shr_s := false |}, d - 53)) as Hshr'.
  { unfold shr_fexp, shr_record_of_loc, Zdigits2. rewrite Hm.
    replace (53 + (d - 53)) with d by lia.
    rewrite fexp_digits by lia. by rewrite Z.sub_diag. }
  unfold binary_round_aux. rewrite Hshr.
  cbn [shr_m loc_of_shr_record round_nearest_even]. rewrite Hshr'. cbn [shr_m].
  destruct (Z.leb_spec (d - 53) (emax - prec)) as [|Hgt]; [done|].
  unfold emax, prec in Hgt. lia.
Qed.

Lemma canonical_digits p :
  Z.pos (digits2_pos p) ≤ 53 →
  Z.pos (Z.to_pos (Z.pos p * 2 ^ (53 - Z.pos (digits2_pos p))))
  = Z.pos p * 2 ^ (53 - Z.pos (digits2_pos p))
  ∧ Z.pos (digits2_pos (Z.to_pos (Z.pos p * 2 ^ (53 - Z.pos (digits2_pos p))))) = 53.
Proof.
  intros Hd.
  assert (0 < 2 ^ (53 - Z.pos (digits2_pos p))) by (apply Z.pow_pos_nonneg; lia).
  assert (Z.pos (Z.to_pos (Z.pos p * 2 ^ (53 - Z.pos (digits2_pos p))))
          = Z.pos p * 2 ^ (53 - Z.pos (digits2_pos p))) as Heq
    by (rewrite Z2Pos.id; lia).
  split; [done|].
  rewrite (digits2_pos_shift p _ (53 - Z.pos (digits2_pos p))); [lia|lia|done].
Qed.

(** Rounding [p * 2^k] at the exponent [-k] gives the double of [p]. *)
Lemma binary_round_integer (M p : positive) (k : Z) :
  Z.pos M = Z.pos p * 2 ^ k → 0 ≤ k → Z.pos (digits2_pos p) ≤ 53 →
  binary_round prec emax false M (- k) = canonical p.
Proof.
  intros HM Hk Hd. unfold binary_round, canonical.
  destruct (canonical_digits p Hd) as [Hc Hcd].
  set (d := Z.pos (digits2_pos p)) in *.
  set (mc := Z.to_pos (Z.pos p * 2 ^ (53 - d))) in *.
  rewrite (digits2_pos_shift p M k Hk HM). fold d.
  replace (d + k + - k) with d by lia.
  rewrite fexp_digits by lia.
  unfold shl_align.
  destruct (d - 53 - - k) as [|j|j] eqn:Hj.
  - replace (- k) with (d - 53 - 0) by lia.
    apply binary_round_aux_exact; [|lia|done|lia].
    rewrite HM, Hc. replace k with (53 - d) by lia. lia.
  - replace (- k) with (d - 53 - Z.pos j) by lia.
    apply binary_round_aux_exact; [|lia|done|lia].
    rewrite HM, Hc, <- Z.mul_assoc, <- Z.pow_add_r by lia.
    replace (53 - d + Z.pos j) with k by lia. done.
  - replace (d - 53) with (d - 53 - 0) at 1 by lia.
    apply binary_round_aux_exact; [|lia|done|lia].
    rewrite pos_iter_xO, HM, Hc, <- Z.mul_assoc, <- Z.pow_add_r by lia.
    rewrite Z.pow_0_r. replace (k + Z.pos j) with (53 - d) by lia. lia.
Qed.

Lemma binary_normalize_integer p :
  Z.pos (digits2_pos p) ≤ 53 →
  binary_normalize prec emax (Z.pos p) 0 false = canonical p.
Proof.
  intros Hd. cbn [binary_normalize]. change 0 with (- 0).
  apply binary_round_integer; [simpl; lia | lia | done].
Qed.

Lemma canonical_valid p :
  Z.pos (digits2_pos p) ≤ 53 → valid_binary (canonical p) = true.
Proof.
  intros Hd. destruct (canonical_digits p Hd) as [Hc Hcd].
  unfold canonical. cbn [SpecFloat.valid_binary]. unfold bounded, canonical_mantissa.
  rewrite Hcd.
  replace (53 + (Z.pos (digits2_pos p) - 53)) with (Z.pos (digits2_pos p)) by lia.
  rewrite fexp_digits by lia. rewrite Z.eqb_refl. cbn [andb].
  apply Z.leb_le. unfold emax, prec. lia.
Qed.

Lemma shl_align_value m e e' :
  e' ≤ e → Z.pos (shl_align m e e').1 = Z.pos m * 2 ^ (e - e').
Proof.
  intros He. unfold shl_align. destruct (e' - e) as [|j|j] eqn:Hj; [|lia|]; cbn [fst].
  - replace (e - e') with 0 by lia. simpl. lia.
  - rewrite pos_iter_xO. f_equal. f_equal. lia.
Qed.

Lemma SFadd_canonical pa pb :
  Z.pos (digits2_pos (pa + pb)) ≤ 53 →
  Z.pos (digits2_pos pa) ≤ 53 → Z.pos (digits2_pos pb) ≤ 53 →
  SF64add (canonical pa) (canonical pb) = canonical (pa + pb).
Proof.
  intros Hab Ha Hb.
  destruct (canonical_digits pa Ha) as [Hca _].
  destruct (canonical_digits pb Hb) as [Hcb _].
  unfold SF64add, canonical at 1 2. cbn [SFadd cond_Zopp].
  set (da := Z.pos (digits2_pos pa)) in *. set (db := Z.pos (digits2_pos pb)) in *.
  set (ez := Z.min (da - 53) (db - 53)).
  pose proof (shl_align_value (Z.to_pos (Z.pos pa * 2 ^ (53 - da))) (da - 53) ez
                ltac:(lia)) as HA.
  pose proof (shl_align_value (Z.to_pos (Z.pos pb * 2 ^ (53 - db))) (db - 53) ez
                ltac:(lia)) as HB.
  rewrite Hca, <- Z.mul_assoc, <- Z.pow_add_r in HA by lia.
  rewrite Hcb, <- Z.mul_assoc, <- Z.pow_add_r in HB by lia.
  replace (53 - da + (da - 53 - ez)) with (- ez) in HA by lia.
  replace (53 - db + (db - 53 - ez)) with (- ez) in HB by lia.
  cbn [Z.add binary_normalize].
  replace ez with (- - ez) at 3 by lia.
  apply binary_round_integer; [|lia|done].
  rewrite Pos2Z.inj_add, HA, HB. lia.
Qed.

Lemma digits2_pos_safe p : Z.pos p ≤ MAX_SAFE_INTEGER → Z.pos (digits2_pos p) ≤ 53.
Proof.
  unfold MAX_SAFE_INTEGER. intros Hp.
  pose proof (digits2_pos_bounds p) as [Hlo _].
  destruct (Z_le_gt_dec (Z.pos (digits2_pos p)) 53) as [|Hgt]; [done|].
  assert (2 ^ 53 ≤ 2 ^ (Z.pos (digits2_pos p) - 1)) by (apply Z.pow_le_mono_r; lia).
  lia.
Qed.

Lemma Prim2SF_of_integer p :
  Z.pos p ≤ MAX_SAFE_INTEGER → Prim2SF (of_integer (Z.pos p)) = canonical p.
Proof.
  intros Hp%digits2_pos_safe. unfold of_integer.
  rewrite binary_normalize_integer by done.
  apply Prim2SF_SF2Prim. by apply canonical_valid.
Qed.

(** Adding the doubles of two integers is exact when the sum is a safe
    integer. *)
Lemma add_of_integer a b :
  0 ≤ a → 0 ≤ b → a + b ≤ MAX_SAFE_INTEGER →
  (of_integer a + of_integer b)%float = of_integer (a + b).
Proof.
  intros Ha Hb Hab. apply Prim2SF_inj. rewrite add_spec.
  destruct a as [|pa|pa]; [|destruct b as [|pb|pb]|]; try lia.
  - destruct b as [|pb|pb]; [done| |lia].
    rewrite Z.add_0_l, Prim2SF_of_integer by lia. done.
  - rewrite Z.add_0_r, Prim2SF_of_integer by lia. done.
  - change (Z.pos pa + Z.pos pb) with (Z.pos (pa + pb)) in *.
    rewrite !Prim2SF_of_integer by lia.
    apply SFadd_canonical; apply digits2_pos_safe; lia.
Qed.

Lemma to_integer_of_integer n :
  0 ≤ n ≤ MAX_SAFE_INTEGER → to_integer (of_integer n) = n.
Proof.
  intros [Hn Hmax]. destruct n as [|p|p]; [done| |lia].
  unfold to_integer. rewrite Prim2SF_of_integer by done. unfold canonical.
  pose proof (digits2_pos_safe p Hmax) as Hd.
  destruct (canonical_digits p Hd) as [-> _].
  set (d := Z.pos (digits2_pos p)) in *.
  destruct (Z.leb_spec 0 (d - 53)).
  - replace (d - 53) with 0 by lia. replace (53 - d) with 0 by lia. simpl. lia.
  - replace (- (d - 53)) with (53 - d) by lia.
    apply Z.div_mul. apply Z.pow_nonzero; lia.
Qed.

Lemma safe_integer_to_integer x :
  safe_integer x →
  0 ≤ to_integer x ≤ MAX_SAFE_INTEGER ∧ x = of_integer (to_integer x).
Proof. intros (n & Hn & ->). by rewrite to_integer_of_integer. Qed.

Lemma add_safe_integer x y :
  safe_integer x → safe_integer y →
  to_integer x + to_integer y ≤ MAX_SAFE_INTEGER →
  safe_integer (x + y)%float
  ∧ to_integer (x + y)%float = to_integer x + to_integer y.
Proof.
  intros (a & Ha & ->) (b & Hb & ->).
  rewrite !to_integer_of_integer by done. intros Hab.
  rewrite add_of_integer by lia.
  split; [|apply to_integer_of_integer; lia].
  exists (a + b). split; [lia|done].
Qed.

Lemma safe_integer_zero : safe_integer 0.
Proof. exists 0. split; [unfold MAX_SAFE_INTEGER; lia | reflexivity]. Qed.

Lemma safe_integer_nonneg x : safe_integer x → 0 ≤ to_integer x.
Proof. intros [[? _] _]%safe_integer_to_integer. done. Qed.

Section safe_sums.
Context {A : Type} (f : A → float).

Lemma sumZ_safe_nonneg l :
  Forall (λ x, safe_integer (f x)) l → 0 ≤ sumZ (λ x, to_integer (f x)) l.
Proof.
  intros Hall. apply sumZ_nonneg. intros x Hx.
  apply safe_integer_nonneg. rewrite Forall_forall in Hall. by apply Hall.
Qed.

Lemma fold_add_safe l acc :
  safe_integer acc → Forall (λ x, safe_integer (f x)) l →
  to_integer acc + sumZ (λ x, to_integer (f x)) l ≤ MAX_SAFE_INTEGER →
  safe_integer (fold_left (λ sum x, (sum + f x)%float) l acc)
  ∧ to_integer (fold_left (λ sum x, (sum + f x)%float) l acc)
    = to_integer acc + sumZ (λ x, to_integer (f x)) l.
Proof.
  revert acc. induction l as [|x l IH]; intros acc Hacc Hall Hsum; simpl in *.
  - split; [done|lia].
  - apply Forall_cons in Hall as [Hx Hall].
    pose proof (sumZ_safe_nonneg l Hall).
    pose proof (safe_integer_nonneg _ Hx).
    destruct (add_safe_integer acc (f x)) as [Hs Hv]; [done|done|lia|].
    destruct (IH (acc + f x)%float) as [Hs' Hv']; [done|done|lia|].
    split; [done|]. rewrite Hv', Hv. lia.
Qed.

Lemma fold_add_safe_zero l :
  Forall (λ x, safe_integer (f x)) l →
  sumZ (λ x, to_integer (f x)) l ≤ MAX_SAFE_INTEGER →
  safe_integer (fold_left (λ sum x, (sum + f x)%float) l 0%float)
  ∧ to_integer (fold_left (λ sum x, (sum + f x)%float) l 0%float)
    = sumZ (λ x, to_integer (f x)) l.
Proof.
  intros Hall Hsum.
  destruct (fold_add_safe l 0%float safe_integer_zero Hall) as [Hs Hv]; [done|].
  split; [done|]. by rewrite Hv.
Qed.

Lemma sumZ_safe_le l x :
  Forall (λ x, safe_integer (f x)) l → x ∈ l →
  to_integer (f x) ≤ sumZ (λ x, to_integer (f x)) l.
Proof.
  intros Hall Hx. apply (sumZ_le_total (λ x, to_integer (f x))); [|done].
  intros y Hy. apply safe_integer_nonneg. rewrite Forall_forall in Hall. by apply Hall.
Qed.

End safe_sums.

(** Two doubles that hold the same safe integer are the same double. *)
Lemma safe_integer_eq x y :
  safe_integer x → safe_integer y → to_integer x = to_integer y → x = y.
Proof.
  intros [_ Ex]%safe_integer_to_integer [_ Ey]%safe_integer_to_integer E.
  by rewrite Ex, Ey, E.
Qed.

(** ** The paths of a run *)

Section runtime_sort.
Context {A : Type} (compareFn : A → A → float).

Lemma runtime_insert_perm x l : Runtime.insert compareFn x l ≡ₚ x :: l.
Proof.
  induction l as [|y l IH]; simpl; [done|].
  destruct (PrimFloat.ltb _ _); [|done]. rewrite IH. apply Permutation_swap.
Qed.

Lemma runtime_sort_perm l : Runtime.sort compareFn l ≡ₚ l.
Proof.
  induction l as [|x l IH]; simpl; [done|].
  by rewrite runtime_insert_perm, IH.
Qed.

End runtime_sort.

Lemma runtime_groups_push c x (g : Runtime.Groups) :
  concat (Runtime.groups_push c x g).*2 ≡ₚ x :: concat g.*2.
Proof.
  induction g as [|[c' ms] g IH]; simpl; [done|].
  destruct (decide (c' = c)); csimpl.
  - rewrite <- (assoc_L (++)). simpl.
    by rewrite <- Permutation_middle.
  - rewrite IH. by rewrite <- Permutation_middle.
Qed.

Lemma runtime_group_step acc x :
  concat (Runtime.group_step acc x).1.*2 ++ (Runtime.group_step acc x).2
  ≡ₚ x :: concat acc.1.*2 ++ acc.2.
Proof.
  unfold Runtime.group_step. destruct (Runtime.sd_capabilities x); simpl.
  - rewrite (assoc_L (++)). by rewrite <- Permutation_cons_append.
  - by rewrite runtime_groups_push.
Qed.

Lemma runtime_groupByCapability l :
  concat (Runtime.groupByCapability l).1.*2 ++ (Runtime.groupByCapability l).2 ≡ₚ l.
Proof.
  unfold Runtime.groupByCapability.
  assert (∀ acc, concat (fold_left Runtime.group_step l acc).1.*2
                 ++ (fold_left Runtime.group_step l acc).2
                 ≡ₚ (concat acc.1.*2 ++ acc.2) ++ l) as H.
  { induction l as [|x l IH]; intros acc; simpl; [by rewrite (right_id_L [] (++))|].
    rewrite IH, runtime_group_step. by rewrite <- Permutation_middle. }
  by rewrite H.
Qed.

Lemma runtime_split_step target sg t x :
  sg ≠ [] →
  (Runtime.split_step target (sg, t) x).1 ≠ []
  ∧ concat (Runtime.split_step target (sg, t) x).1 = concat sg ++ [x].
Proof.
  intros Hne. unfold Runtime.split_step.
  destruct (_ && _); cbn [fst].
  - rewrite snoc_last_index, alter_snoc. split; [by destruct sg|].
    by rewrite concat_app.
  - destruct (exists_last Hne) as (sg' & g & ->).
    rewrite snoc_last_index, alter_snoc. split; [by destruct sg'|].
    rewrite !concat_app. simpl. by rewrite !(right_id_L [] (++)), (assoc_L (++)).
Qed.

Lemma runtime_split_loop target l st :
  st.1 ≠ [] →
  concat (fold_left (Runtime.split_step target) l st).1 = concat st.1 ++ l.
Proof.
  revert st. induction l as [|x l IH]; intros [sg t] Hne; cbn [fold_left fst] in *.
  { by rewrite (right_id_L [] (++)). }
  destruct (runtime_split_step target sg t x Hne) as [Hne' Heq].
  rewrite IH by done. rewrite Heq. by rewrite <- (assoc_L (++)).
Qed.

Lemma fmap_concat_list {A B} (f : A → B) (ls : list (list A)) :
  f <$> concat ls = concat ((λ l : list A, f <$> l) <$> ls).
Proof. induction ls as [|l ls IH]; csimpl; [done|]. by rewrite fmap_app, IH. Qed.

Lemma runtime_make_item_specs c (sgs : list (list Runtime.SpecWithDuration)) :
  concat (Runtime.item_specs <$> (Runtime.make_item c <$> sgs))
  = Runtime.sd_path <$> concat sgs.
Proof. rewrite fmap_concat_list, <- list_fmap_compose. done. Qed.

Lemma runtime_split_group maxGroupDuration c ms :
  concat (Runtime.item_specs <$> Runtime.split_group maxGroupDuration (c, ms))
  ≡ₚ Runtime.sd_path <$> ms.
Proof.
  unfold Runtime.split_group.
  set (sorted := Runtime.sort _ ms).
  assert (sorted ≡ₚ ms) as Hsorted by apply runtime_sort_perm.
  destruct (_ && _).
  - rewrite runtime_make_item_specs, runtime_split_loop by done. simpl.
    by rewrite Hsorted.
  - simpl. by rewrite (right_id_L [] (++)), Hsorted.
Qed.

Lemma runtime_splitLargeGroups (groups : Runtime.Groups) maxGroupDuration :
  concat (Runtime.item_specs <$> Runtime.splitLargeGroups groups maxGroupDuration)
  ≡ₚ Runtime.sd_path <$> concat groups.*2.
Proof.
  unfold Runtime.splitLargeGroups.
  induction groups as [|[c ms] groups IH]; [done|].
  cbn [flat_map]. rewrite fmap_app, concat_app, IH, runtime_split_group.
  csimpl. by rewrite fmap_app.
Qed.

Lemma runtime_lightest_from_lt buckets min minTime i :
  (min < i)%nat →
  (Runtime.lightest_from min minTime i buckets < i + length buckets)%nat.
Proof.
  revert min minTime i.
  induction buckets as [|b buckets IH]; intros min minTime i Hlt; simpl; [lia|].
  destruct (PrimFloat.ltb _ _).
  - specialize (IH i (Runtime.b_testTime b) (S i)). lia.
  - specialize (IH min minTime (S i)). lia.
Qed.

Lemma runtime_lightest buckets :
  buckets ≠ [] →
  ∃ i, Runtime.lightest buckets = Some i ∧ (i < length buckets)%nat.
Proof.
  destruct buckets as [|b rest]; [done|]. intros _. eexists. split; [done|].
  pose proof (runtime_lightest_from_lt rest 0 (Runtime.b_testTime b) 1).
  simpl. lia.
Qed.

Lemma runtime_add_item_specs item i buckets :
  (i < length buckets)%nat →
  concat (Runtime.b_specs <$> alter (Runtime.add_item item) i buckets)
  ≡ₚ concat (Runtime.b_specs <$> buckets) ++ Runtime.item_specs item.
Proof.
  revert i. induction buckets as [|b buckets IH]; intros i Hi; simpl in Hi; [lia|].
  destruct i as [|i]; csimpl.
  - rewrite <- !(assoc_L (++)). f_equiv. apply Permutation_app_comm.
  - rewrite IH by lia. by rewrite (assoc_L (++)).
Qed.

Lemma runtime_assign_loop items buckets :
  buckets ≠ [] →
  ∃ assigned,
    Runtime.assign_loop items buckets = Some assigned
    ∧ concat (Runtime.b_specs <$> assigned)
      ≡ₚ concat (Runtime.b_specs <$> buckets) ++ concat (Runtime.item_specs <$> items).
Proof.
  revert buckets. induction items as [|item items IH]; intros buckets Hne.
  - exists buckets. split; [done|]. csimpl. by rewrite (right_id_L [] (++)).
  - destruct (runtime_lightest buckets Hne) as (i & Hi & Hlt).
    destruct (IH (alter (Runtime.add_item item) i buckets)) as (assigned & Hloop & Hperm).
    { intros E. apply (f_equal length) in E. rewrite length_alter in E.
      destruct buckets; done. }
    exists assigned. split.
    + cbn [Runtime.assign_loop]. unfold Runtime.assign_step. rewrite Hi. done.
    + rewrite Hperm, runtime_add_item_specs by done. csimpl.
      by rewrite (assoc_L (++)).
Qed.

Lemma runtime_shards_specs (buckets : list Runtime.Bucket) :
  concat (Runtime.specs <$>
            imap Runtime.to_shard
              (filter (λ b, (0 < length (Runtime.b_specs b))%nat) buckets))
  = concat (Runtime.b_specs <$> buckets).
Proof.
  assert (∀ (l : list Runtime.Bucket) f,
            (∀ i b, Runtime.specs (f i b) = Runtime.b_specs b) →
            Runtime.specs <$> imap f l = Runtime.b_specs <$> l) as Himap.
  { induction l as [|b l IH]; intros f Hf; csimpl; [done|].
    rewrite Hf. f_equal. apply IH. intros i b'. apply Hf. }
  rewrite Himap by done.
  induction buckets as [|b buckets IH]; [done|].
  rewrite filter_cons. destruct b as [[|p ps] ? ? ?]; csimpl; by rewrite IH.
Qed.

(** The durations of a run are numbers when no looked-up path is found on
    [Object.prototype] alone. *)
Lemma runtime_numeric discovered (metrics : gmap string float) d :
  Forall (λ s, metrics !! path s = None → path s ∉ Distribute.Object_prototype)
         discovered →
  ∃ enriched,
    mapM Runtime.numeric (Runtime.enrichWithDuration Runtime.falsy discovered metrics d)
    = Some enriched
    ∧ Runtime.sd_path <$> enriched = path <$> discovered.
Proof.
  unfold Runtime.enrichWithDuration.
  induction 1 as [|s discovered Hs _ (enriched & Hm & Hp)]; [by exists []|].
  assert (∃ x, Runtime.or_default Runtime.falsy (Runtime.get metrics (path s)) d
               = Runtime.Number x) as [x Hx].
  { unfold Runtime.get. destruct (metrics !! path s) as [x|]; simpl.
    - destruct (Runtime.falsy x); by eexists.
    - rewrite bool_decide_eq_false_2 by auto. by eexists. }
  exists ({| Runtime.sd_path := path s; Runtime.sd_capabilities := capabilities s;
             Runtime.duration := x |} :: enriched).
  split; [|csimpl; by rewrite Hp].
  rewrite fmap_cons. cbn [mapM]. rewrite Hm. unfold Runtime.numeric.
  cbn [Runtime.e_duration Runtime.e_path Runtime.e_capabilities].
  by rewrite Hx.
Qed.

(** ** The sums of a run *)

(** The sums of a run whose durations are the safe integers of [members]. *)

Section runtime_sums.
Context (members : list Runtime.SpecWithDuration).
Context (Hsafe : Forall (λ s, safe_integer (Runtime.duration s)) members).
Context (Htotal : sumZ (λ s, to_integer (Runtime.duration s)) members ≤ MAX_SAFE_INTEGER).

Lemma runtime_sublist_safe l :
  l ⊆+ members →
  Forall (λ s, safe_integer (Runtime.duration s)) l
  ∧ sumZ (λ s, to_integer (Runtime.duration s)) l ≤ MAX_SAFE_INTEGER.
Proof.
  intros (k & Hk)%submseteq_Permutation.
  rewrite Hk in Hsafe. apply Forall_app in Hsafe as [Hl Hk'].
  split; [done|].
  rewrite (sumZ_perm _ _ _ Hk), sumZ_app in Htotal.
  pose proof (sumZ_safe_nonneg Runtime.duration k Hk'). lia.
Qed.

Lemma runtime_make_item c l :
  l ⊆+ members →
  exact_item (Runtime.make_item c l)
  ∧ to_integer (Runtime.item_duration (Runtime.make_item c l))
    = sumZ (λ s, to_integer (Runtime.duration s)) l.
Proof.
  intros [Hl Hsum]%runtime_sublist_safe.
  destruct (fold_add_safe_zero Runtime.duration l Hl Hsum) as [Hs Hv].
  split; [|done]. split; [done|].
  cbn [Runtime.make_item Runtime.item_specs Runtime.item_duration].
  intros ->%fmap_nil_inv. done.
Qed.

Lemma runtime_subgroup_safe (sgs : list (list Runtime.SpecWithDuration)) sg :
  concat sgs ⊆+ members → sg ∈ sgs → sg ⊆+ members.
Proof.
  intros Hsub Hsg. etrans; [|exact Hsub]. clear -Hsg.
  induction Hsg as [sg sgs|sg sg' sgs _ IH]; simpl.
  - by apply submseteq_inserts_r.
  - by apply submseteq_inserts_l.
Qed.

Lemma runtime_make_items c (sgs : list (list Runtime.SpecWithDuration)) :
  concat sgs ⊆+ members →
  Forall exact_item (Runtime.make_item c <$> sgs)
  ∧ sumZ (λ it, to_integer (Runtime.item_duration it)) (Runtime.make_item c <$> sgs)
    = sumZ (λ s, to_integer (Runtime.duration s)) (concat sgs).
Proof.
  intros Hsub. split.
  - apply Forall_fmap, Forall_forall. intros sg Hsg.
    by apply runtime_make_item, (runtime_subgroup_safe sgs).
  - rewrite sumZ_fmap, sumZ_concat.
    assert (∀ sg, sg ∈ sgs → sg ⊆+ members) as Hall
      by (intros sg; by apply runtime_subgroup_safe).
    clear Hsub. induction sgs as [|sg sgs IH]; simpl; [done|].
    rewrite IH by (intros; apply Hall; by right).
    f_equal. apply (runtime_make_item c sg), Hall. left.
Qed.

Lemma runtime_split_group_exact maxGroupDuration c ms :
  ms ⊆+ members →
  Forall exact_item (Runtime.split_group maxGroupDuration (c, ms))
  ∧ sumZ (λ it, to_integer (Runtime.item_duration it))
         (Runtime.split_group maxGroupDuration (c, ms))
    = sumZ (λ s, to_integer (Runtime.duration s)) ms.
Proof.
  intros Hsub. unfold Runtime.split_group.
  set (sorted := Runtime.sort _ ms).
  assert (sorted ≡ₚ ms) as Hsorted by apply runtime_sort_perm.
  rewrite <- (sumZ_perm _ _ _ Hsorted).
  destruct (_ && _).
  - set (sgs := (fold_left _ sorted _).1).
    assert (concat sgs = sorted) as Hsgs.
    { unfold sgs. by rewrite runtime_split_loop. }
    rewrite <- Hsgs. apply runtime_make_items. by rewrite Hsgs, Hsorted.
  - pose proof (runtime_make_items c [sorted]) as H. simpl in H.
    rewrite (right_id_L [] (++)) in H. apply H. by rewrite Hsorted.
Qed.

Lemma runtime_splitLargeGroups_exact (groups : Runtime.Groups) maxGroupDuration :
  concat groups.*2 ⊆+ members →
  Forall exact_item (Runtime.splitLargeGroups groups maxGroupDuration)
  ∧ sumZ (λ it, to_integer (Runtime.item_duration it))
         (Runtime.splitLargeGroups groups maxGroupDuration)
    = sumZ (λ s, to_integer (Runtime.duration s)) (concat groups.*2).
Proof.
  unfold Runtime.splitLargeGroups.
  induction groups as [|[c ms] groups IH]; intros Hsub; [by split|].
  cbn [flat_map].
  change (concat ((c, ms) :: groups).*2) with (ms ++ concat groups.*2) in *.
  destruct (runtime_split_group_exact maxGroupDuration c ms) as [Hok Hsum].
  { etrans; [|exact Hsub]. by apply submseteq_inserts_r. }
  destruct IH as [Hok' Hsum'].
  { etrans; [|exact Hsub]. by apply submseteq_inserts_l. }
  split; [by apply Forall_app|]. by rewrite !sumZ_app, Hsum, Hsum'.
Qed.

Lemma runtime_standard_exact standard :
  standard ⊆+ members →
  Forall exact_item (Runtime.standard_item <$> standard)
  ∧ sumZ (λ it, to_integer (Runtime.item_duration it))
         (Runtime.standard_item <$> standard)
    = sumZ (λ s, to_integer (Runtime.duration s)) standard.
Proof.
  intros [Hall _]%runtime_sublist_safe. split.
  - apply Forall_fmap. eapply Forall_impl; [exact Hall|].
    intros s Hs. by split.
  - by rewrite sumZ_fmap.
Qed.

End runtime_sums.

Lemma runtime_add_item_exact item i buckets :
  (i < length buckets)%nat → exact_item item → Forall exact_bucket buckets →
  sumZ (λ b, to_integer (Runtime.b_testTime b)) buckets
  + to_integer (Runtime.item_duration item) ≤ MAX_SAFE_INTEGER →
  Forall exact_bucket (alter (Runtime.add_item item) i buckets)
  ∧ sumZ (λ b, to_integer (Runtime.b_testTime b))
         (alter (Runtime.add_item item) i buckets)
    = sumZ (λ b, to_integer (Runtime.b_testTime b)) buckets
      + to_integer (Runtime.item_duration item).
Proof.
  intros Hi [Hit Hnil]. revert i Hi.
  induction buckets as [|b buckets IH]; intros i Hi Hall Hsum; simpl in Hi; [lia|].
  apply Forall_cons in Hall as [[Hb Hbnil] Hall].
  pose proof (sumZ_safe_nonneg Runtime.b_testTime buckets
                (Forall_impl _ _ _ Hall (λ b H, proj1 H))) as Hnn.
  pose proof (safe_integer_nonneg _ Hb). pose proof (safe_integer_nonneg _ Hit).
  simpl in Hsum.
  destruct i as [|i]; csimpl.
  - destruct (add_safe_integer (Runtime.b_testTime b) (Runtime.item_duration item))
      as [Hs Hv]; [done|done|lia|].
    split; [|rewrite Hv; lia].
    apply Forall_cons. split; [|done]. split; [done|].
    cbn [Runtime.add_item Runtime.b_specs Runtime.b_testTime].
    intros [Hb0 Hi0]%app_eq_nil. rewrite Hv, Hbnil, Hnil by done. done.
  - destruct (IH i) as [Hok Hv]; [lia|done|lia|].
    split; [|rewrite Hv; lia]. apply Forall_cons. by split.
Qed.

Lemma runtime_assign_loop_exact items buckets assigned :
  Forall exact_item items → Forall exact_bucket buckets →
  sumZ (λ b, to_integer (Runtime.b_testTime b)) buckets
  + sumZ (λ it, to_integer (Runtime.item_duration it)) items ≤ MAX_SAFE_INTEGER →
  Runtime.assign_loop items buckets = Some assigned →
  Forall exact_bucket assigned
  ∧ sumZ (λ b, to_integer (Runtime.b_testTime b)) assigned
    = sumZ (λ b, to_integer (Runtime.b_testTime b)) buckets
      + sumZ (λ it, to_integer (Runtime.item_duration it)) items.
Proof.
  revert buckets. induction items as [|item items IH]; intros buckets Hits Hbs Hsum Hloop.
  - injection Hloop as <-. split; [done|]. simpl. lia.
  - apply Forall_cons in Hits as [Hit Hits].
    cbn [Runtime.assign_loop] in Hloop. unfold Runtime.assign_step in Hloop.
    destruct (Runtime.lightest buckets) as [i|] eqn:Hi; [|done].
    cbn [mbind option_bind] in Hloop.
    assert (i < length buckets)%nat as Hlt.
    { destruct (runtime_lightest buckets) as (i' & Hi' & Hlt).
      - by intros ->.
      - by simplify_eq. }
    pose proof (sumZ_safe_nonneg Runtime.item_duration items
                  (Forall_impl _ _ _ Hits (λ b H, proj1 H))) as Hnn.
    simpl in Hsum.
    destruct (runtime_add_item_exact item i buckets Hlt Hit Hbs) as [Hok Hv]; [lia|].
    destruct (IH _ Hits Hok) as [Hok' Hv']; [lia|done|].
    split; [done|]. rewrite Hv', Hv. simpl. lia.
Qed.

Lemma runtime_shards_exact buckets :
  Forall exact_bucket buckets →
  sumZ (λ b, to_integer (Runtime.b_testTime b)) buckets ≤ MAX_SAFE_INTEGER →
  safe_integer
    (sum_testTime
       (imap Runtime.to_shard
          (filter (λ b, (0 < length (Runtime.b_specs b))%nat) buckets)))
  ∧ to_integer
      (sum_testTime
         (imap Runtime.to_shard
            (filter (λ b, (0 < length (Runtime.b_specs b))%nat) buckets)))
    = sumZ (λ b, to_integer (Runtime.b_testTime b)) buckets.
Proof.
  intros Hall Hsum.
  assert (∀ (l : list Runtime.Bucket) f,
            (∀ i b, Runtime.testTime (f i b) = Runtime.b_testTime b) →
            Forall exact_bucket l →
            Forall (λ sh, safe_integer (Runtime.testTime sh)) (imap f l)
            ∧ sumZ (λ sh, to_integer (Runtime.testTime sh)) (imap f l)
              = sumZ (λ b, to_integer (Runtime.b_testTime b)) l) as Himap.
  { induction l as [|b l IH]; intros f Hf Hl; csimpl; [done|].
    apply Forall_cons in Hl as [[Hb _] Hl].
    destruct (IH (f ∘ S)) as [Hok Heq]; [intros i b'; apply Hf | done |].
    rewrite Hf, Heq. split; [|done]. apply Forall_cons. by rewrite Hf. }
  set (kept := filter _ buckets).
  assert (Forall exact_bucket kept
          ∧ sumZ (λ b, to_integer (Runtime.b_testTime b)) kept
            = sumZ (λ b, to_integer (Runtime.b_testTime b)) buckets) as [Hkept Heq].
  { unfold kept. clear Hsum.
    induction buckets as [|b buckets IH]; [done|].
    apply Forall_cons in Hall as [Hb Hall]. destruct (IH Hall) as [Hok Hsum].
    rewrite filter_cons. case_decide as Hlen; simpl.
    - split; [by apply Forall_cons|]. by rewrite Hsum.
    - split; [done|]. rewrite Hsum.
      destruct Hb as [_ Hnil]. rewrite Hnil; [lia|].
      destruct (Runtime.b_specs b); [done | simpl in Hlen; lia]. }
  destruct (Himap kept Runtime.to_shard) as [Hok Hsh]; [done..|].
  unfold sum_testTime.
  destruct (fold_add_safe_zero Runtime.testTime (imap Runtime.to_shard kept) Hok)
    as [Hs Hv]; [rewrite Hsh, Heq; done|].
  split; [done|]. by rewrite Hv, Hsh.
Qed.

Lemma runtime_numeric_durations (l : list (Runtime.Enriched float)) enriched :
  mapM Runtime.numeric l = Some enriched →
  omap (λ e, match Runtime.e_duration e with
             | Runtime.Number x => Some x
             | Runtime.Member _ => None
             end) l
  = Runtime.duration <$> enriched.
Proof.
  revert enriched. induction l as [|e l IH]; intros enriched H.
  - by injection H as <-.
  - cbn [mapM] in H.
    destruct (Runtime.numeric e) as [s|] eqn:Es; cbn [mbind option_bind] in H; [|done].
    destruct (mapM Runtime.numeric l) as [k|]; cbn [mbind option_bind] in H; [|done].
    injection H as <-. cbn [omap list_omap]. unfold Runtime.numeric in Es.
    destruct (Runtime.e_duration e) as [x|]; [|done].
    injection Es as <-. csimpl. by rewrite (IH k).
Qed.

(** A run on doubles that starts with at least one shard and looks no
    duration up on [Object.prototype], step by step. *)
Lemma runtime_orchestrate_shape discovered numShards (metrics : gmap string float)
    config :
  (1 ≤ numShards)%nat → numeric_lookups discovered metrics →
  ∃ enriched groups standard assigned,
    Runtime.sd_path <$> enriched = path <$> discovered
    ∧ Runtime.duration <$> enriched
      = durations discovered metrics (Runtime.defaultDuration config)
    ∧ Runtime.groupByCapability enriched = (groups, standard)
    ∧ Runtime.assign_loop
        (Runtime.sort (λ a b, PrimFloat.sub (Runtime.item_duration b)
                                            (Runtime.item_duration a))
           (Runtime.splitLargeGroups groups (Runtime.maxGroupDuration config)
            ++ (Runtime.standard_item <$> standard)))
        (replicate numShards Runtime.empty_bucket) = Some assigned
    ∧ Runtime.orchestrate discovered numShards metrics config
      = Runtime.Returns
          {| Runtime.shards :=
               imap Runtime.to_shard
                 (filter (λ b, (0 < length (Runtime.b_specs b))%nat) assigned);
             Runtime.totalTestTime := Runtime.sum_duration enriched |}.
Proof.
  intros Hn Hnum. unfold Runtime.orchestrate, durations.
  destruct (runtime_numeric discovered metrics (Runtime.defaultDuration config) Hnum)
    as (enriched & Hmap & Hpaths).
  rewrite (runtime_numeric_durations _ _ Hmap), Hmap.
  destruct (Runtime.groupByCapability enriched) as [groups standard] eqn:Hgroups.
  unfold Runtime.assignToShards.
  destruct (runtime_assign_loop
              (Runtime.sort (λ a b, PrimFloat.sub (Runtime.item_duration b)
                                                  (Runtime.item_duration a))
                 (Runtime.splitLargeGroups groups (Runtime.maxGroupDuration config)
                  ++ (Runtime.standard_item <$> standard)))
              (replicate numShards Runtime.empty_bucket))
    as (assigned & Hloop & _).
  { destruct numShards; [lia|done]. }
  exists enriched, groups, standard, assigned. by rewrite Hloop.
Qed.

Lemma runtime_empty_buckets n :
  concat (Runtime.b_specs <$> replicate n Runtime.empty_bucket) = []
  ∧ Forall exact_bucket (replicate n Runtime.empty_bucket)
  ∧ sumZ (λ b, to_integer (Runtime.b_testTime b)) (replicate n Runtime.empty_bucket) = 0.
Proof.
  induction n as [|n (IH1 & IH2 & IH3)]; [done|]. csimpl. split_and!; [done| |].
  - apply Forall_cons. split; [|done]. split; [apply safe_integer_zero | done].
  - rewrite IH3. done.
Qed.

(** ** Conservation *)

(** C1, as stated, fails: with one shard and the metrics 77030.7, 45315.3
    and 66181.6 of three specs, the one shard reports the [testTime]
    188527.59999999998 and the result the [totalTestTime] 188527.6; with
    the integer metrics 1, 1 and 2^53 they are 2^53 and 2^53 + 2.  The two
    sums add the same durations in different orders, and an addition of
    doubles rounds. *)
Lemma conservation_rounding_counterexample :
  (∃ r, Runtime.orchestrate three_specs 1 fractional_metrics DEFAULT_CONFIG_doubles
        = Runtime.Returns r
        ∧ numeric_lookups three_specs fractional_metrics
        ∧ Runtime.specs <$> Runtime.shards r
          = [["a.spec.ts"; "c.spec.ts"; "b.spec.ts"]]
        ∧ sum_testTime (Runtime.shards r) = 188527.59999999998%float
        ∧ Runtime.totalTestTime r = 188527.6%float
        ∧ sum_testTime (Runtime.shards r) ≠ Runtime.totalTestTime r)
  ∧ (∃ r, Runtime.orchestrate three_specs 1 large_metrics DEFAULT_CONFIG_doubles
          = Runtime.Returns r
          ∧ numeric_lookups three_specs large_metrics
          ∧ Forall (λ x, ∃ n, 0 ≤ n ∧ x = of_integer n)
              (durations three_specs large_metrics 60000)
          ∧ sum_testTime (Runtime.shards r) = 9007199254740992%float
          ∧ Runtime.totalTestTime r = 9007199254740994%float
          ∧ sum_testTime (Runtime.shards r) ≠ Runtime.totalTestTime r).
Proof.
  split; (eexists; split; [reflexivity|]); split.
  - repeat (constructor; [intros _; by apply (bool_decide_unpack _)|]). constructor.
  - vm_compute. split_and!; [reflexivity..|discriminate].
  - repeat (constructor; [intros _; by apply (bool_decide_unpack _)|]). constructor.
  - split.
    + apply Forall_cons. split; [by exists 1|].
      apply Forall_cons. split; [by exists 1|].
      apply Forall_cons. split; [by exists 9007199254740992|].
      by apply Forall_nil.
    + vm_compute. split_and!; [reflexivity..|discriminate].
Qed.

(** C1, amended. For every list of discovered specs, every [numShards >= 1],
    every configuration and every metrics in which no duration is looked
    up on [Object.prototype] alone, [orchestrate] returns a result in
    which the spec lists of the shards, taken together, are a
    rearrangement of the input spec paths (each input path, counted with
    multiplicity, lies in exactly one shard); and when every duration is
    an integer from 0 to [Number.MAX_SAFE_INTEGER] and so is their sum,
    the [testTime]s of the shards, added from the first shard to the last,
    are [totalTestTime]. *)
Theorem orchestrate_conservation discovered numShards (metrics : gmap string float)
    config :
  (1 ≤ numShards)%nat → numeric_lookups discovered metrics →
  ∃ r, Runtime.orchestrate discovered numShards metrics config = Runtime.Returns r
       ∧ concat (Runtime.specs <$> Runtime.shards r) ≡ₚ path <$> discovered
       ∧ (Forall safe_integer
            (durations discovered metrics (Runtime.defaultDuration config)) →
          sumZ to_integer
            (durations discovered metrics (Runtime.defaultDuration config))
          ≤ MAX_SAFE_INTEGER →
          sum_testTime (Runtime.shards r) = Runtime.totalTestTime r).
Proof.
  intros Hn Hnum.
  destruct (runtime_orchestrate_shape discovered numShards metrics config Hn Hnum)
    as (enriched & groups & standard & assigned & Hpaths & Hdur & Hgroups & Hloop & ->).
  pose proof (runtime_groupByCapability enriched) as Hperm.
  rewrite Hgroups in Hperm. cbn [fst snd] in Hperm.
  destruct (runtime_empty_buckets numShards) as (Hnil & Hempty & Hzero).
  eexists. split; [done|]. cbn [Runtime.shards Runtime.totalTestTime]. split.
  - destruct (runtime_assign_loop
                (Runtime.sort (λ a b, PrimFloat.sub (Runtime.item_duration b)
                                                    (Runtime.item_duration a))
                   (Runtime.splitLargeGroups groups (Runtime.maxGroupDuration config)
                    ++ (Runtime.standard_item <$> standard)))
                (replicate numShards Runtime.empty_bucket))
      as (assigned' & Hloop' & Hspecs).
    { destruct numShards; [lia|done]. }
    rewrite Hloop in Hloop'. injection Hloop' as <-.
    rewrite runtime_shards_specs, Hspecs, Hnil, runtime_sort_perm. simpl.
    rewrite fmap_app, concat_app, runtime_splitLargeGroups.
    rewrite <- Hpaths, <- Hperm, fmap_app. f_equiv.
    clear. induction standard as [|s standard IH]; csimpl; [done|]. by rewrite IH.
  - rewrite <- Hdur. intros Hsafe Htotal.
    rewrite Forall_fmap in Hsafe.
    change (Forall (λ s, safe_integer (Runtime.duration s)) enriched) in Hsafe.
    rewrite sumZ_fmap in Htotal.
    change (to_integer ∘ Runtime.duration)
      with (λ s, to_integer (Runtime.duration s)) in Htotal.
    destruct (runtime_splitLargeGroups_exact enriched Hsafe Htotal groups
                (Runtime.maxGroupDuration config)) as [Hok1 Hsum1].
    { rewrite <- Hperm. by apply submseteq_inserts_r. }
    destruct (runtime_standard_exact enriched Hsafe Htotal standard) as [Hok2 Hsum2].
    { rewrite <- Hperm. by apply submseteq_inserts_l. }
    set (items := Runtime.splitLargeGroups groups (Runtime.maxGroupDuration config)
                  ++ (Runtime.standard_item <$> standard)) in *.
    assert (sumZ (λ it, to_integer (Runtime.item_duration it)) items
            = sumZ (λ s, to_integer (Runtime.duration s)) enriched) as Hitems.
    { unfold items. by rewrite sumZ_app, Hsum1, Hsum2, <- sumZ_app, (sumZ_perm _ _ _ Hperm). }
    assert (Forall exact_item
              (Runtime.sort (λ a b, PrimFloat.sub (Runtime.item_duration b)
                                                  (Runtime.item_duration a)) items))
      as Hitems_ok.
    { rewrite runtime_sort_perm. by apply Forall_app. }
    destruct (runtime_assign_loop_exact _ _ assigned Hitems_ok Hempty) as [Hok Hsum];
      [|done|].
    { rewrite Hzero, (sumZ_perm _ _ _ (runtime_sort_perm _ items)), Hitems. lia. }
    rewrite Hzero, (sumZ_perm _ _ _ (runtime_sort_perm _ items)), Hitems in Hsum.
    simpl in Hsum.
    destruct (runtime_shards_exact assigned Hok) as [Hs Hv]; [lia|].
    destruct (fold_add_safe_zero Runtime.duration enriched Hsafe Htotal) as [Hs' Hv'].
    apply safe_integer_eq; [done..|]. unfold Runtime.sum_duration.
    by rewrite Hv, Hv', Hsum.
Qed.

Lemma orchestrate_conservation_witness :
  ∃ r, Runtime.orchestrate balance_specs 2 integer_metrics DEFAULT_CONFIG_doubles
       = Runtime.Returns r
       ∧ concat (Runtime.specs <$> Runtime.shards r) ≡ₚ path <$> balance_specs
       ∧ sum_testTime (Runtime.shards r) = Runtime.totalTestTime r.
Proof.
  destruct (orchestrate_conservation balance_specs 2 integer_metrics
              DEFAULT_CONFIG_doubles) as (r & Hr & Hpaths & Hsum).
  - lia.
  - repeat (constructor; [intros _; by apply (bool_decide_unpack _)|]). constructor.
  - exists r. split; [done|]. split; [done|]. apply Hsum.
    + apply Forall_cons. split; [exists 100000; split; [by vm_compute | reflexivity]|].
      apply Forall_cons. split; [exists 50000; split; [by vm_compute | reflexivity]|].
      apply Forall_cons. split; [exists 25000; split; [by vm_compute | reflexivity]|].
      apply Forall_cons. split; [exists 25000; split; [by vm_compute | reflexivity]|].
      by apply Forall_nil.
    + by vm_compute.
Defined.

(** ** Enrichment *)

(** C3, as stated, fails: a path stored in the metrics with the value 0
    does not get that value as its duration, and a path that is absent
    from the metrics, when it is the name of a member of
    [Object.prototype], does not get [defaultDuration]. *)
Lemma enrichWithDuration_lookup_counterexample :
  ¬ (∀ e x, e ∈ Runtime.enrichWithDuration Runtime.falsy lookup_specs
                  lookup_metrics 60000%float →
            lookup_metrics !! Runtime.e_path e = Some x →
            Runtime.e_duration e = Runtime.Number x)
  ∧ ¬ (∀ e, e ∈ Runtime.enrichWithDuration Runtime.falsy lookup_specs
                  lookup_metrics 60000%float →
            lookup_metrics !! Runtime.e_path e = None →
            Runtime.e_duration e = Runtime.Number 60000%float).
Proof.
  split; intros H.
  - specialize (H {| Runtime.e_path := "zero.spec.ts"; Runtime.e_capabilities := [];
                     Runtime.e_duration := Runtime.Number 60000%float |} 0%float).
    discriminate H; [right; left | reflexivity].
  - specialize (H {| Runtime.e_path := "constructor"; Runtime.e_capabilities := [];
                     Runtime.e_duration := Runtime.Member "constructor" |}).
    discriminate H; [do 5 right; left | reflexivity].
Qed.

(** C3, amended. In the enrichment step of [orchestrate], every spec keeps
    its path and capabilities.  Its duration is the value stored for its
    path in the metrics when that value is not falsy, and
    [defaultDuration] when the value is falsy; the falsy numbers are [0],
    [-0] and [NaN].  When the path is not a key of the metrics, its
    duration is [defaultDuration] unless the path is the name of a member
    of [Object.prototype], and that member otherwise. *)
Theorem enrichWithDuration_lookup discovered (metrics : gmap string float) d :
  Forall2 (λ s e,
      Runtime.e_path e = path s
      ∧ Runtime.e_capabilities e = capabilities s
      ∧ (∀ x, metrics !! path s = Some x → Runtime.falsy x = false →
              Runtime.e_duration e = Runtime.Number x)
      ∧ (∀ x, metrics !! path s = Some x → Runtime.falsy x = true →
              Runtime.e_duration e = Runtime.Number d)
      ∧ (metrics !! path s = None → path s ∉ Distribute.Object_prototype →
         Runtime.e_duration e = Runtime.Number d)
      ∧ (metrics !! path s = None → path s ∈ Distribute.Object_prototype →
         Runtime.e_duration e = Runtime.Member (path s)))
    discovered (Runtime.enrichWithDuration Runtime.falsy discovered metrics d)
  ∧ Runtime.falsy <$> [0; neg_zero; nan; 5e-324; -1; infinity]%float
    = [true; true; true; false; false; false]
  ∧ Runtime.e_duration <$> Runtime.enrichWithDuration Runtime.falsy lookup_specs
                             lookup_metrics 60000%float
    = [Runtime.Number 120000.5%float; Runtime.Number 60000%float;
       Runtime.Number 60000%float; Runtime.Number 60000%float;
       Runtime.Number 60000%float; Runtime.Member "constructor";
       Runtime.Member "__proto__"].
Proof.
  split_and!; [|reflexivity..].
  unfold Runtime.enrichWithDuration.
  induction discovered as [|s discovered IH]; csimpl; constructor; [|done].
  cbn [Runtime.e_path Runtime.e_capabilities Runtime.e_duration].
  unfold Runtime.get. split_and!; [done..| | | |].
  - intros x -> Hx. simpl. by rewrite Hx.
  - intros x -> Hx. simpl. by rewrite Hx.
  - intros -> Hp. by rewrite bool_decide_eq_false_2.
  - intros -> Hp. by rewrite bool_decide_eq_true_2.
Qed.

Lemma falsy_of_integer n :
  0 ≤ n ≤ MAX_SAFE_INTEGER → Runtime.falsy (of_integer n) = (n =? 0).
Proof.
  intros [Hn Hmax]. destruct n as [|p|p]; [done| |lia].
  unfold Runtime.falsy. rewrite classify_spec, Prim2SF_of_integer by done.
  unfold canonical, SF64classify, SFclassify. by destruct (_ =? _).
Qed.

(** On metrics that are safe integers, and for lookups that find an own
    property or nothing, [enrichWithDuration] on doubles is
    [enrichWithDuration] on integers. *)
Lemma enrichWithDuration_integers discovered (metrics : gmap string Z) d :
  numeric_lookups discovered metrics →
  (∀ p v, metrics !! p = Some v → 0 ≤ v ≤ MAX_SAFE_INTEGER) →
  Runtime.enrichWithDuration Runtime.falsy discovered (of_integer <$> metrics)
    (of_integer d)
  = as_double <$> enrichWithDuration discovered metrics d.
Proof.
  unfold Runtime.enrichWithDuration, enrichWithDuration. intros Hnum Hm.
  induction Hnum as [|s discovered Hs _ IH]; csimpl; [done|].
  rewrite IH. f_equal. unfold as_double. simpl. f_equal.
  unfold Runtime.get, Js.or_default. rewrite lookup_fmap.
  destruct (metrics !! path s) as [v|] eqn:E; simpl.
  - rewrite falsy_of_integer by eauto. by destruct (v =? 0).
  - by rewrite bool_decide_eq_false_2 by auto.
Qed.
(** * Further properties of the discovery analyzer *)

(** ** Tags *)

Lemma append_cons a s1 s2 : String a s1 +:+ s2 = String a (s1 +:+ s2).
Proof. done. Qed.

Lemma append_nil_r s : s +:+ EmptyString = s.
Proof. induction s as [|a s IH]; [done|]. by rewrite append_cons, IH. Qed.

Lemma append_assoc s1 s2 s3 : (s1 +:+ s2) +:+ s3 = s1 +:+ (s2 +:+ s3).
Proof. induction s1 as [|a s1 IH]; [done|]. by rewrite !append_cons, IH. Qed.

Lemma all_tag_chars_snoc run a :
  all_tag_chars (run +:+ String a EmptyString)
  = all_tag_chars run && Js.is_tag_char a.
Proof.
  induction run as [|b run IH].
  - change (all_tag_chars (String a EmptyString) = true && Js.is_tag_char a).
    simpl. by rewrite andb_true_r.
  - rewrite append_cons. simpl. rewrite IH. by rewrite andb_assoc.
Qed.

Lemma scan_tags_is_tag pending s :
  (∀ run, pending = Some run → all_tag_chars run = true) →
  Forall (λ tag, is_tag tag = true) (Js.scan_tags pending s).
Proof.
  assert (∀ pending, (∀ run, pending = Some run → all_tag_chars run = true) →
            Forall (λ tag, is_tag tag = true) (Js.flush pending)) as Hflush.
  { intros [[|a run]|] H; simpl; try constructor; [|constructor].
    apply (H (String a run) eq_refl). }
  revert pending. induction s as [|a s IH]; intros pending Hp; simpl.
  - by apply Hflush.
  - destruct (Js.is_tag_char a) eqn:Ha.
    + apply IH. intros run' Hrun.
      destruct pending as [run|]; simplify_eq/=.
      by rewrite all_tag_chars_snoc, Ha, (Hp run eq_refl).
    + apply Forall_app. split; [by apply Hflush|].
      apply IH. intros run. destruct (Ascii.eqb a "@"); [|done]. by intros [= <-].
Qed.

(** X11. Every tag that [parseTags] returns is an [@] followed by one or
    more characters of the class [[\w:-]], and nothing else. *)
Theorem parseTags_is_tag title :
  Forall (λ tag, is_tag tag = true) (parseTags title).
Proof. by apply scan_tags_is_tag. Qed.

Lemma scan_tags_run p run :
  all_tag_chars run = true →
  Js.scan_tags (Some p) run = Js.flush (Some (p +:+ run)).
Proof.
  revert p. induction run as [|a run IH]; intros p Hrun; simpl in *.
  - by rewrite append_nil_r.
  - apply andb_true_iff in Hrun as [-> Hrun]. simpl. rewrite IH by done.
    by rewrite append_assoc.
Qed.

(** X12. A title that is itself a tag is parsed into exactly that tag. *)
Theorem parseTags_tag tag : is_tag tag = true → parseTags tag = [tag].
Proof.
  destruct tag as [|a [|b run]]; [done..|]. cbn [is_tag].
  intros [->%Ascii.eqb_eq Hrun]%andb_true_iff.
  unfold parseTags, Js.match_tags.
  change (Js.scan_tags None (String "@" (String b run)))
    with (Js.scan_tags (Some EmptyString) (String b run)).
  by rewrite (scan_tags_run EmptyString (String b run) Hrun).
Qed.

Lemma parseTags_tag_witness :
  is_tag "@capability:source-control" = true
  ∧ parseTags "@capability:source-control" = ["@capability:source-control"].
Proof.
  split; [reflexivity|].
  apply (parseTags_tag "@capability:source-control"). reflexivity.
Defined.

Lemma scan_tags_app pending s1 sep s2 :
  Js.is_tag_char sep = false → sep ≠ "@"%char →
  Js.scan_tags pending (s1 +:+ String sep s2)
  = Js.scan_tags pending s1 ++ Js.scan_tags None s2.
Proof.
  intros Hsep Hat. revert pending.
  induction s1 as [|a s1 IH]; intros pending.
  - change (EmptyString +:+ String sep s2) with (String sep s2).
    cbn [Js.scan_tags]. rewrite Hsep.
    by destruct (Ascii.eqb_spec sep "@").
  - rewrite append_cons. cbn [Js.scan_tags].
    destruct (Js.is_tag_char a); rewrite IH; [done|].
    by rewrite (assoc_L (++)).
Qed.

(** X13. The tags of a title made of two parts with a separator between
    them (a character that is neither a tag character nor [@], a space for
    one) are the tags of the first part followed by those of the second. *)
Theorem parseTags_app s1 sep s2 :
  Js.is_tag_char sep = false → sep ≠ "@"%char →
  parseTags (s1 +:+ String sep s2) = parseTags s1 ++ parseTags s2.
Proof. apply scan_tags_app. Qed.

Lemma parseTags_app_witness :
  parseTags ("sends mail @capability:email" +:+ String " " "@mode:queue x")
  = parseTags "sends mail @capability:email" ++ parseTags "@mode:queue x".
Proof.
  by apply (parseTags_app "sends mail @capability:email" " " "@mode:queue x").
Defined.

(** ** Active tests *)

Lemma isInsideSkippedScope_false call scopes :
  isInsideSkippedScope call scopes = false ↔ ∀ b, b ∈ blocks call → b ∉ scopes.
Proof.
  rewrite <- not_true_iff_false. unfold isInsideSkippedScope.
  rewrite existsb_elem_of. split.
  - intros H b Hb Hin. apply H. exists b. split; [done|]. by apply bool_decide_eq_true.
  - intros H (b & Hb & Hin%bool_decide_eq_true). by apply (H b).
Qed.

Lemma skippedByTag_false (tags skipTags : list string) :
  existsb (λ tag, bool_decide (tag ∈ skipTags)) tags = false
  ↔ ∀ tag, tag ∈ tags → tag ∉ skipTags.
Proof.
  rewrite <- not_true_iff_false, existsb_elem_of. split.
  - intros H tag Ht Hin. apply H. exists tag. split; [done|].
    by apply bool_decide_eq_true.
  - intros H (tag & Ht & Hin%bool_decide_eq_true). by apply (H tag).
Qed.

Lemma classify_active_bool config scopes call :
  (∃ info, classify config scopes call = Some info
           ∧ skipped info = false ∧ isDescribe info = false)
  ↔ (expression call = "test" ∨ expression call = "test.only")
    ∧ ∃ title, extractTitle call = Some title
               ∧ existsb (λ tag, bool_decide (tag ∈ skipTags config)) (parseTags title)
                 = false
               ∧ isInsideSkippedScope call scopes = false.
Proof.
  unfold classify, parseTestCall.
  destruct (extractTitle call) as [title|] eqn:Htitle.
  2:{ split.
      - intros (info & H & _). by case_match.
      - by intros (_ & title & ? & _). }
  cbn [mbind option_bind]. split.
  - intros (info & Hc & Hs & Hd).
    destruct (existsb _ (parseTags title)) eqn:Htag;
      destruct (isInsideSkippedScope call scopes) eqn:Hin;
      repeat case_bool_decide; simplify_eq/=;
      (split; [by auto|]; by exists title).
  - intros (Hexpr & title' & [= <-] & -> & ->).
    destruct Hexpr as [-> | ->]; simpl; by eexists.
Qed.

(** A call counts as an active test exactly when it is a [test] or
    [test.only] call with a literal title, none of its tags is a skip tag
    and none of its enclosing blocks is a skipped scope. *)
Lemma classify_active config scopes call :
  (∃ info, classify config scopes call = Some info
           ∧ skipped info = false ∧ isDescribe info = false)
  ↔ (expression call = "test" ∨ expression call = "test.only")
    ∧ ∃ title, extractTitle call = Some title
               ∧ (∀ tag, tag ∈ parseTags title → tag ∉ skipTags config)
               ∧ (∀ b, b ∈ blocks call → b ∉ scopes).
Proof.
  rewrite classify_active_bool. split.
  - intros (Hexpr & title & Htitle & Htag & Hin). split; [done|]. exists title.
    by rewrite <- skippedByTag_false, <- isInsideSkippedScope_false.
  - intros (Hexpr & title & Htitle & Htag & Hin). split; [done|]. exists title.
    by rewrite skippedByTag_false, isInsideSkippedScope_false.
Qed.

(** X14. A file yields a spec exactly when it contains a [test] or
    [test.only] call whose first argument is a string literal or a
    template literal without substitution, none of whose tags is a skip
    tag and none of whose enclosing blocks is a skipped scope; the path of
    the spec is then the relative path of the file. *)
Theorem analyzeTestFile_Some_iff getRelativePath config file :
  (is_Some (analyzeTestFile getRelativePath config file)
   ↔ ∃ call title,
       call ∈ getDescendantCalls file
       ∧ (expression call = "test" ∨ expression call = "test.only")
       ∧ extractTitle call = Some title
       ∧ (∀ tag, tag ∈ parseTags title → tag ∉ skipTags config)
       ∧ (∀ b, b ∈ blocks call → b ∉ findSkippedScopes file))
  ∧ (∀ spec, analyzeTestFile getRelativePath config file = Some spec →
             path spec = getRelativePath (filePath file)).
Proof.
  split.
  - transitivity (∃ call info, call ∈ getDescendantCalls file
                   ∧ classify config (findSkippedScopes file) call = Some info
                   ∧ skipped info = false ∧ isDescribe info = false).
    + unfold analyzeTestFile.
      destruct (existsb _ (extractTestCalls config file)) eqn:E.
      * apply existsb_elem_of in E as (info & Hin & Hact).
        apply andb_true_iff in Hact as [Hs%negb_true_iff Hd%negb_true_iff].
        rewrite bool_decide_eq_false_2.
        2:{ intros Hlen. destruct (extractTestCalls config file); [|done].
            by apply elem_of_nil in Hin. }
        simpl. split; [intros _|by eauto].
        apply list_elem_of_omap in Hin as (call & Hcall & Hclass).
        by exists call, info.
      * split; [by case_bool_decide; intros [? ?]|].
        intros (call & info & Hcall & Hclass & Hs & Hd).
        apply not_true_iff_false in E. destruct E. apply existsb_elem_of.
        exists info. split; [|by rewrite Hs, Hd].
        apply list_elem_of_omap. by exists call.
    + split.
      * intros (call & info & Hcall & Hclass).
        destruct (proj1 (classify_active config (findSkippedScopes file) call))
          as (Hexpr & title & ?); [by exists info|]. by exists call, title.
      * intros (call & title & Hcall & Hexpr & Htitle).
        destruct (proj2 (classify_active config (findSkippedScopes file) call))
          as (info & ?); [split; [done|]; by exists title|]. by exists call, info.
  - intros spec. unfold analyzeTestFile. case_bool_decide; [done|].
    case_match; [done|]. by intros [= <-].
Qed.

(** ** Skipped scopes *)

(** The calls below an argument of a descendant call are descendants, and
    the blocks of that call enclose them. *)
Lemma calls_in_arguments n :
  ∀ enclosing c a call,
    c ∈ calls_in enclosing n → a ∈ arguments c → call ∈ calls_in (blocks c) a →
    call ∈ calls_in enclosing n.
Proof.
  induction n as [text callee args IHc IHa| | |ps body IHp IHb|ps start stmts IHp IHs
                 |start stmts IHs|kids IHk] using Node_forall_ind;
    intros enclosing c a call Hc Ha Hcall; simpl in Hc |- *;
    rewrite ?Forall_forall in *.
  - apply elem_of_cons in Hc as [->|[Hc|Hc]%elem_of_app].
    + right. apply elem_of_app. right. apply elem_of_flat_map. by exists a.
    + right. apply elem_of_app. left. eauto.
    + apply elem_of_flat_map in Hc as (a' & Ha' & Hc).
      right. apply elem_of_app. right. apply elem_of_flat_map. exists a'. eauto.
  - by apply elem_of_nil in Hc.
  - by apply elem_of_nil in Hc.
  - apply elem_of_app. apply elem_of_app in Hc as [Hc|Hc]; [left|right; eauto].
    apply elem_of_flat_map in Hc as (a' & Ha' & Hc).
    apply elem_of_flat_map. exists a'. eauto.
  - apply elem_of_app.
    apply elem_of_app in Hc as [Hc|Hc]; [left|right];
      apply elem_of_flat_map in Hc as (a' & Ha' & Hc);
      apply elem_of_flat_map; exists a'; eauto.
  - apply elem_of_flat_map in Hc as (a' & Ha' & Hc).
    apply elem_of_flat_map. exists a'. eauto.
  - apply elem_of_flat_map in Hc as (a' & Ha' & Hc).
    apply elem_of_flat_map. exists a'. eauto.
Qed.

(** X15. A [test.fixme] or [test.skip] call whose last argument is a
    function expression, or an arrow function with a block body, puts the
    body into the skipped scopes: every call in a statement of the body is
    a call of the file, and is recorded as skipped if it is recognized. *)
Theorem wrapper_marker_skips config file marker start statements :
  marker ∈ getDescendantCalls file →
  is_disable_marker (expression marker) = true →
  (∃ parameters,
     last (arguments marker) = Some (ArrowFunction parameters (Block start statements))
     ∨ last (arguments marker) = Some (FunctionExpression parameters start statements)) →
  start ∈ findSkippedScopes file
  ∧ ∀ statement call,
      statement ∈ statements →
      call ∈ calls_in (start :: blocks marker) statement →
      call ∈ getDescendantCalls file
      ∧ ∀ info, classify config (findSkippedScopes file) call = Some info →
                skipped info = true.
Proof.
  intros Hmarker Hdis (ps & Hlast).
  assert (start ∈ findSkippedScopes file) as Hscope.
  { apply elem_of_findSkippedScopes. exists marker. split; [done|].
    unfold extractSkippedBlock. rewrite Hdis. simpl.
    destruct (arguments marker) as [|a args].
    { destruct Hlast as [Hl|Hl]; simpl in Hl; discriminate Hl. }
    cbv iota. by destruct Hlast as [-> | ->]. }
  split; [done|]. intros stmt call Hstmt Hcall.
  assert (start ∈ blocks call) as Hin.
  { eapply calls_in_enclosing; [done | left]. }
  split.
  - unfold getDescendantCalls in *.
    apply elem_of_flat_map in Hmarker as (n & Hn & Hmarker).
    apply elem_of_flat_map. exists n. split; [done|].
    destruct Hlast as [Hlast|Hlast]; apply last_Some in Hlast as [args Hargs].
    + apply (calls_in_arguments n [] marker
               (ArrowFunction ps (Block start statements))); [done| |].
      * rewrite Hargs. apply elem_of_app. right. left.
      * simpl. apply elem_of_app. right. apply elem_of_flat_map. by exists stmt.
    + apply (calls_in_arguments n [] marker
               (FunctionExpression ps start statements)); [done| |].
      * rewrite Hargs. apply elem_of_app. right. left.
      * simpl. apply elem_of_app. right. apply elem_of_flat_map. by exists stmt.
  - intros info. by apply classify_inside_skipped with start.
Qed.

Lemma wrapper_marker_skips_witness :
  let inner := Other [CallExpression "test" (Other []) [StringLiteral "sub-test"]] in
  let marker :=
    {| expression := "test.fixme";
       arguments := [StringLiteral "broken feature";
                     ArrowFunction [] (Block 41 [inner])];
       blocks := [] |} in
  41%nat ∈ findSkippedScopes (wrapper_fixme [])
  ∧ ∀ statement call,
      statement ∈ [inner] →
      call ∈ calls_in (41%nat :: blocks marker) statement →
      call ∈ getDescendantCalls (wrapper_fixme [])
      ∧ ∀ info, classify default_config (findSkippedScopes (wrapper_fixme [])) call
                = Some info →
                skipped info = true.
Proof.
  intros inner marker.
  apply (wrapper_marker_skips default_config (wrapper_fixme []) marker).
  - left.
  - reflexivity.
  - exists []. by left.
Defined.

Lemma classify_no_scope config call :
  classify config ∅ call = parseTestCall call (skipTags config).
Proof.
  unfold classify. destruct (parseTestCall _ _) as [info|]; [|done]. simpl.
  assert (isInsideSkippedScope call ∅ = false) as ->.
  { apply isInsideSkippedScope_false. set_solver. }
  by rewrite andb_false_r.
Qed.

(** X16. A file without any [test.fixme] or [test.skip] call has no
    skipped scope, and its calls are recorded as [parseTestCall] reads
    them, one by one. *)
Theorem no_marker_no_propagation config file :
  (∀ call, call ∈ getDescendantCalls file →
           is_disable_marker (expression call) = false) →
  findSkippedScopes file = ∅
  ∧ extractTestCalls config file = CapabilitySpec.recognized config file.
Proof.
  intros Hnone.
  assert (findSkippedScopes file = ∅) as Hempty.
  { apply set_eq. intros b. rewrite elem_of_findSkippedScopes. split; [|set_solver].
    intros (call & Hcall & Hb). unfold extractSkippedBlock in Hb.
    by rewrite (Hnone call Hcall) in Hb. }
  split; [done|]. unfold extractTestCalls, CapabilitySpec.recognized.
  rewrite Hempty. clear Hnone Hempty.
  induction (getDescendantCalls file) as [|c calls IH]; csimpl; [done|].
  rewrite classify_no_scope, IH. by destruct (parseTestCall c (skipTags config)).
Qed.

Lemma no_marker_no_propagation_witness :
  findSkippedScopes multi_file = ∅
  ∧ extractTestCalls default_config multi_file
    = CapabilitySpec.recognized default_config multi_file.
Proof.
  apply (no_marker_no_propagation default_config multi_file).
  intros call Hcall. unfold getDescendantCalls in Hcall. simpl in Hcall.
  repeat (apply elem_of_cons in Hcall as [->|Hcall]; [reflexivity|]).
  by apply elem_of_nil in Hcall.
Defined.

(** X17. The skipped scopes only add skips: [extractTestCalls] records one
    entry per call that [parseTestCall] recognizes, in the same order, with
    the same tags and the same [isDescribe], and every call that is skipped
    by its marker or by a tag stays skipped. *)
Theorem scopes_only_add_skips config file :
  Forall2 (λ info info0,
             tags info = tags info0
             ∧ isDescribe info = isDescribe info0
             ∧ (skipped info0 = true → skipped info = true))
          (extractTestCalls config file) (CapabilitySpec.recognized config file).
Proof.
  unfold extractTestCalls, CapabilitySpec.recognized.
  generalize (findSkippedScopes file). intros scopes.
  induction (getDescendantCalls file) as [|c calls IH]; csimpl; [constructor|].
  unfold classify at 1.
  destruct (parseTestCall c (skipTags config)) as [info0|]; csimpl; [|done].
  constructor; [|done]. destruct (skipped info0) eqn:E; simpl; [by rewrite E|].
  by destruct (isInsideSkippedScope c scopes).
Qed.

(** ** The report *)

Section sort_facts.
Context {A : Type} (compareFn : A → A → Z).

Lemma insert_perm x l : Js.insert compareFn x l ≡ₚ x :: l.
Proof.
  induction l as [|y l IH]; simpl; [done|].
  case_match; [|done].
  rewrite IH. apply Permutation_swap.
Qed.

Lemma sort_perm l : Js.sort compareFn l ≡ₚ l.
Proof.
  induction l as [|x l IH]; simpl; [done|].
  by rewrite insert_perm, IH.
Qed.

Context (Htrans : ∀ a b c, compareFn a b ≤ 0 → compareFn b c ≤ 0 → compareFn a c ≤ 0).
Context (Htotal : ∀ a b, 0 < compareFn a b → compareFn b a ≤ 0).

Lemma insert_sorted x l :
  StronglySorted (λ a b, compareFn a b ≤ 0) l →
  StronglySorted (λ a b, compareFn a b ≤ 0) (Js.insert compareFn x l).
Proof.
  induction 1 as [|y l Hl IH Hy]; simpl.
  - by repeat constructor.
  - destruct (Z.ltb_spec 0 (compareFn x y)) as [Hgt|Hle].
    + constructor; [done|]. rewrite insert_perm.
      constructor; [by apply Htotal | done].
    + constructor; [by constructor|]. constructor; [done|].
      eapply Forall_impl; [exact Hy|]. intros z Hz. by eapply Htrans.
Qed.

Lemma sort_sorted l :
  StronglySorted (λ a b, compareFn a b ≤ 0) (Js.sort compareFn l).
Proof.
  induction l as [|x l IH]; simpl; [constructor|]. by apply insert_sorted.
Qed.
End sort_facts.

Lemma omap_length_le {A B} (f : A → option B) (l : list A) :
  (length (omap f l) ≤ length l)%nat.
Proof. induction l as [|x l IH]; csimpl; [done|]. destruct (f x); simpl; lia. Qed.

(** X18. Whatever [localeCompare] does, the specs of the report are the
    specs of the files that yield one, rearranged: every reported spec
    comes from one of the files and carries its relative path, there are
    no more specs than files, and the skip tags of the report are those of
    the configuration. *)
Theorem discover_specs getRelativePath localeCompare config files :
  report_specs (discover getRelativePath localeCompare config files)
    ≡ₚ omap (analyzeTestFile getRelativePath config) files
  ∧ (∀ spec, spec ∈ report_specs (discover getRelativePath localeCompare config files) →
             ∃ file, file ∈ files
                     ∧ analyzeTestFile getRelativePath config file = Some spec
                     ∧ path spec = getRelativePath (filePath file))
  ∧ (length (report_specs (discover getRelativePath localeCompare config files))
     ≤ length files)%nat
  ∧ report_skipTags (discover getRelativePath localeCompare config files)
    = skipTags config.
Proof.
  unfold discover. cbn [report_specs report_skipTags]. split_and!.
  - apply sort_perm.
  - intros spec. rewrite sort_perm. intros (file & Hfile & Hspec)%list_elem_of_omap.
    exists file. split_and!; [done..|].
    revert Hspec. unfold analyzeTestFile. case_bool_decide; [done|].
    case_match; [done|]. by intros [= <-].
  - rewrite sort_perm. apply omap_length_le.
  - done.
Qed.

(** X19. When [localeCompare] is a total preorder on paths (transitive,
    and one of two paths never comes after the other both ways), the specs
    of the report are in ascending order of their paths. *)
Theorem discover_sorted getRelativePath localeCompare config files :
  (∀ a b c, localeCompare a b ≤ 0 → localeCompare b c ≤ 0 → localeCompare a c ≤ 0) →
  (∀ a b, 0 < localeCompare a b → localeCompare b a ≤ 0) →
  StronglySorted (λ a b, localeCompare (path a) (path b) ≤ 0)
    (report_specs (discover getRelativePath localeCompare config files)).
Proof.
  intros Htrans Htotal. unfold discover. cbn [report_specs].
  apply (sort_sorted (λ a b, localeCompare (path a) (path b))).
  - intros a b c. apply Htrans.
  - intros a b. apply Htotal.
Qed.

Lemma discover_sorted_witness :
  StronglySorted (λ a b, compare_length (path a) (path b) ≤ 0)
    (report_specs
       (discover id compare_length default_config
          [multi_file; wrapper_fixme [];
           {| filePath := "a.spec.ts"; statements := statements multi_file |}])).
Proof.
  apply (discover_sorted id compare_length default_config
           [multi_file; wrapper_fixme [];
            {| filePath := "a.spec.ts"; statements := statements multi_file |}]).
  - unfold compare_length. lia.
  - unfold compare_length. lia.
Defined.

(** * Properties of the CI adapter *)

Import Distribute.

Lemma add_images_None capabilities images :
  add_images capabilities images = None
  ↔ ∃ cap, cap ∈ capabilities ∧ capImages_of cap = Inherited.
Proof.
  revert images. induction capabilities as [|cap rest IH]; intros images; simpl.
  - split; [done | by intros (? & ?%elem_of_nil & _)].
  - destruct (capImages_of cap) eqn:E; rewrite ?IH.
    + split.
      * intros (c & ? & ?). exists c. split; [by right | done].
      * intros (c & [->|?]%elem_of_cons & Hc); [congruence|]. by exists c.
    + split; [|done]. intros _. exists cap. split; [left | done].
    + split.
      * intros (c & ? & ?). exists c. split; [by right | done].
      * intros (c & [->|?]%elem_of_cons & Hc); [congruence|]. by exists c.
Qed.

Lemma add_images_Some capabilities images result img :
  add_images capabilities images = Some result →
  img ∈ result
  ↔ img ∈ images
    ∨ ∃ cap capImages, cap ∈ capabilities ∧ capImages_of cap = Own capImages
                       ∧ img ∈ capImages.
Proof.
  revert images. induction capabilities as [|cap rest IH]; intros images; simpl.
  - intros [= <-]. split; [by left|]. by intros [?|(? & ? & ?%elem_of_nil & _)].
  - destruct (capImages_of cap) as [capImages| |] eqn:E; [|done|]; intros ->%IH.
    + rewrite elem_of_union, elem_of_list_to_set. split.
      * intros [[?|?]|(c & l & ? & ? & ?)]; [|by left|].
        -- right. exists cap, capImages. split; [left | done].
        -- right. exists c, l. split; [by right | done].
      * intros [?|(c & l & [->|?]%elem_of_cons & Hc & ?)]; [left; by right| |].
        -- left. left. congruence.
        -- right. by exists c, l.
    + split.
      * intros [?|(c & l & ? & ? & ?)]; [by left|].
        right. exists c, l. split; [by right | done].
      * intros [?|(c & l & [->|?]%elem_of_cons & Hc & ?)]; [by left|congruence|].
        right. by exists c, l.
Qed.

Lemma capImages_of_Own cap capImages :
  capImages_of cap = Own capImages ↔ CAPABILITY_IMAGES !! cap = Some capImages.
Proof.
  unfold capImages_of.
  destruct (CAPABILITY_IMAGES !! cap); [|case_bool_decide]; naive_solver.
Qed.

Lemma capImages_of_Inherited cap :
  capImages_of cap = Inherited ↔ cap ∈ Object_prototype.
Proof.
  unfold capImages_of. split.
  - destruct (CAPABILITY_IMAGES !! cap); [done|]. by case_bool_decide.
  - intros Hin.
    repeat (apply elem_of_cons in Hin as [->|Hin]; [reflexivity|]).
    by apply elem_of_nil in Hin.
Qed.

(** X20. [getRequiredImages] throws exactly when one of the capabilities
    is the name of a property of [Object.prototype].  Otherwise it returns,
    in ascending order and without repetition, the base images and the
    images of the capabilities that [CAPABILITY_IMAGES] knows; unknown
    capabilities add nothing. *)
Theorem getRequiredImages_spec capabilities :
  (getRequiredImages capabilities = None
   ↔ ∃ cap, cap ∈ capabilities ∧ cap ∈ Object_prototype)
  ∧ (∀ images, getRequiredImages capabilities = Some images →
       Sorted String.le images
       ∧ NoDup images
       ∧ ∀ img, img ∈ images
                ↔ img ∈ BASE_IMAGES
                  ∨ ∃ cap capImages, cap ∈ capabilities
                                     ∧ CAPABILITY_IMAGES !! cap = Some capImages
                                     ∧ img ∈ capImages).
Proof.
  unfold getRequiredImages. split.
  - destruct (add_images capabilities (list_to_set BASE_IMAGES)) as [s|] eqn:E; simpl.
    + split; [done|]. intros (cap & Hcap & Hin%capImages_of_Inherited).
      assert (add_images capabilities (list_to_set BASE_IMAGES) = None) as E'.
      { apply add_images_None. by exists cap. }
      congruence.
    + split; [|done]. intros _. apply add_images_None in E as (cap & Hcap & Hget).
      exists cap. split; [done|]. by apply capImages_of_Inherited.
  - intros images.
    destruct (add_images capabilities (list_to_set BASE_IMAGES)) as [s|] eqn:E;
      [|done].
    simpl. intros [= <-]. unfold Js.sort_strings. split_and!.
    + apply (Sorted_merge_sort String.le).
    + rewrite merge_sort_Permutation. apply NoDup_elements.
    + intros img. rewrite merge_sort_Permutation, elem_of_elements.
      rewrite (add_images_Some _ _ _ img E), elem_of_list_to_set.
      by setoid_rewrite capImages_of_Own.
Qed.

(** X21. The images depend on the set of capabilities only, not on their
    order or on repetitions. *)
Theorem getRequiredImages_set capabilities1 capabilities2 :
  (∀ cap, cap ∈ capabilities1 ↔ cap ∈ capabilities2) →
  getRequiredImages capabilities1 = getRequiredImages capabilities2.
Proof.
  intros Heq. unfold getRequiredImages.
  destruct (add_images capabilities1 (list_to_set BASE_IMAGES)) as [s1|] eqn:E1;
    destruct (add_images capabilities2 (list_to_set BASE_IMAGES)) as [s2|] eqn:E2;
    simpl.
  - assert (s1 = s2) as ->; [|done]. apply set_eq. intros img.
    rewrite (add_images_Some _ _ _ img E1), (add_images_Some _ _ _ img E2).
    by setoid_rewrite Heq.
  - apply add_images_None in E2 as (cap & Hcap & Hget).
    assert (add_images capabilities1 (list_to_set BASE_IMAGES) = None) as E'.
    { apply add_images_None. exists cap. by rewrite Heq. }
    congruence.
  - apply add_images_None in E1 as (cap & Hcap & Hget).
    assert (add_images capabilities2 (list_to_set BASE_IMAGES) = None) as E'.
    { apply add_images_None. exists cap. by rewrite <- Heq. }
    congruence.
  - done.
Qed.

Lemma getRequiredImages_set_witness :
  getRequiredImages ["proxy"; "email"; "proxy"] = getRequiredImages ["email"; "proxy"].
Proof.
  apply (getRequiredImages_set ["proxy"; "email"; "proxy"] ["email"; "proxy"]).
  intros cap. rewrite !elem_of_cons. tauto.
Defined.

Lemma mapM_fmap_Some {A B C} (f : A → option B) (g : A → C) (h : B → C)
    (l : list A) k :
  (∀ x y, f x = Some y → h y = g x) →
  mapM f l = Some k → h <$> k = g <$> l.
Proof.
  intros Hf. revert k. induction l as [|x l IH]; intros k; csimpl.
  - by intros [= <-].
  - destruct (f x) as [y|] eqn:E; [|done]. csimpl.
    destruct (mapM f l) as [k'|]; [|done]. csimpl. intros [= <-]. csimpl.
    by rewrite (Hf x y E), (IH k' eq_refl).
Qed.

(** X22. For the result of [orchestrate] with [numShards >= 1], the matrix
    of [--matrix --orchestrate], when it is printed, has one entry per
    returned shard, or the single placeholder entry when no shard is
    returned: it is never empty, has at most [numShards] entries, and they
    are numbered 1, 2, ..., in order.  The matrix without [--orchestrate]
    has the numbers 1 to [numShards]. *)
Theorem orchestrated_matrix_numbering discovered numShards metrics config :
  (1 ≤ numShards)%nat →
  (∃ r, orchestrate discovered numShards metrics config = Some r
        ∧ ∀ matrix, orchestrated_matrix r = Some matrix →
            m_shard <$> matrix = seq 1 (length matrix)
            ∧ length matrix = (1 `max` length (shards r))%nat
            ∧ (1 ≤ length matrix ≤ numShards)%nat)
  ∧ m_shard <$> simple_matrix numShards = seq 1 numShards.
Proof.
  intros Hn. split.
  - destruct (orchestrate_shape discovered numShards metrics config Hn)
      as (assigned & _ & _ & Hlen & Hres).
    eexists. split; [exact Hres|]. cbn [shards]. intros matrix.
    unfold orchestrated_matrix. cbn [shards].
    pose proof (shards_of_length assigned) as Hlen'. case_bool_decide as Hz.
    + intros [= <-]. rewrite Hz. simpl. split_and!; lia || done.
    + intros Hm.
      assert (m_shard <$> matrix = shard <$> shards_of assigned) as Hshards.
      { eapply mapM_fmap_Some; [|exact Hm]. intros x y. simpl.
        destruct (getRequiredImages (shard_capabilities x)); simpl; [|done].
        by intros [= <-]. }
      apply length_mapM in Hm.
      rewrite Hshards, shards_numbers, <- Hm. split_and!; [done|lia..].
  - unfold simple_matrix. rewrite <- list_fmap_compose.
    rewrite <- (fmap_S_seq 0). apply list_fmap_ext. intros _ i _. simpl. lia.
Qed.

Lemma orchestrated_matrix_numbering_witness :
  (∃ r, orchestrate [spec "a.spec.ts" ["email"]; spec "b.spec.ts" []] 3 ∅ DEFAULT_CONFIG
        = Some r
        ∧ ∀ matrix, orchestrated_matrix r = Some matrix →
            m_shard <$> matrix = seq 1 (length matrix)
            ∧ length matrix = (1 `max` length (shards r))%nat
            ∧ (1 ≤ length matrix ≤ 3)%nat)
  ∧ m_shard <$> simple_matrix 3 = seq 1 3.
Proof.
  apply (orchestrated_matrix_numbering
           [spec "a.spec.ts" ["email"]; spec "b.spec.ts" []] 3 ∅ DEFAULT_CONFIG).
  lia.
Defined.

Lemma lookups_concat {A B} (f : A → list B) (l : list A) n :
  (length l ≤ n)%nat →
  concat ((λ i, from_option f [] (l !! i)) <$> seq 0 n) = concat (f <$> l).
Proof.
  intros Hn. replace n with (length l + (n - length l))%nat by lia.
  generalize (n - length l)%nat. clear. intros k.
  rewrite seq_app, fmap_app, concat_app.
  assert (concat ((λ i, from_option f [] (l !! i)) <$> seq (0 + length l) k) = [])
    as ->.
  { simpl. assert (length l ≤ length l)%nat as Hle by lia. revert Hle.
    generalize (length l) at 2 3 as m. revert l.
    induction k as [|k IH]; intros l m Hm; csimpl; [done|].
    rewrite lookup_ge_None_2 by done. simpl. apply IH. lia. }
  rewrite (right_id_L [] (++)). f_equal.
  induction l as [|x l IH] using rev_ind; [done|].
  rewrite length_app, seq_app, !fmap_app. csimpl.
  rewrite list_lookup_middle by done. simpl. f_equal.
  rewrite <- IH. apply list_fmap_ext. intros i j [-> Hj]%lookup_seq.
  simpl. by rewrite lookup_app_l.
Qed.

(** X23. For the result of [orchestrate] with [numShards >= 1], the index
    [i] selects the shard numbered [i + 1], and the indexes 0 to
    [numShards - 1] together select every input spec path exactly once
    (counting repeated paths as often as they are given). *)
Theorem selected_shards_cover discovered numShards metrics config :
  (1 ≤ numShards)%nat →
  ∃ r, orchestrate discovered numShards metrics config = Some r
       ∧ (∀ index sh, selected_shard r index = Some sh →
                      (index < numShards)%nat ∧ shard sh = S index)
       ∧ concat ((λ index, from_option specs [] (selected_shard r index))
                   <$> seq 0 numShards)
         ≡ₚ path <$> discovered.
Proof.
  intros Hn.
  destruct (orchestrate_shape discovered numShards metrics config Hn)
    as (assigned & Hperm & _ & Hlen & Hres).
  eexists. split; [exact Hres|]. unfold selected_shard. cbn [shards]. split.
  - intros index sh Hsh. split.
    + apply lookup_lt_Some in Hsh. rewrite shards_of_length in Hsh. lia.
    + apply (f_equal (fmap shard)) in Hsh. rewrite <- list_lookup_fmap in Hsh.
      rewrite shards_numbers in Hsh. by apply lookup_seq in Hsh as [-> _].
  - rewrite <- packing_items_specs, <- Hperm.
    rewrite <- concat_fmap_concat, <- shards_specs.
    rewrite <- shards_of_length in Hlen.
    by rewrite lookups_concat.
Qed.

Lemma selected_shards_cover_witness :
  ∃ r, orchestrate [spec "a.spec.ts" ["email"]; spec "b.spec.ts" []] 3 ∅ DEFAULT_CONFIG
       = Some r
       ∧ (∀ index sh, selected_shard r index = Some sh →
                      (index < 3)%nat ∧ shard sh = S index)
       ∧ concat ((λ index, from_option specs [] (selected_shard r index))
                   <$> seq 0 3)
         ≡ₚ path <$> [spec "a.spec.ts" ["email"]; spec "b.spec.ts" []].
Proof.
  apply (selected_shards_cover
           [spec "a.spec.ts" ["email"]; spec "b.spec.ts" []] 3 ∅ DEFAULT_CONFIG).
  lia.
Defined.
